(** * pymusic_theory: notes, instruments and the fingering search

    A shallow embedding of [theory.py], [instruments.py], the
    computational part of [analysis.py] and the text that [notation.py]
    writes, followed by the properties established about them.

    Conventions of the embedding:
    - a Python [int] is a [Z]; a Python [float] is an IEEE 754 binary64
      value, represented by [spec_float] with [prec = 53], [emax = 1024];
      the exact value of a float is a rational number;
    - a call that may raise returns a [result]: [Ok v] or [Raise e];
    - a [list] object that is mutated in place lives in a [heap] and is
      named by a reference, so that aliasing is visible;
    - a [dict] keyed by [int] is a [gmap Z _]; a [dict] keyed by [Note]
      is an insertion-ordered association list searched with the
      [__hash__]/[__eq__] protocol of [Note]. *)

From Stdlib Require Import ZArith QArith Qpower Lqa Floats.SpecFloat.
From stdpp Require Import gmap strings list.

Open Scope string_scope.
Open Scope list_scope.
Open Scope Z_scope.

(** ** Python runtime: exceptions *)

Inductive exn : Set :=
  | ValueError
  | IndexError
  | KeyError
  | TypeError
  | ZeroDivisionError
  | OverflowError.

Inductive result (A : Type) : Type :=
  | Ok (a : A)
  | Raise (e : exn).

Arguments Ok {A} a.
Arguments Raise {A} e.

#[export] Instance result_ret : MRet result := fun A a => Ok a.

#[export] Instance result_bind : MBind result := fun A B f m =>
  match m with
  | Ok a => f a
  | Raise e => Raise e
  end.

Definition is_Ok {A} (r : result A) : bool :=
  match r with Ok _ => true | Raise _ => false end.

(** [for x in xs: st = body(st, x)], stopping at the first exception. *)
Fixpoint for_each {A S} (body : S → A → result S) (xs : list A) (st : S) : result S :=
  match xs with
  | [] => Ok st
  | x :: xs' => st' ← body st x; for_each body xs' st'
  end.

(** [[f(x) for x in xs]], stopping at the first exception. *)
Fixpoint map_result {A B} (f : A → result B) (xs : list A) : result (list B) :=
  match xs with
  | [] => Ok []
  | x :: xs' => y ← f x; ys ← map_result f xs'; Ok (y :: ys)
  end.

(** [range(n)] *)
Definition range (n : Z) : list Z := Z.of_nat <$> seq 0 (Z.to_nat n).

(** [enumerate(xs)] *)
Definition enumerate {A} (xs : list A) : list (Z * A) :=
  zip (range (Z.of_nat (length xs))) xs.

(** [xs.index(x)] for a list of [str]: the first position, or [ValueError]. *)
Fixpoint index_from (x : string) (xs : list string) (i : Z) : result Z :=
  match xs with
  | [] => Raise ValueError
  | y :: xs' => if String.eqb y x then Ok i else index_from x xs' (i + 1)
  end.

Definition list_index (xs : list string) (x : string) : result Z := index_from x xs 0.

(** [x in xs] for a list of [str]. *)
Definition list_contains (xs : list string) (x : string) : bool :=
  existsb (String.eqb x) xs.

(** [xs[i]]: negative indices count from the end, anything else out of
    range is an [IndexError]. *)
Definition getitem {A} (xs : list A) (i : Z) : result A :=
  let n := Z.of_nat (length xs) in
  let j := if i <? 0 then i + n else i in
  if (0 <=? j) && (j <? n) then
    match xs !! Z.to_nat j with
    | Some x => Ok x
    | None => Raise IndexError
    end
  else Raise IndexError.

(** ** Python runtime: binary64 floats *)

Module Float.

Definition prec : Z := 53.
Definition emax : Z := 1024.

Abbreviation float := spec_float.

Definition add : float → float → float := SFadd prec emax.
Definition mul : float → float → float := SFmul prec emax.
Definition div : float → float → float := SFdiv prec emax.
Definition sqrt : float → float := SFsqrt prec emax.
Definition eqb : float → float → bool := SFeqb.
Definition ltb : float → float → bool := SFltb.
Definition leb : float → float → bool := SFleb.

Definition zero : float := S754_zero false.
Definition inf : float := S754_infinity false.

(** The nearest float to an integer, ties to even. *)
Definition of_Z (n : Z) : float := binary_normalize prec emax n 0 false.

Definition one : float := of_Z 1.

Definition is_finite (x : float) : bool :=
  match x with
  | S754_zero _ | S754_finite _ _ _ => true
  | S754_infinity _ | S754_nan => false
  end.

Definition is_inf (x : float) : bool :=
  match x with S754_infinity _ => true | _ => false end.

Definition is_nan (x : float) : bool :=
  match x with S754_nan => true | _ => false end.

(** [float(n)] for an [int]: an integer beyond the float range raises
    [OverflowError] instead of giving an infinity. *)
Definition of_int (n : Z) : result float :=
  let x := of_Z n in
  if is_inf x then Raise OverflowError else Ok x.

(** [round(x, 0)]: the nearest integral float, ties to even; zeros keep
    their sign, infinities and NaN round to themselves. *)
Definition round0 (x : float) : float :=
  match x with
  | S754_finite s m e =>
      if 0 <=? e then x
      else
        let d := 2 ^ (- e) in
        let q := Z.pos m / d in
        let r := Z.pos m mod d in
        let n := match 2 * r ?= d with
                 | Lt => q
                 | Gt => q + 1
                 | Eq => if Z.even q then q else q + 1
                 end in
        binary_normalize prec emax (cond_Zopp s n) 0 s
  | _ => x
  end.

(** A non-negative finite float smaller than [2 ^ E]: a zero, or a
    mantissa of [d] binary digits with an exponent [e] where
    [d + e <= E]. *)
Definition below (E : Z) (x : float) : Prop :=
  match x with
  | S754_zero false => True
  | S754_finite false m e => Z.pos (digits2_pos m) + e ≤ E
  | _ => False
  end.

(** A decimal literal [n / 10^k] written in the source: the nearest
    float to that rational, which is what dividing the two exactly
    represented integers gives. *)
Definition decimal (n : Z) (k : Z) : float := div (of_Z n) (of_Z (10 ^ k)).

(** The exact value of a finite float, a rational number; tolerances
    are stated on it.  (An infinity and a NaN are given 0; they are
    excluded where the value is used.) *)
Definition value (x : float) : Q :=
  match x with
  | S754_finite s m e => (inject_Z (cond_Zopp s (Z.pos m)) * 2 ^ e)%Q
  | _ => 0%Q
  end.

End Float.

Abbreviation float := spec_float.

(** ** Python runtime: list objects

    The interval tables of [TheoryMaster] are list objects that [invert]
    changes in place; they are held in a heap and named by references. *)

Abbreviation ref := positive.
Abbreviation heap := (gmap positive (list Z)).

(** A list display or literal: a new object. *)
Definition alloc (l : list Z) (h : heap) : ref * heap :=
  let r := fresh (dom h) in (r, <[r := l]> h).

(** [l.pop(0)] *)
Definition list_pop0 (l : ref) (h : heap) : result (Z * heap) :=
  match h !!! l with
  | [] => Raise IndexError
  | x :: rest => Ok (x, <[l := rest]> h)
  end.

(** [l.append(x)] *)
Definition list_append (l : ref) (x : Z) (h : heap) : heap :=
  <[l := h !!! l ++ [x]]> h.

(** ** theory.py *)

Module Theory.

(** *** class Note *)

Record Note : Type := { name : string; pitch : float }.

(** [Note.__eq__] *)
Definition Note_eq (self other : Note) : bool :=
  Float.eqb (Float.round0 (pitch self)) (Float.round0 (pitch other)).

(** [Note.__ne__] *)
Definition Note_ne (self other : Note) : bool := negb (Note_eq self other).

(** [Note.__hash__] hashes the tuple [(name, round(pitch, 0))].  The
    model keeps the tuple itself as the hash value and compares two
    hash values the way Python compares the hashes of such tuples when
    no two different keys collide: the names are the same string and the
    rounded pitches are numerically equal ([0.0] and [-0.0] hash alike,
    a NaN hashes like nothing else). *)
Definition Note_hash (self : Note) : string * float :=
  (name self, Float.round0 (pitch self)).

Definition hash_eqb (h1 h2 : string * float) : bool :=
  String.eqb (fst h1) (fst h2) && Float.eqb (snd h1) (snd h2).

(** *** class TheoryMaster *)

Record TheoryMaster : Type := {
  notes_in_octave : Z;
  notes : list string;
  modes : list string;
  major_intervals : ref;
  minor_intervals : ref;
  dim_intervals : ref
}.

(** [TheoryMaster.__init__] *)
Definition TheoryMaster_init (h : heap) : TheoryMaster * heap :=
  let '(major, h) := alloc [2; 2; 1; 2; 2; 2; 1] h in
  let '(minor, h) := alloc [2; 1; 2; 2; 1; 2; 2] h in
  let '(dim, h) := alloc [2; 1; 2; 1; 2; 1; 2] h in
  ({| notes_in_octave := 8;
      notes := ["C"; "C#"; "D"; "Eb"; "E"; "F"; "F#"; "G"; "G#"; "A"; "Bb"; "B"];
      modes := ["ionian"; "dorian"; "phrygian"; "lydian"; "mixolydian";
                "aeolian"; "locrian"];
      major_intervals := major;
      minor_intervals := minor;
      dim_intervals := dim |}, h).

(** [TheoryMaster.invert]: [n] times, pop the first interval and append
    it raised by an octave; the list object itself is returned. *)
Fixpoint invert_loop (k : nat) (intervals : ref) (h : heap) : result heap :=
  match k with
  | O => Ok h
  | S k' =>
      '(first, h) ← list_pop0 intervals h;
      let base := first + 12 in
      invert_loop k' intervals (list_append intervals base h)
  end.

Definition invert (intervals : ref) (n : Z) (h : heap) : result (ref * heap) :=
  h' ← invert_loop (Z.to_nat n) intervals h;
  Ok (intervals, h').

(** [TheoryMaster.get_mode_intervals] *)
Definition get_mode_intervals (self : TheoryMaster) (mode : string) (h : heap)
  : result (ref * heap) :=
  if negb (list_contains (modes self) mode) then Raise ValueError
  else
    i ← list_index (modes self) mode;
    invert (major_intervals self) i h.

(** [TheoryMaster.get_triad_intervals] *)
Definition get_triad_intervals (interval : string) (inversion : Z) (h : heap)
  : result (ref * heap) :=
  let inverted (l : list Z) := let '(r, h) := alloc l h in invert r inversion h in
  if String.eqb interval "major" then inverted [0; 4; 7]
  else if String.eqb interval "major_7" then inverted [0; 4; 7; 11]
  else if String.eqb interval "minor" then inverted [0; 3; 7]
  else if String.eqb interval "minor_7" then inverted [0; 3; 7; 10]
  else if String.eqb interval "dom_7" then inverted [0; 4; 7; 10]
  else if String.eqb interval "dim" then inverted [0; 3; 6]
  else Raise ValueError.

(** [TheoryMaster.note_stream], read to its end.  The generator looks
    the starting note up when its first element is asked for, so a
    consumer sees the [ValueError] before any name. *)
Definition note_stream (self : TheoryMaster) (starting_note : string) (n : Z)
  : result (list string) :=
  index ← list_index (notes self) starting_note;
  map_result (λ k, getitem (notes self) ((index + k) mod 12)) (range n).

Section Pow.

(** [v ** w] on two floats with [w] nonzero.  Its value comes from the
    platform's C library and is not fixed by the language, nor is it
    correctly rounded in general; it raises [OverflowError] when the
    result is out of range. *)
Variable float_pow_nonzero : float → float → result float.

(** [v ** w] on floats: [v ** 0] is [1.0] for every [v]. *)
Definition float_pow (v w : float) : result float :=
  if Float.eqb w Float.zero then Ok Float.one else float_pow_nonzero v w.

(** [TheoryMaster.get_pitch] *)
Definition get_pitch (pitch : float) (interval : Z) : result float :=
  semitone ← float_pow (Float.of_Z 2) (Float.div (Float.of_Z 1) (Float.of_Z 12));
  w ← Float.of_int interval;
  ratio ← float_pow semitone w;
  Ok (Float.mul ratio pitch).

(** [TheoryMaster.get_triad], on the contents of the interval list. *)
Definition get_triad (self : TheoryMaster) (note : Note) (intervals : list Z)
  : result (list Note) :=
  map_result
    (λ '(i, interval),
       base ← list_index (notes self) (name note);
       nm ← getitem (notes self) ((base + interval) mod 12);
       at_i ← getitem intervals i;
       p ← get_pitch (pitch note) at_i;
       Ok {| name := nm; pitch := p |})
    (enumerate intervals).

(** *** class Scale *)

Record Scale : Type := {
  scale_name : string;
  base_note : Note;
  intervals : list Z;
  scale_notes : list Note
}.

(** The loop of [Scale.generate_scale]; its state is
    [(self.notes, current_note, current_index)]. *)
Definition generate_scale_step (theory : TheoryMaster)
    (st : list Note * Note * Z) (interval : Z) : result (list Note * Note * Z) :=
  let '(acc, current_note, current_index) := st in
  next_pitch ← get_pitch (pitch current_note) interval;
  let current_index := current_index + interval in
  nm ← getitem (notes theory) (current_index mod 12);
  let next_note := {| name := nm; pitch := next_pitch |} in
  Ok (acc ++ [next_note], next_note, current_index).

(** [Scale.__init__] with [Scale.generate_scale]; [intervals[:-1]] is
    the list without its last element. *)
Definition Scale_init (nm : string) (base : Note) (ivs : list Z) : result Scale :=
  let theory := fst (TheoryMaster_init ∅) in
  current_index ← list_index (notes theory) (name base);
  '(acc, _, _) ← for_each (generate_scale_step theory)
                    (take (length ivs - 1)%nat ivs) ([base], base, current_index);
  Ok {| scale_name := nm; base_note := base; intervals := ivs; scale_notes := acc |}.

End Pow.

(** [Scale.__getitem__]: the notes are numbered from 1 and wrap around. *)
Definition Scale_getitem (self : Scale) (index : Z) : result Note :=
  let n := Z.of_nat (length (scale_notes self)) in
  if n =? 0 then Raise ZeroDivisionError
  else getitem (scale_notes self) ((index - 1) mod n).

End Theory.

(** ** Python runtime: a [dict] keyed by [Note]

    A lookup probes the entries whose stored hash equals the hash of the
    query and accepts the first whose key compares equal with [__eq__].
    Entries are kept in insertion order, which is the order in which a
    [dict] is iterated. *)

Section NoteDict.

Import Theory.
Context {V : Type}.

Definition key_match (k q : Note) : bool :=
  hash_eqb (Note_hash k) (Note_hash q) && Note_eq k q.

(** [d.get(q)]: the value of the key that has the hash of [q] and is
    equal to it.  A [dict] of Python also accepts a key that is the very
    object asked for, before it compares; notes are values here, without
    an identity, and the two agree unless a key with a NaN pitch is asked
    for by the object that was stored: every other note is equal to
    itself.  The constructors only look up notes they have just
    created; [play] is characterised for notes whose pitch is not a NaN,
    and [get_equivalence_classes], which asks for the stored keys
    themselves, on guitars that store no NaN pitch. *)
Fixpoint dict_get (d : list (Note * V)) (q : Note) : option V :=
  match d with
  | [] => None
  | (k, v) :: d' => if key_match k q then Some v else dict_get d' q
  end.

(** [q in d] *)
Definition dict_contains (d : list (Note * V)) (q : Note) : bool :=
  match dict_get d q with Some _ => true | None => false end.

(** [d[q]] *)
Definition dict_getitem (d : list (Note * V)) (q : Note) : result V :=
  match dict_get d q with Some v => Ok v | None => Raise KeyError end.

(** [d[q] = v]: an entry with a matching key keeps its key and takes
    the new value, otherwise a new entry goes last. *)
Fixpoint dict_set (d : list (Note * V)) (q : Note) (v : V) : list (Note * V) :=
  match d with
  | [] => [(q, v)]
  | (k, x) :: d' => if key_match k q then (k, v) :: d' else (k, x) :: dict_set d' q v
  end.

(** [d[q]] followed by an in-place change [f] of the value found. *)
Fixpoint dict_update (d : list (Note * V)) (q : Note) (f : V → V)
  : result (list (Note * V)) :=
  match d with
  | [] => Raise KeyError
  | (k, x) :: d' =>
      if key_match k q then Ok ((k, f x) :: d')
      else d'' ← dict_update d' q f; Ok ((k, x) :: d'')
  end.

(** The keys of a [dict] are pairwise different for the lookup: no key
    matches a later one. *)
Fixpoint distinct_keys (ks : list Note) : Prop :=
  match ks with
  | [] => True
  | k :: ks' => Forall (λ k', key_match k k' = false) ks' ∧ distinct_keys ks'
  end.

End NoteDict.

(** ** instruments.py *)

(** The module-level [theory = TheoryMaster()]; the instruments only read
    its table of note names. *)
Definition theory : Theory.TheoryMaster := fst (Theory.TheoryMaster_init ∅).

Module Piano.

Import Theory.

Record Piano : Type := {
  num_keys : Z;
  low_note : Note;
  keys : gmap Z Note;
  notes : list (Note * Z)
}.

Section Pow.

Variable float_pow_nonzero : float → float → result float.

(** The loop body of [Piano._initiate]; the state is
    [(note, self.keys, self.notes)]. *)
Definition initiate_step (st : Note * gmap Z Note * list (Note * Z))
    (item : Z * string) : result (Note * gmap Z Note * list (Note * Z)) :=
  let '(note, keys, notes) := st in
  let '(i, note_name) := item in
  note ← (if negb (i =? 0)
          then p ← get_pitch float_pow_nonzero (pitch note) 1;
               Ok {| name := note_name; pitch := p |}
          else Ok note);
  Ok (note, <[i := note]> keys, dict_set notes note i).

(** [Piano._initiate] *)
Definition _initiate (num_keys : Z) (low_note : Note)
  : result (gmap Z Note * list (Note * Z)) :=
  names ← note_stream theory (name low_note) num_keys;
  '(_, keys, notes) ← for_each initiate_step (enumerate names) (low_note, ∅, []);
  Ok (keys, notes).

(** [Piano.__init__] *)
Definition init (num_keys : Z) (low_note : Note) : result Piano :=
  '(keys, notes) ← _initiate num_keys low_note;
  Ok {| num_keys := num_keys; low_note := low_note; keys := keys; notes := notes |}.

End Pow.

(** [Piano.play] *)
Definition play (self : Piano) (ns : list Note) : list (option Z) :=
  (λ note, dict_get (notes self) note) <$> ns.

End Piano.

Module Guitar.

Import Theory.

Record Guitar : Type := {
  nstrings : Z;
  frets : Z;
  tuning : list Note;
  strings : gmap Z Note;
  notes : list (Note * list Z)
}.

Section Pow.

Variable float_pow_nonzero : float → float → result float.

(** The statement [note = Note(...)] of the inner loop of
    [Guitar._initiate]: the name is looked up before the pitch is
    computed. *)
Definition fretted_note (open_string_note : Note) (fret : Z) : result Note :=
  base ← list_index (Theory.notes theory) (name open_string_note);
  nm ← getitem (Theory.notes theory) ((base + fret) mod 12);
  p ← get_pitch float_pow_nonzero (pitch open_string_note) fret;
  Ok {| name := nm; pitch := p |}.

(** The body of the inner loop of [Guitar._initiate]; the state is
    [(self.strings, self.notes)]. *)
Definition initiate_fret (frets : Z) (string : Z) (open_string_note : Note)
    (st : gmap Z Note * list (Note * list Z)) (fret : Z)
  : result (gmap Z Note * list (Note * list Z)) :=
  let '(strings, notes) := st in
  let position := string * frets + fret in
  note ← fretted_note open_string_note fret;
  let strings := <[position := note]> strings in
  if negb (dict_contains notes note)
  then Ok (strings, dict_set notes note [position])
  else notes ← dict_update notes note (λ l, l ++ [position]); Ok (strings, notes).

(** The body of the outer loop. *)
Definition initiate_string (frets : Z)
    (st : gmap Z Note * list (Note * list Z)) (item : Z * Note)
  : result (gmap Z Note * list (Note * list Z)) :=
  let '(string, open_string_note) := item in
  for_each (initiate_fret frets string open_string_note) (range frets) st.

(** [Guitar._initiate] *)
Definition _initiate (frets : Z) (tuning : list Note)
  : result (gmap Z Note * list (Note * list Z)) :=
  for_each (initiate_string frets) (enumerate tuning) (∅, []).

(** [Guitar.__init__] *)
Definition init (nstrings frets : Z) (tuning : list Note) : result Guitar :=
  '(strings, notes) ← _initiate frets tuning;
  Ok {| nstrings := nstrings; frets := frets; tuning := tuning;
        strings := strings; notes := notes |}.

End Pow.

(** The positions the two loops of [Guitar._initiate] go through, in
    their order. *)
Definition positions (frets : Z) (items : list (Z * Note)) : list Z :=
  '(string, _) ← items; fret ← range frets; [string * frets + fret].

(** The default [tuning] argument. *)
Definition standard_tuning : list Note :=
  [ {| name := "E"; pitch := Float.decimal 8241 2 |};
    {| name := "A"; pitch := Float.decimal 11000 2 |};
    {| name := "D"; pitch := Float.decimal 14683 2 |};
    {| name := "G"; pitch := Float.decimal 19600 2 |};
    {| name := "B"; pitch := Float.decimal 24694 2 |};
    {| name := "E"; pitch := Float.decimal 32963 2 |} ].

(** [Guitar.play] *)
Definition play (self : Guitar) (ns : list Note) : list (option (list Z)) :=
  (λ note, dict_get (notes self) note) <$> ns.

End Guitar.

(** ** analysis.py *)

Module Analysis.

Import Theory.
Import Guitar.

(** [a // b] and [a % b] on [int]: floor division, the remainder taking
    the sign of the divisor. *)
Definition floordiv (a b : Z) : result Z :=
  if b =? 0 then Raise ZeroDivisionError else Ok (a / b).

Definition modulo (a b : Z) : result Z :=
  if b =? 0 then Raise ZeroDivisionError else Ok (a mod b).

(** [math.sqrt] of an [int]: the argument is converted to a float, a
    negative one is a domain error, and the root is correctly rounded. *)
Definition math_sqrt (n : Z) : result float :=
  x ← Float.of_int n;
  if Float.ltb x Float.zero then Raise ValueError else Ok (Float.sqrt x).

(** [itertools.product] of the pools: the last pool varies fastest. *)
Fixpoint product (pools : list (list Z)) : list (list Z) :=
  match pools with
  | [] => [[]]
  | pool :: pools' => x ← pool; (λ c, x :: c) <$> product pools'
  end.

(** [sum(ds)] of a list of floats, added from the left starting at [0].
    (CPython 3.12 and later also carry a compensation term, which can
    change the last bit of a total; the search is proved for totals as
    they are defined here.) *)
Definition sum (ds : list float) : float := foldl Float.add Float.zero ds.

(** [GuitarAnalyzer.get_coordinates] *)
Definition get_coordinates (self : Guitar) (position : Z) : result (Z * Z) :=
  q ← floordiv position (frets self);
  r ← modulo position (frets self);
  Ok (q, r).

(** [GuitarAnalyzer.euclidean_distance] *)
Definition euclidean_distance (point1 point2 : Z * Z) : result float :=
  let '(x1, y1) := point1 in
  let '(x2, y2) := point2 in
  math_sqrt ((x2 - x1) ^ 2 + (y2 - y1) ^ 2).

(** [GuitarAnalyzer.compute_distance] *)
Definition compute_distance (self : Guitar) (position_1 position_2 : Z) : result float :=
  q1 ← floordiv position_1 (frets self);
  r1 ← modulo position_1 (frets self);
  let position_1_coords := (q1 + 1, r1) in
  q2 ← floordiv position_2 (frets self);
  r2 ← modulo position_2 (frets self);
  let position_2_coords := (q2 + 1, r2) in
  euclidean_distance position_1_coords position_2_coords.

(** The [total_distance] of one combination. *)
Definition total_distance (self : Guitar) (combination : list Z) : result float :=
  ds ← map_result
         (λ i, a ← getitem combination i;
               b ← getitem combination (i + 1);
               compute_distance self a b)
         (range (Z.of_nat (length combination) - 1));
  Ok (sum ds).

(** The body of the search loop; the state is
    [(least_distance, least_distance_combination)]. *)
Definition search_step (self : Guitar) (st : float * option (list Z))
    (combination : list Z) : result (float * option (list Z)) :=
  total ← total_distance self combination;
  if Float.ltb total (fst st) then Ok (total, Some combination) else Ok st.

(** [GuitarAnalyzer.compute_least_distance_combination] *)
Definition compute_least_distance_combination (self : Guitar)
    (positions_list : list (list Z)) : result (option (list Z)) :=
  let combinations := product positions_list in
  st ← for_each (search_step self) combinations (Float.inf, None);
  Ok (snd st).

(** [GuitarAnalyzer.get_finger_combination], read to its end: iterating
    over [None] is a [TypeError]. *)
Definition get_finger_combination (self : Guitar) (positions : list (list Z))
  : result (list (Z * Z)) :=
  least_distance_combination ← compute_least_distance_combination self positions;
  match least_distance_combination with
  | None => Raise TypeError
  | Some combination => map_result (get_coordinates self) combination
  end.

(** [GuitarAnalyzer.get_equivalence_classes], read to its end. *)
Definition get_equivalence_classes (self : Guitar) (ns : list Note) : result (list Note) :=
  positions ← for_each
    (λ positions note,
       found ← map_result (λ _note, dict_getitem (notes self) _note)
                 (filter (λ _note, name _note = name note) (fst <$> notes self));
       Ok (positions ++ found))
    ns [];
  map_result
    (λ position, match strings self !! position with
                 | Some note => Ok note
                 | None => Raise KeyError
                 end)
    (concat positions).

End Analysis.

(** ** notation.py

    The text of the score that [Notation.generate_notation] writes to
    its file; writing the file and running the engraver are left out.
    A [str] is a string of ASCII characters here, which the note names
    of [TheoryMaster] are. *)

Module Notation.

Import Stdlib.Strings.Ascii.
Import Theory.

(** [c.lower()] for one character. *)
Definition lower (c : Ascii.ascii) : Ascii.ascii :=
  let n := Ascii.nat_of_ascii c in
  if (65 <=? n)%nat && (n <=? 90)%nat then Ascii.ascii_of_nat (n + 32) else c.

(** [s[i]] for a [str] and a non-negative [i]. *)
Definition str_getitem (s : string) (i : nat) : result Ascii.ascii :=
  match String.get i s with
  | Some c => Ok c
  | None => Raise IndexError
  end.

(** [self.convert[c]] with [convert = {"#": "is", "b": "es"}]. *)
Definition convert (c : Ascii.ascii) : result string :=
  if Ascii.eqb c "#"%char then Ok "is"
  else if Ascii.eqb c "b"%char then Ok "es"
  else Raise KeyError.

(** The body of the loop over the notes; the state is [note_txt]. *)
Definition note_step (notes : list Note) (note_txt : string) (note : Note)
  : result string :=
  first ← str_getitem (name note) 0;
  let note_txt := String.append note_txt (String " "%char (String (lower first) "")) in
  note_txt ← (if (1 <? String.length (name note))%nat
              then second ← str_getitem (name note) 1;
                   syllable ← convert second;
                   Ok (String.append note_txt syllable)
              else Ok note_txt);
  at_1 ← getitem notes 1;
  Ok (if String.eqb (name note) (name at_1)
      then String.append note_txt "'" else note_txt).

Definition newline : string := String "010"%char "".
Definition quote : string := String "034"%char "".

(** The [text] of [generate_notation]. *)
Definition score_text (notes : list Note) : result string :=
  let version_txt :=
    String.append "\version " (String.append quote
      (String.append "2.24.3" (String.append quote newline))) in
  let relative := String.append "\relative {" newline in
  note_txt ← for_each (note_step notes) notes "";
  Ok (String.append version_txt
        (String.append relative (String.append note_txt (String.append newline "}")))).

End Notation.

(** ** A power function to run the model with

    The twelfth root of two as the GNU C library returns it, and integral
    powers by repeated multiplication.  It is one function that meets
    what the theorems below assume of [float_pow_nonzero]; exponents it
    does not cover are reported as a [ValueError]. *)

Module Libm.

(** The integer a float is equal to, if it is one. *)
Definition float_to_Z (x : float) : option Z :=
  match x with
  | S754_zero _ => Some 0
  | S754_finite s m e =>
      if 0 <=? e then Some (cond_Zopp s (Z.pos m * 2 ^ e))
      else if Z.pos m mod 2 ^ (- e) =? 0
           then Some (cond_Zopp s (Z.pos m / 2 ^ (- e)))
           else None
  | _ => None
  end.

Definition twelfth : float := Float.div (Float.of_Z 1) (Float.of_Z 12).

Definition semitone : float := S754_finite false 4771397596969315 (-52).

Definition pow_nonzero (v w : float) : result float :=
  if Float.eqb w twelfth && Float.eqb v (Float.of_Z 2) then Ok semitone
  else
    match float_to_Z w with
    | Some n =>
        let r := if 0 <? n then Z.iter n (Float.mul v) Float.one
                 else Float.div Float.one (Z.iter (- n) (Float.mul v) Float.one) in
        if Float.is_inf r then Raise OverflowError else Ok r
    | None => Raise ValueError
    end.

End Libm.

(** * Properties *)

(** ** The error monad *)

Lemma bind_Ok {A B} (f : A → result B) (m : result A) (b : B) :
  m ≫= f = Ok b ↔ ∃ a, m = Ok a ∧ f a = Ok b.
Proof.
  destruct m as [a|e]; simpl; split.
  - intros H. by exists a.
  - by intros (a' & [= ->] & H).
  - intros [=].
  - by intros (a' & [=] & _).
Qed.

Lemma for_each_cons {A S} (body : S → A → result S) (x : A) (xs : list A) (st : S) :
  for_each body (x :: xs) st = body st x ≫= for_each body xs.
Proof. done. Qed.

Lemma for_each_app {A S} (body : S → A → result S) (xs ys : list A) (st : S) :
  for_each body (xs ++ ys) st = for_each body xs st ≫= for_each body ys.
Proof.
  revert st. induction xs as [|x xs IH]; intros st; simpl; [done|].
  destruct (body st x) as [st'|e]; simpl; [apply IH | done].
Qed.

Lemma map_result_length {A B} (f : A → result B) (xs : list A) (ys : list B) :
  map_result f xs = Ok ys → length ys = length xs.
Proof.
  revert ys. induction xs as [|x xs IH]; intros ys; simpl.
  - by intros [= <-].
  - destruct (f x) as [y|e]; simpl; [|done].
    destruct (map_result f xs) as [ys'|e]; simpl; [|done].
    intros [= <-]. simpl. f_equal. by apply IH.
Qed.

Lemma elem_of_range (n x : Z) : x ∈ range n ↔ 0 ≤ x < n.
Proof.
  unfold range. rewrite list_elem_of_fmap. split.
  - intros (k & -> & Hk%elem_of_seq). lia.
  - intros Hx. exists (Z.to_nat x). split; [lia|]. apply elem_of_seq. lia.
Qed.

Lemma NoDup_range (n : Z) : NoDup (range n).
Proof. unfold range. apply NoDup_fmap; [apply _ | apply NoDup_seq]. Qed.

(** ** The model on small inputs *)

Example round0_ties_to_even :
  Float.round0 <$> [Float.decimal 5 1; Float.decimal 15 1; Float.decimal 25 1;
                    Float.decimal 8241 2; Float.decimal 4405 1]
  = Float.of_Z <$> [0; 2; 2; 82; 440].
Proof. vm_compute. reflexivity. Qed.

Example get_coordinates_26 :
  Analysis.get_coordinates
    {| Guitar.nstrings := 6; Guitar.frets := 24; Guitar.tuning := [];
       Guitar.strings := ∅; Guitar.notes := [] |} 26
  = Ok (1, 2).
Proof. reflexivity. Qed.

Example note_stream_wraps :
  Theory.note_stream theory "C" 14
  = Ok ["C"; "C#"; "D"; "Eb"; "E"; "F"; "F#"; "G"; "G#"; "A"; "Bb"; "B"; "C"; "C#"].
Proof. reflexivity. Qed.

Example distance_is_rounded_root :
  Analysis.compute_distance
    {| Guitar.nstrings := 6; Guitar.frets := 24; Guitar.tuning := [];
       Guitar.strings := ∅; Guitar.notes := [] |} 0 25
  = Ok (Float.sqrt (Float.of_Z 2)).
Proof. reflexivity. Qed.

(** ** Comparison of floats

    [SFcompare] orders the floats that are not NaN; the three facts the
    search loop relies on follow by cases on the operands. *)

Ltac compare_cases :=
  repeat match goal with
  | |- context [Z.compare ?a ?b] => destruct (Z.compare_spec a b)
  | H : context [Z.compare ?a ?b] |- _ => destruct (Z.compare_spec a b)
  | |- context [Pos.compare_cont Eq ?a ?b] =>
      change (Pos.compare_cont Eq a b) with (Pos.compare a b);
      destruct (Pos.compare_spec a b)
  | H : context [Pos.compare_cont Eq ?a ?b] |- _ =>
      change (Pos.compare_cont Eq a b) with (Pos.compare a b) in H;
      destruct (Pos.compare_spec a b)
  end.

Ltac float_order :=
  unfold Float.ltb, Float.leb, Float.eqb, SFltb, SFleb, SFeqb, SFcompare;
  repeat match goal with x : float |- _ => destruct x as [[]|[]| |[] ? ?] end;
  simpl; try congruence; intros; compare_cases; simpl in *;
  try congruence; try lia.

Lemma ltb_leb_trans (x y z : float) :
  Float.ltb x y = true → Float.leb y z = true → Float.ltb x z = true.
Proof. float_order. Qed.

Lemma ltb_trans (x y z : float) :
  Float.ltb x y = true → Float.ltb y z = true → Float.ltb x z = true.
Proof. float_order. Qed.

Lemma not_ltb_leb (x y : float) :
  Float.is_nan x = false → Float.is_nan y = false →
  Float.ltb x y = false → Float.leb y x = true.
Proof. float_order. Qed.

Lemma eqb_sym (x y : float) : Float.eqb x y = Float.eqb y x.
Proof. float_order. Qed.

Lemma eqb_trans (x y z : float) :
  Float.eqb x y = true → Float.eqb y z = true → Float.eqb x z = true.
Proof. float_order. Qed.

Lemma finite_ltb_inf (x : float) : Float.is_finite x = true → Float.ltb x Float.inf = true.
Proof. by destruct x as [[]|[]| |[] ? ?]. Qed.

Lemma finite_not_nan (x : float) : Float.is_finite x = true → Float.is_nan x = false.
Proof. by destruct x. Qed.

(** ** [invert] and the interval tables *)

Section Invert.

Import Theory.

Lemma rotate_one_more (k : nat) (x : Z) (rest : list Z) :
  (k ≤ length rest)%nat →
  drop k (rest ++ [x + 12]) ++ ((λ y, y + 12) <$> take k (rest ++ [x + 12]))
  = drop (S k) (x :: rest) ++ ((λ y, y + 12) <$> take (S k) (x :: rest)).
Proof.
  intros Hk. simpl.
  rewrite drop_app_le, take_app_le by done.
  by rewrite <- app_assoc.
Qed.

Lemma invert_loop_rotates (k : nat) (intervals : ref) (h : heap) (l : list Z) :
  h !! intervals = Some l → (k ≤ length l)%nat →
  invert_loop k intervals h =
    Ok (<[intervals := drop k l ++ ((λ y, y + 12) <$> take k l)]> h).
Proof.
  revert h l. induction k as [|k IH]; intros h l Hl Hk.
  - simpl. rewrite app_nil_r. by rewrite insert_id.
  - destruct l as [|x rest]; [simpl in Hk; lia|].
    cbn [invert_loop]. unfold list_pop0.
    rewrite (lookup_total_correct _ _ _ Hl). cbn [mbind result_bind].
    unfold list_append. rewrite lookup_total_insert_eq, insert_insert_eq.
    rewrite (IH _ (rest ++ [x + 12])).
    + rewrite insert_insert_eq. f_equal. f_equal. apply rotate_one_more.
      simpl in Hk. lia.
    + apply lookup_insert_eq.
    + rewrite length_app. simpl in *. lia.
Qed.

End Invert.

(** C8.  When the list object [intervals] holds [l] and [n] does not
    exceed the length of [l], [invert intervals n] returns that same
    object, which now holds [l] without its first [n] elements followed
    by those [n] elements each increased by 12; every other object is
    untouched.  In particular [invert([0, 4, 7], 1)] returns a list
    holding [[4, 7, 12]]. *)
Theorem invert_rotates_first_n :
  (∀ (h : heap) (intervals : ref) (l : list Z) (n : Z),
     h !! intervals = Some l → n ≤ Z.of_nat (length l) →
     Theory.invert intervals n h =
       Ok (intervals,
           <[intervals := drop (Z.to_nat n) l ++ ((λ x, x + 12) <$> take (Z.to_nat n) l)]> h))
  ∧ (∀ h : heap,
       let '(triad, h0) := alloc [0; 4; 7] h in
       ∃ h', Theory.invert triad 1 h0 = Ok (triad, h') ∧ h' !! triad = Some [4; 7; 12]).
Proof.
  assert (Hgen : ∀ (h : heap) (intervals : ref) (l : list Z) (n : Z),
     h !! intervals = Some l → n ≤ Z.of_nat (length l) →
     Theory.invert intervals n h =
       Ok (intervals,
           <[intervals := drop (Z.to_nat n) l ++ ((λ x, x + 12) <$> take (Z.to_nat n) l)]> h)).
  { intros h intervals l n Hl Hn. unfold Theory.invert.
    by rewrite (invert_loop_rotates _ _ _ l) by (done || lia). }
  split; [exact Hgen|].
  intros h. unfold alloc.
  eexists. split.
  - apply Hgen; [apply lookup_insert_eq | simpl; lia].
  - by rewrite lookup_insert_eq.
Qed.

Lemma invert_rotates_first_n_witness :
  ∃ h : heap, h !! 1%positive = Some [2; 2; 1; 2; 2; 2; 1] ∧
    Theory.invert 1%positive 2 h =
      Ok (1%positive, <[1%positive := [1; 2; 2; 2; 1; 14; 14]]> h).
Proof.
  exists {[ 1%positive := [2; 2; 1; 2; 2; 2; 1] ]}.
  split; [reflexivity|].
  apply (proj1 invert_rotates_first_n _ _ [2; 2; 1; 2; 2; 2; 1] 2);
    [reflexivity | simpl; lia].
Defined.

(** C4 (the code does otherwise).  On a fresh [TheoryMaster], asking
    twice for the intervals of the mode [dorian] returns the object
    stored as [major_intervals] both times; that table holds
    [[2, 2, 1, 2, 2, 2, 1]] before the first call,
    [[2, 1, 2, 2, 2, 1, 14]] after it and [[1, 2, 2, 2, 1, 14, 14]] after
    the second. *)
Theorem get_mode_intervals_changes_major_intervals :
  let '(self, h) := Theory.TheoryMaster_init ∅ in
  ∃ h1 h2,
    Theory.get_mode_intervals self "dorian" h = Ok (Theory.major_intervals self, h1)
    ∧ Theory.get_mode_intervals self "dorian" h1 = Ok (Theory.major_intervals self, h2)
    ∧ h !! Theory.major_intervals self = Some [2; 2; 1; 2; 2; 2; 1]
    ∧ h1 !! Theory.major_intervals self = Some [2; 1; 2; 2; 2; 1; 14]
    ∧ h2 !! Theory.major_intervals self = Some [1; 2; 2; 2; 1; 14; 14].
Proof.
  vm_compute. do 2 eexists. repeat split; reflexivity.
Qed.


(** ** The size of floats

    Rounding to nearest adds at most one binary digit, so that sums and
    square roots of moderate numbers stay finite.  The digits of a
    mantissa are counted by [digits2_pos]; [Float.below E] bounds the
    digits plus the exponent. *)

Lemma digits2_pos_spec (p : positive) (k : Z) :
  0 ≤ k → (Z.pos (digits2_pos p) ≤ k ↔ Z.pos p < 2 ^ k).
Proof.
  revert k. induction p as [p IH|p IH|]; intros k Hk; simpl digits2_pos.
  - rewrite Pos2Z.inj_succ.
    destruct (decide (k = 0)) as [->|Hne]; [simpl; lia|].
    replace k with (Z.succ (k - 1)) at 2 by lia. rewrite Z.pow_succ_r by lia.
    specialize (IH (k - 1)). lia.
  - rewrite Pos2Z.inj_succ.
    destruct (decide (k = 0)) as [->|Hne]; [simpl; lia|].
    replace k with (Z.succ (k - 1)) at 2 by lia. rewrite Z.pow_succ_r by lia.
    specialize (IH (k - 1)). lia.
  - destruct (decide (k = 0)) as [->|Hne]; [simpl; lia|].
    assert (2 ^ 1 ≤ 2 ^ k) by (apply Z.pow_le_mono_r; lia). simpl in *. lia.
Qed.

Lemma Zdigits2_spec (m k : Z) : 0 < m → 0 ≤ k → (Zdigits2 m ≤ k ↔ m < 2 ^ k).
Proof. destruct m as [|p|p]; try lia. intros _. apply digits2_pos_spec. Qed.

Lemma Zdigits2_nonneg (m : Z) : 0 ≤ Zdigits2 m.
Proof. destruct m; simpl; lia. Qed.

Lemma Zdigits2_lower (m : Z) : 0 < m → 2 ^ (Zdigits2 m - 1) ≤ m.
Proof.
  intros Hm. destruct (Z.le_gt_cases (2 ^ (Zdigits2 m - 1)) m) as [|Hlt]; [done|].
  assert (0 < Zdigits2 m) by (destruct m; simpl; lia).
  apply Zdigits2_spec in Hlt; lia.
Qed.

Lemma Zdigits2_upper (m : Z) : 0 ≤ m → m < 2 ^ Zdigits2 m.
Proof.
  intros Hm. destruct (decide (m = 0)) as [->|]; [simpl; lia|].
  apply Zdigits2_spec; [lia | apply Zdigits2_nonneg | lia].
Qed.

Lemma shr_1_m (r : shr_record) : 0 ≤ shr_m r → shr_m (shr_1 r) = shr_m r / 2.
Proof.
  destruct r as [m rb sb]. cbn [shr_m]. intros Hm.
  destruct m as [|[p|p|]|p]; cbn [shr_1 shr_m]; try lia; try done.
  - apply Z.div_unique with 1; lia.
  - apply Z.div_unique with 0; lia.
Qed.

Lemma shr_m_iter (p : positive) (r : shr_record) :
  0 ≤ shr_m r → shr_m (SpecFloat.iter_pos shr_1 p r) = shr_m r / 2 ^ Z.pos p.
Proof.
  revert r. induction p as [p IH|p IH|]; intros r Hr; cbn [SpecFloat.iter_pos].
  - assert (H1 : 0 ≤ shr_m (shr_1 r)) by (rewrite shr_1_m by done; apply Z.div_pos; lia).
    assert (H2 : 0 ≤ shr_m (SpecFloat.iter_pos shr_1 p (shr_1 r))).
    { rewrite IH by done. apply Z.div_pos; lia. }
    rewrite IH, IH, shr_1_m by done.
    rewrite !Z.div_div by lia. f_equal.
    replace (Z.pos p~1) with (1 + Z.pos p + Z.pos p) by lia.
    rewrite !Z.pow_add_r by lia. ring.
  - assert (H2 : 0 ≤ shr_m (SpecFloat.iter_pos shr_1 p r)).
    { rewrite IH by done. apply Z.div_pos; lia. }
    rewrite IH, IH by done. rewrite Z.div_div by lia. f_equal.
    replace (Z.pos p~0) with (Z.pos p + Z.pos p) by lia.
    by rewrite Z.pow_add_r by lia.
  - rewrite shr_1_m by done. done.
Qed.

Lemma Zdigits2_div_pow (m p : Z) :
  0 < m → 0 < p → m / 2 ^ p = 0 ∨ Zdigits2 (m / 2 ^ p) + p ≤ Zdigits2 m.
Proof.
  intros Hm Hp.
  assert (Hq : 0 ≤ m / 2 ^ p) by (apply Z.div_pos; lia).
  destruct (decide (m / 2 ^ p = 0)) as [|Hne]; [by left|]. right.
  pose proof (Zdigits2_upper m ltac:(lia)) as Hup.
  pose proof (Zdigits2_nonneg m) as Hd.
  assert (Hdp : p < Zdigits2 m).
  { destruct (Z.lt_ge_cases p (Zdigits2 m)) as [|Hge]; [done|].
    assert (2 ^ Zdigits2 m ≤ 2 ^ p) by (apply Z.pow_le_mono_r; lia).
    rewrite Z.div_small in Hne by lia. done. }
  assert (Zdigits2 (m / 2 ^ p) ≤ Zdigits2 m - p); [|lia].
  apply Zdigits2_spec; [lia | lia |].
  apply Z.div_lt_upper_bound; [lia|].
  rewrite <- Z.pow_add_r by lia. by replace (p + (Zdigits2 m - p)) with (Zdigits2 m) by lia.
Qed.

Lemma shr_fits (r : shr_record) (e n E : Z) :
  0 ≤ shr_m r → (shr_m r = 0 ∨ Zdigits2 (shr_m r) + e ≤ E) →
  0 ≤ shr_m (fst (shr r e n))
  ∧ (shr_m (fst (shr r e n)) = 0 ∨ Zdigits2 (shr_m (fst (shr r e n))) + snd (shr r e n) ≤ E)
  ∧ ((n ≤ 0 ∧ shr r e n = (r, e)) ∨ (0 < n ∧ snd (shr r e n) = e + n)).
Proof.
  intros Hr Hfit. destruct n as [|p|p]; cbn [shr fst snd].
  - split; [done|]. split; [done|]. left. split; [lia | done].
  - rewrite shr_m_iter by done.
    split; [apply Z.div_pos; lia|]. split; [|right; lia].
    destruct Hfit as [->|Hfit]; [left; by rewrite Z.div_0_l by lia|].
    destruct (decide (shr_m r = 0)) as [->|Hne]; [left; by rewrite Z.div_0_l by lia|].
    destruct (Zdigits2_div_pow (shr_m r) (Z.pos p)) as [?|?]; [lia | lia | by left | right; lia].
  - split; [done|]. split; [done|]. left. split; [lia | done].
Qed.

Lemma shr_record_of_loc_m (m : Z) (l : location) : shr_m (shr_record_of_loc m l) = m.
Proof. by destruct l as [|[]]. Qed.

Lemma round_nearest_even_bounds (m : Z) (l : location) :
  m ≤ round_nearest_even m l ≤ m + 1.
Proof. destruct l as [|[]]; simpl; try lia. destruct (Z.even m); lia. Qed.

Lemma Zdigits2_succ (m m' : Z) : 0 < m → m ≤ m' ≤ m + 1 → Zdigits2 m' ≤ Zdigits2 m + 1.
Proof.
  intros Hm Hm'. pose proof (Zdigits2_upper m ltac:(lia)) as Hup.
  pose proof (Zdigits2_nonneg m) as Hd.
  apply Zdigits2_spec; [lia | lia |].
  rewrite Z.pow_add_r, Z.pow_1_r by lia. lia.
Qed.

Lemma round_aux_below (mx ex : Z) (lx : location) (E : Z) :
  0 < mx → Zdigits2 mx + ex ≤ E → -1074 ≤ E → E + 1 ≤ 1024 → ex ≤ 971 →
  Float.below (E + 1) (binary_round_aux Float.prec Float.emax false mx ex lx).
Proof.
  intros Hmx Hsize Hlo Hhi Hex.
  unfold binary_round_aux, shr_fexp, Float.prec, Float.emax.
  set (n1 := SpecFloat.fexp 53 1024 (Zdigits2 mx + ex) - ex).
  pose proof (shr_fits (shr_record_of_loc mx lx) ex n1 E) as H1.
  rewrite shr_record_of_loc_m in H1.
  destruct H1 as (Hm1 & Hfit1 & He1); [lia | right; lia |].
  destruct (shr (shr_record_of_loc mx lx) ex n1) as [r1 e1] eqn:Hshr1.
  cbn [fst snd] in *.
  assert (He1' : e1 ≤ 971 ∧ e1 ≤ E).
  { subst n1. unfold SpecFloat.fexp, SpecFloat.emin in *.
    destruct He1 as [[_ [= _ <-]]|[_ ->]].
    - pose proof (Zdigits2_nonneg mx). destruct mx; simpl in *; lia.
    - lia. }
  set (m2 := round_nearest_even (shr_m r1) (loc_of_shr_record r1)).
  pose proof (round_nearest_even_bounds (shr_m r1) (loc_of_shr_record r1)) as Hm2.
  fold m2 in Hm2.
  assert (Hfit2 : m2 = 0 ∨ Zdigits2 m2 + e1 ≤ E + 1).
  { destruct (decide (shr_m r1 = 0)) as [H0|Hne].
    - destruct (decide (m2 = 0)) as [|Hne2]; [by left|]. right.
      assert (m2 = 1) as -> by lia. simpl. lia.
    - right. destruct Hfit1 as [?|Hfit1]; [done|].
      pose proof (Zdigits2_succ (shr_m r1) m2). lia. }
  set (n2 := SpecFloat.fexp 53 1024 (Zdigits2 m2 + e1) - e1).
  pose proof (shr_fits (shr_record_of_loc m2 loc_Exact) e1 n2 (E + 1)) as H2.
  rewrite shr_record_of_loc_m in H2.
  destruct H2 as (Hm3 & Hfit3 & He3); [lia | done |].
  destruct (shr (shr_record_of_loc m2 loc_Exact) e1 n2) as [r3 e3] eqn:Hshr3.
  cbn [fst snd] in *.
  assert (He3' : e3 ≤ 971).
  { subst n2. unfold SpecFloat.fexp, SpecFloat.emin in *.
    destruct He3 as [[_ [= _ <-]]|[Hpos ->]]; [lia|].
    destruct Hfit2 as [->|Hfit2]; simpl in *; lia. }
  destruct (shr_m r3) as [|m3|m3] eqn:Hr3; [done | | lia].
  destruct (Z.leb_spec e3 (1024 - 53)) as [_|?]; [|lia].
  simpl. destruct Hfit3 as [|Hfit3]; [done|]. simpl in Hfit3. lia.
Qed.

Lemma below_mono (E E' : Z) (x : float) : E ≤ E' → Float.below E x → Float.below E' x.
Proof. destruct x as [[]|[]| |[] m e]; simpl; try done. lia. Qed.

Lemma below_finite (E : Z) (x : float) : Float.below E x → Float.is_finite x = true.
Proof. by destruct x as [[]|[]| |[] m e]. Qed.

Lemma iter_xO_value (m d : positive) : Z.pos (Pos.iter xO m d) = Z.pos m * 2 ^ Z.pos d.
Proof.
  induction d as [|d IH] using Pos.peano_ind.
  - simpl. lia.
  - rewrite Pos.iter_succ, Pos2Z.inj_xO, IH, Pos2Z.inj_succ, Z.pow_succ_r by lia. lia.
Qed.

Lemma iter_xO_digits (m d : positive) :
  Z.pos (digits2_pos (Pos.iter xO m d)) = Z.pos (digits2_pos m) + Z.pos d.
Proof.
  induction d as [|d IH] using Pos.peano_ind.
  - simpl. lia.
  - rewrite Pos.iter_succ. cbn [digits2_pos]. rewrite Pos2Z.inj_succ, IH. lia.
Qed.

Lemma shl_align_spec (mx : positive) (ex ex' : Z) :
  snd (shl_align mx ex ex') = Z.min ex ex'
  ∧ Z.pos (fst (shl_align mx ex ex')) = Z.pos mx * 2 ^ (ex - Z.min ex ex')
  ∧ Z.pos (digits2_pos (fst (shl_align mx ex ex'))) + Z.min ex ex'
    = Z.pos (digits2_pos mx) + ex.
Proof.
  unfold shl_align. destruct (ex' - ex) as [|d|d] eqn:Hd; cbn [fst snd].
  - replace (Z.min ex ex') with ex by lia. rewrite Z.sub_diag. simpl. lia.
  - replace (Z.min ex ex') with ex by lia. rewrite Z.sub_diag. simpl. lia.
  - replace (Z.min ex ex') with ex' by lia.
    rewrite iter_xO_value, iter_xO_digits.
    replace (ex - ex') with (Z.pos d) by lia. lia.
Qed.

Lemma binary_round_below (mx : positive) (ex E : Z) :
  Z.pos (digits2_pos mx) + ex ≤ E → -1074 ≤ E → E + 1 ≤ 1024 →
  Float.below (E + 1) (binary_round Float.prec Float.emax false mx ex).
Proof.
  intros Hsize Hlo Hhi. unfold binary_round, Float.prec, Float.emax.
  set (e' := SpecFloat.fexp 53 1024 (Z.pos (digits2_pos mx) + ex)).
  destruct (shl_align_spec mx ex e') as (He & _ & Hd).
  destruct (shl_align mx ex e') as [mz ez]. cbn [fst snd] in *.
  apply round_aux_below; try done.
  - simpl. lia.
  - subst e'. unfold SpecFloat.fexp, SpecFloat.emin in *. lia.
Qed.

Lemma of_Z_below (n k : Z) :
  0 ≤ n < 2 ^ k → 0 ≤ k → k + 1 ≤ 1024 → Float.below (k + 1) (Float.of_Z n).
Proof.
  intros Hn Hk Hhi. unfold Float.of_Z, binary_normalize.
  destruct n as [|m|m]; [done | | lia].
  apply binary_round_below; [|lia|lia].
  rewrite Z.add_0_r. apply digits2_pos_spec; lia.
Qed.

Lemma add_below (x y : float) (E : Z) :
  Float.below E x → Float.below E y → -1074 ≤ E → E + 2 ≤ 1024 → Float.below (E + 2) (Float.add x y).
Proof.
  intros Hx Hy Hlo Hhi.
  destruct x as [[]|[]| |[] mx ex], y as [[]|[]| |[] my ey]; try done.
  - simpl in *. lia.
  - simpl in *. lia.
  - unfold Float.add, SFadd. cbn [cond_Zopp].
    set (ez := Z.min ex ey).
    destruct (shl_align_spec mx ex ez) as (_ & Hvx & Hdx).
    destruct (shl_align_spec my ey ez) as (_ & Hvy & Hdy).
    replace (Z.min ex ez) with ez in * by lia.
    replace (Z.min ey ez) with ez in * by lia.
    set (ax := fst (shl_align mx ex ez)) in *.
    set (ay := fst (shl_align my ey ez)) in *.
    change (Z.pos ax + Z.pos ay) with (Z.pos (ax + ay)). cbn [binary_normalize].
    replace (E + 2) with (E + 1 + 1) by lia.
    apply binary_round_below; [|lia|lia].
    simpl in Hx, Hy.
    assert (Hax : Z.pos ax < 2 ^ (E - ez)).
    { apply digits2_pos_spec; lia. }
    assert (Hay : Z.pos ay < 2 ^ (E - ez)).
    { apply digits2_pos_spec; lia. }
    assert (Z.pos (digits2_pos (ax + ay)) ≤ E - ez + 1); [|lia].
    apply digits2_pos_spec; [lia|].
    rewrite Z.pow_add_r, Z.pow_1_r by lia. lia.
Qed.

Lemma sqrt_below (x : float) (E : Z) :
  Float.below E x → 0 ≤ E → E ≤ 1024 → Float.below ((E + 1) / 2 + 1) (Float.sqrt x).
Proof.
  intros Hx Hlo Hhi.
  destruct x as [[]|[]| |[] mx ex]; try done.
  simpl in Hx. unfold Float.sqrt, SFsqrt, SFsqrt_core_binary, Float.prec, Float.emax.
  cbn [Zdigits2].
  assert (Hmx : Z.pos mx < 2 ^ Z.pos (digits2_pos mx)) by (apply digits2_pos_spec; lia).
  set (d := Z.pos (digits2_pos mx)) in *.
  assert (Hd : 0 < d) by (subst d; lia).
  clearbody d.
  set (e' := Z.min (SpecFloat.fexp 53 1024 (Z.div2 (d + ex + 1))) (Z.div2 ex)).
  assert (He' : 2 * e' ≤ ex ∧ e' ≤ 971).
  { subst e'. rewrite !Z.div2_div. unfold SpecFloat.fexp, SpecFloat.emin.
    split; Z.to_euclidean_division_equations; lia. }
  set (s := ex - 2 * e').
  set (m' := match s with
             | 0 => Z.pos mx
             | Z.pos _ => Z.shiftl (Z.pos mx) s
             | Z.neg _ => 0
             end).
  assert (Hm' : m' = Z.pos mx * 2 ^ s).
  { subst m'. destruct s as [|p|p] eqn:Hs; [simpl; lia | | lia].
    by rewrite Z.shiftl_mul_pow2 by lia. }
  assert (Hs : 0 ≤ s) by (subst s; lia).
  assert (Hbound : 0 < m' < 2 ^ (d + s)).
  { rewrite Hm', Z.pow_add_r by lia.
    assert (Z.pos mx < 2 ^ d) by done.
    assert (0 < 2 ^ s) by (apply Z.pow_pos_nonneg; lia). nia. }
  pose proof (Z.sqrtrem_spec m' ltac:(lia)) as Hsqrt.
  destruct (Z.sqrtrem m') as [q r]. destruct Hsqrt as [Hqr Hr].
  assert (Hq : 0 < q) by nia.
  set (k := (d + s + 1) / 2).
  assert (Hk : d + s ≤ 2 * k ∧ 2 * k ≤ d + s + 1 ∧ 0 ≤ k).
  { subst k. Z.to_euclidean_division_equations. lia. }
  clearbody k.
  assert (Hqk : q < 2 ^ k).
  { destruct (Z.lt_ge_cases q (2 ^ k)) as [|Hge]; [done|]. exfalso.
    assert (H2k : 2 ^ (d + s) ≤ 2 ^ k * 2 ^ k).
    { rewrite <- Z.pow_add_r by lia. apply Z.pow_le_mono_r; lia. }
    assert (0 < 2 ^ k) by (apply Z.pow_pos_nonneg; lia). nia. }
  assert (Hdq : Zdigits2 q ≤ k) by (apply Zdigits2_spec; lia).
  apply round_aux_below; subst s; try lia; Z.to_euclidean_division_equations; lia.
Qed.

Lemma below_not_lt_zero (E : Z) (x : float) : Float.below E x → Float.ltb x Float.zero = false.
Proof. by destruct x as [[]|[]| |[] m e]. Qed.

Lemma below_not_inf (E : Z) (x : float) : Float.below E x → Float.is_inf x = false.
Proof. by destruct x as [[]|[]| |[] m e]. Qed.

Lemma math_sqrt_below (n K : Z) :
  0 ≤ n < 2 ^ (2 * K + 1) → 0 ≤ K → 2 * K + 2 ≤ 1024 →
  ∃ d, Analysis.math_sqrt n = Ok d ∧ Float.below (K + 3) d.
Proof.
  intros Hn HK Hhi.
  pose proof (of_Z_below n (2 * K + 1) Hn ltac:(lia) ltac:(lia)) as Hx.
  unfold Analysis.math_sqrt, Float.of_int.
  rewrite (below_not_inf _ _ Hx). cbn [mbind result_bind].
  rewrite (below_not_lt_zero _ _ Hx).
  exists (Float.sqrt (Float.of_Z n)). split; [done|].
  apply (below_mono ((2 * K + 1 + 1 + 1) / 2 + 1)).
  - Z.to_euclidean_division_equations. lia.
  - apply sqrt_below; [done | lia | lia].
Qed.

Lemma compute_distance_below (self : Guitar.Guitar) (a b K : Z) :
  0 < Guitar.frets self → 0 ≤ a < 2 ^ K → 0 ≤ b < 2 ^ K → 0 ≤ K → 2 * K + 2 ≤ 1024 →
  ∃ d, Analysis.compute_distance self a b = Ok d ∧ Float.below (K + 3) d.
Proof.
  intros Hfrets Ha Hb HK Hhi.
  unfold Analysis.compute_distance, Analysis.floordiv, Analysis.modulo.
  destruct (Z.eqb_spec (Guitar.frets self) 0) as [?|_]; [lia|].
  cbn [mbind result_bind Analysis.euclidean_distance].
  set (f := Guitar.frets self) in *.
  assert (Hqa : 0 ≤ a / f ≤ a).
  { split; [apply Z.div_pos; lia|]. apply Z.div_le_upper_bound; nia. }
  assert (Hqb : 0 ≤ b / f ≤ b).
  { split; [apply Z.div_pos; lia|]. apply Z.div_le_upper_bound; nia. }
  assert (Hra : 0 ≤ a mod f ≤ a).
  { split; [apply Z.mod_pos_bound; lia|]. apply Z.mod_le; lia. }
  assert (Hrb : 0 ≤ b mod f ≤ b).
  { split; [apply Z.mod_pos_bound; lia|]. apply Z.mod_le; lia. }
  apply math_sqrt_below; [|done|done].
  rewrite Z.pow_add_r, Z.pow_mul_r, Z.pow_1_r by lia.
  replace (2 ^ 2) with 4 by done.
  assert (H4 : 4 ^ K = 2 ^ K * 2 ^ K).
  { replace 4 with (2 * 2) by done. by rewrite Z.pow_mul_l. }
  rewrite H4. nia.
Qed.

Lemma sum_below (ds : list float) (acc : float) (E : Z) :
  Forall (Float.below E) ds → Float.below E acc → -1074 ≤ E →
  E + 2 * Z.of_nat (length ds) ≤ 1024 →
  Float.below (E + 2 * Z.of_nat (length ds)) (foldl Float.add acc ds).
Proof.
  revert acc E. induction ds as [|d ds IH]; intros acc E Hds Hacc Hlo Hhi.
  - simpl. by rewrite Z.add_0_r.
  - apply Forall_cons in Hds as [Hd Hds]. cbn [foldl length] in *.
    replace (E + 2 * Z.of_nat (S (length ds))) with (E + 2 + 2 * Z.of_nat (length ds)) by lia.
    apply IH; [|apply add_below; [done | done | lia | lia] | lia | lia].
    eapply Forall_impl; [done|]. intros x. apply below_mono. lia.
Qed.

Lemma getitem_range {A} (xs : list A) (i : Z) :
  0 ≤ i < Z.of_nat (length xs) → ∃ x, getitem xs i = Ok x ∧ x ∈ xs.
Proof.
  intros Hi. unfold getitem.
  destruct (Z.ltb_spec i 0) as [?|_]; [lia|].
  destruct (Z.leb_spec 0 i) as [_|?]; [|lia].
  destruct (Z.ltb_spec i (Z.of_nat (length xs))) as [_|?]; [|lia]. cbn [andb].
  destruct (lookup_lt_is_Some_2 xs (Z.to_nat i)) as [x Hx]; [lia|].
  rewrite Hx. exists x. split; [done|]. by eapply list_elem_of_lookup_2.
Qed.

Lemma getitem_lookup {A} (xs : list A) (i : Z) (x : A) :
  0 ≤ i → xs !! Z.to_nat i = Some x → getitem xs i = Ok x.
Proof.
  intros Hi Hx. pose proof (lookup_lt_Some _ _ _ Hx) as Hlt. unfold getitem.
  destruct (Z.ltb_spec i 0) as [?|_]; [lia|].
  destruct (Z.leb_spec 0 i) as [_|?]; [|lia].
  destruct (Z.ltb_spec i (Z.of_nat (length xs))) as [_|?]; [|lia].
  cbn [andb]. by rewrite Hx.
Qed.

Lemma lookup_range (n : Z) (k : nat) :
  (k < Z.to_nat n)%nat → range n !! k = Some (Z.of_nat k).
Proof.
  intros Hk. unfold range. rewrite list_lookup_fmap, lookup_seq_lt by done. done.
Qed.

Lemma map_result_Forall {A B} (f : A → result B) (P : B → Prop) (xs : list A) :
  (∀ x, x ∈ xs → ∃ y, f x = Ok y ∧ P y) →
  ∃ ys, map_result f xs = Ok ys ∧ Forall P ys ∧ length ys = length xs.
Proof.
  induction xs as [|x xs IH]; intros Hxs.
  - exists []. by repeat split.
  - destruct (Hxs x) as (y & Hy & HP); [left|].
    destruct IH as (ys & Hys & HPs & Hlen).
    { intros x' Hx'. apply Hxs. by right. }
    exists (y :: ys). cbn [map_result]. rewrite Hy, Hys. cbn.
    split; [done|]. split; [by constructor | by rewrite Hlen].
Qed.

Lemma map_result_Forall2 {A B} (f : A → result B) (xs : list A) (ys : list B) :
  map_result f xs = Ok ys ↔ Forall2 (λ x y, f x = Ok y) xs ys.
Proof.
  revert ys. induction xs as [|x xs IH]; intros ys; cbn [map_result].
  - split; [intros [= <-]; constructor | by intros ->%Forall2_nil_inv_l].
  - split.
    + destruct (f x) as [y|e] eqn:Hy; cbn [mbind result_bind]; [|done].
      destruct (map_result f xs) as [ys'|e] eqn:Hys; cbn [mbind result_bind]; [|done].
      intros [= <-]. constructor; [done|]. by apply IH.
    + intros (y & ys' & Hy & Hys & ->)%Forall2_cons_inv_l.
      apply IH in Hys. by rewrite Hy, Hys.
Qed.

Lemma length_range (n : Z) : length (range n) = Z.to_nat n.
Proof. unfold range. by rewrite length_fmap, length_seq. Qed.

Lemma total_distance_below (self : Guitar.Guitar) (c : list Z) (K : Z) :
  0 < Guitar.frets self → Forall (λ p, 0 ≤ p < 2 ^ K) c → 0 ≤ K ≤ 511 →
  K + 3 + 2 * Z.of_nat (length c) ≤ 1024 →
  ∃ d, Analysis.total_distance self c = Ok d ∧ Float.is_finite d = true.
Proof.
  intros Hfrets Hc HK Hhi. unfold Analysis.total_distance.
  rewrite Forall_forall in Hc.
  destruct (map_result_Forall
              (λ i, a ← getitem c i; b ← getitem c (i + 1);
                    Analysis.compute_distance self a b)
              (Float.below (K + 3)) (range (Z.of_nat (length c) - 1)))
    as (ds & -> & Hds & Hlen).
  { intros i Hi%elem_of_range.
    destruct (getitem_range c i) as (a & -> & Ha); [lia|].
    destruct (getitem_range c (i + 1)) as (b & -> & Hb); [lia|].
    cbn [mbind result_bind].
    apply compute_distance_below; auto; lia. }
  cbn [mbind result_bind]. eexists. split; [done|].
  rewrite length_range in Hlen.
  apply (below_finite (K + 3 + 2 * Z.of_nat (length ds))).
  apply sum_below; [done | done | lia | lia].
Qed.

(** The distances the search adds up, written out: the correctly rounded
    square root of the nearest float to the squared distance between the
    coordinates [(position // frets + 1, position % frets)]. *)
Lemma math_sqrt_value (n K : Z) :
  0 ≤ n < 2 ^ (2 * K + 1) → 0 ≤ K → 2 * K + 2 ≤ 1024 →
  Analysis.math_sqrt n = Ok (Float.sqrt (Float.of_Z n)).
Proof.
  intros Hn HK Hhi.
  pose proof (of_Z_below n (2 * K + 1) Hn ltac:(lia) ltac:(lia)) as Hx.
  unfold Analysis.math_sqrt, Float.of_int.
  rewrite (below_not_inf _ _ Hx). cbn [mbind result_bind].
  by rewrite (below_not_lt_zero _ _ Hx).
Qed.

Lemma compute_distance_value (self : Guitar.Guitar) (a b K : Z) :
  0 < Guitar.frets self → 0 ≤ a < 2 ^ K → 0 ≤ b < 2 ^ K → 0 ≤ K → 2 * K + 2 ≤ 1024 →
  Analysis.compute_distance self a b
  = Ok (Float.sqrt
          (Float.of_Z (((b / Guitar.frets self + 1) - (a / Guitar.frets self + 1)) ^ 2
                       + (b mod Guitar.frets self - a mod Guitar.frets self) ^ 2))).
Proof.
  intros Hfrets Ha Hb HK Hhi.
  unfold Analysis.compute_distance, Analysis.floordiv, Analysis.modulo.
  destruct (Z.eqb_spec (Guitar.frets self) 0) as [?|_]; [lia|].
  cbn [mbind result_bind Analysis.euclidean_distance].
  set (f := Guitar.frets self) in *.
  assert (Hqa : 0 ≤ a / f ≤ a).
  { split; [apply Z.div_pos; lia|]. apply Z.div_le_upper_bound; nia. }
  assert (Hqb : 0 ≤ b / f ≤ b).
  { split; [apply Z.div_pos; lia|]. apply Z.div_le_upper_bound; nia. }
  assert (Hra : 0 ≤ a mod f ≤ a).
  { split; [apply Z.mod_pos_bound; lia|]. apply Z.mod_le; lia. }
  assert (Hrb : 0 ≤ b mod f ≤ b).
  { split; [apply Z.mod_pos_bound; lia|]. apply Z.mod_le; lia. }
  apply (math_sqrt_value _ K); [|done|done].
  rewrite Z.pow_add_r, Z.pow_mul_r, Z.pow_1_r by lia.
  replace (2 ^ 2) with 4 by done.
  assert (H4 : 4 ^ K = 2 ^ K * 2 ^ K).
  { replace 4 with (2 * 2) by done. by rewrite Z.pow_mul_l. }
  rewrite H4. nia.
Qed.

(** The list comprehension over [range(len(combination) - 1)] goes
    through the consecutive pairs of the combination. *)
Lemma consecutive_pairs {B} (f : Z → Z → result B) (g : Z → Z → B) (c : list Z) :
  (∀ a b, a ∈ c → b ∈ c → f a b = Ok (g a b)) →
  map_result (λ i, a ← getitem c i; b ← getitem c (i + 1); f a b)
    (range (Z.of_nat (length c) - 1))
  = Ok (zip_with g c (tail c)).
Proof.
  intros Hf. apply map_result_Forall2. apply Forall2_same_length_lookup_2.
  - rewrite length_range, length_zip_with. destruct c as [|x c]; cbn [length tail]; lia.
  - intros i x y Hx Hy.
    apply lookup_zip_with_Some in Hy as (a & b & -> & Ha & Hb).
    rewrite lookup_tail in Hb.
    pose proof (lookup_lt_Some _ _ _ Hb) as Hlt.
    rewrite lookup_range in Hx by lia. injection Hx as <-.
    rewrite (getitem_lookup c (Z.of_nat i) a), (getitem_lookup c (Z.of_nat i + 1) b);
      [|lia|by replace (Z.to_nat (Z.of_nat i + 1)) with (S i) by lia
       |lia|by rewrite Nat2Z.id].
    cbn [mbind result_bind].
    apply Hf; by eapply list_elem_of_lookup_2.
Qed.

Lemma total_distance_value (self : Guitar.Guitar) (c : list Z) (K : Z) :
  0 < Guitar.frets self → Forall (λ p, 0 ≤ p < 2 ^ K) c → 0 ≤ K → 2 * K + 2 ≤ 1024 →
  Analysis.total_distance self c
  = Ok (foldl Float.add Float.zero
          (zip_with
             (λ a b, Float.sqrt
                       (Float.of_Z (((b / Guitar.frets self + 1)
                                     - (a / Guitar.frets self + 1)) ^ 2
                                    + (b mod Guitar.frets self
                                       - a mod Guitar.frets self) ^ 2)))
             c (tail c))).
Proof.
  intros Hfrets Hc HK Hhi. unfold Analysis.total_distance.
  rewrite Forall_forall in Hc.
  rewrite (consecutive_pairs (Analysis.compute_distance self)
             (λ a b, Float.sqrt
                       (Float.of_Z (((b / Guitar.frets self + 1)
                                     - (a / Guitar.frets self + 1)) ^ 2
                                    + (b mod Guitar.frets self
                                       - a mod Guitar.frets self) ^ 2)))).
  - reflexivity.
  - intros a b Ha Hb. apply (compute_distance_value self a b K); auto.
Qed.

(** ** Equality and hashing of notes *)

(** C6 (as the code has it).  [a == b] holds exactly when the pitches of
    [a] and [b] round to equal floats, whatever the two names are; and
    two equal notes that also carry the same name have equal hashes. *)
Theorem Note_eq_rounded_pitch_hash_with_name (a b : Theory.Note) :
  (Theory.Note_eq a b = true ↔
     Float.eqb (Float.round0 (Theory.pitch a)) (Float.round0 (Theory.pitch b)) = true)
  ∧ (∀ na nb : string,
       Theory.Note_eq {| Theory.name := na; Theory.pitch := Theory.pitch a |}
                      {| Theory.name := nb; Theory.pitch := Theory.pitch b |}
       = Theory.Note_eq a b)
  ∧ (Theory.Note_eq a b = true → Theory.name a = Theory.name b →
       Theory.hash_eqb (Theory.Note_hash a) (Theory.Note_hash b) = true).
Proof.
  split; [done|]. split; [done|].
  intros Heq Hname. unfold Theory.hash_eqb, Theory.Note_hash. simpl.
  rewrite Hname, String.eqb_refl. exact Heq.
Qed.

Lemma Note_eq_rounded_pitch_hash_with_name_witness :
  let a := {| Theory.name := "A"; Theory.pitch := Float.decimal 4402 1 |} in
  let b := {| Theory.name := "A"; Theory.pitch := Float.decimal 4398 1 |} in
  Theory.Note_eq a b = true ∧ Theory.name a = Theory.name b
  ∧ Theory.hash_eqb (Theory.Note_hash a) (Theory.Note_hash b) = true.
Proof.
  intros a b.
  assert (Heq : Theory.Note_eq a b = true) by (vm_compute; reflexivity).
  assert (Hname : Theory.name a = Theory.name b) by reflexivity.
  split; [exact Heq|]. split; [exact Hname|].
  exact (proj2 (proj2 (Note_eq_rounded_pitch_hash_with_name a b)) Heq Hname).
Defined.

(** The notes C# and Db at 277.18 Hz are equal, and their hashes differ. *)
Lemma equal_notes_with_different_hashes :
  let a := {| Theory.name := "C#"; Theory.pitch := Float.decimal 27718 2 |} in
  let b := {| Theory.name := "Db"; Theory.pitch := Float.decimal 27718 2 |} in
  Theory.Note_eq a b = true
  ∧ Theory.hash_eqb (Theory.Note_hash a) (Theory.Note_hash b) = false
  ∧ Theory.Note_hash a ≠ Theory.Note_hash b.
Proof.
  intros a b. split; [vm_compute; reflexivity|]. split; [vm_compute; reflexivity|].
  intros H. apply (f_equal fst) in H. vm_compute in H. discriminate H.
Qed.

(** ** The search for the nearest combination *)

Section Search.

Import Theory Guitar Analysis.

Lemma bind_to_nil {A B} (l : list A) : (l ≫= λ _ : A, @nil B) = [].
Proof. induction l as [|x l IH]; [done|]. by simpl. Qed.

Lemma product_empty_pool (pools : list (list Z)) : [] ∈ pools → product pools = [].
Proof.
  induction pools as [|pool pools IH]; intros Hin.
  - by apply elem_of_nil in Hin.
  - apply elem_of_cons in Hin as [<-|Hin]; [done|].
    simpl. rewrite (IH Hin). simpl. apply bind_to_nil.
Qed.

Lemma elem_of_product (pools : list (list Z)) (c : list Z) :
  c ∈ product pools ↔ Forall2 (λ x pool, x ∈ pool) c pools.
Proof.
  revert c. induction pools as [|pool pools IH]; intros c; simpl.
  - rewrite list_elem_of_singleton. split.
    + intros ->. constructor.
    + by intros ->%Forall2_nil_inv_r.
  - rewrite list_elem_of_bind. split.
    + intros (x & Hc & Hx). apply list_elem_of_fmap in Hc as (c' & -> & Hc').
      constructor; [done|]. by apply IH.
    + intros (x & c' & Hx & Hc' & ->)%Forall2_cons_inv_r.
      exists x. split; [|done]. apply list_elem_of_fmap. exists c'.
      split; [done|]. by apply IH.
Qed.

Lemma product_nonempty (pools : list (list Z)) :
  Forall (λ pool, pool ≠ []) pools → product pools ≠ [].
Proof.
  induction 1 as [|pool pools Hpool _ IH]; simpl; [done|].
  destruct pool as [|x pool]; [done|].
  destruct (product pools) as [|c cs]; [done|]. done.
Qed.

Variable self : Guitar.

Lemma search_step_total (st : float * option (list Z)) (c : list Z) (d : float) :
  total_distance self c = Ok d →
  search_step self st c = Ok (if Float.ltb d (fst st) then (d, Some c) else st).
Proof. intros Hd. unfold search_step. rewrite Hd. simpl. by destruct (Float.ltb d (fst st)). Qed.

(** The search loop from the state [(ld, lc)]: either no combination of
    [cs] is strictly nearer than [ld] and the state is unchanged, or the
    loop ends on the first combination of least total distance. *)
Lemma search_loop (cs : list (list Z)) (ld : float) (lc : option (list Z)) :
  Float.is_nan ld = false →
  (∀ c, c ∈ cs → ∃ d, total_distance self c = Ok d ∧ Float.is_nan d = false) →
  (for_each (search_step self) cs (ld, lc) = Ok (ld, lc)
   ∧ ∀ c d, c ∈ cs → total_distance self c = Ok d → Float.leb ld d = true)
  ∨ (∃ best d pre post,
       for_each (search_step self) cs (ld, lc) = Ok (d, Some best)
       ∧ cs = pre ++ best :: post
       ∧ total_distance self best = Ok d
       ∧ Float.ltb d ld = true
       ∧ (∀ c d', c ∈ pre → total_distance self c = Ok d' → Float.ltb d d' = true)
       ∧ (∀ c d', c ∈ post → total_distance self c = Ok d' → Float.leb d d' = true)).
Proof.
  revert ld lc. induction cs as [|c cs IH]; intros ld lc Hld Hcost.
  - left. split; [done|]. intros c d Hc. by apply elem_of_nil in Hc.
  - destruct (Hcost c) as (d0 & Hd0 & Hnan0); [left|].
    assert (Hcost' : ∀ c', c' ∈ cs →
              ∃ d, total_distance self c' = Ok d ∧ Float.is_nan d = false).
    { intros c' Hc'. apply Hcost. by right. }
    rewrite for_each_cons, (search_step_total _ _ _ Hd0).
    cbn [mbind result_bind fst].
    destruct (Float.ltb d0 ld) eqn:Hlt.
    + right. destruct (IH d0 (Some c) Hnan0 Hcost')
        as [[Hrun Hall] | (best & d & pre & post & Hrun & Hcs & Hbest & Hd & Hpre & Hpost)].
      * exists c, d0, [], cs. repeat split; try done.
        intros c' d' Hc'. by apply elem_of_nil in Hc'.
      * exists best, d, (c :: pre), post. repeat split; try done.
        -- by rewrite Hcs.
        -- by apply ltb_trans with d0.
        -- intros c' d' Hc' Hd'. apply elem_of_cons in Hc' as [->|Hc'].
           ++ rewrite Hd0 in Hd'. by injection Hd' as <-.
           ++ by apply (Hpre c').
    + assert (Hle : Float.leb ld d0 = true) by by apply not_ltb_leb.
      destruct (IH ld lc Hld Hcost')
        as [[Hrun Hall] | (best & d & pre & post & Hrun & Hcs & Hbest & Hd & Hpre & Hpost)].
      * left. split; [done|]. intros c' d' Hc' Hd'.
        apply elem_of_cons in Hc' as [->|Hc'].
        -- rewrite Hd0 in Hd'. by injection Hd' as <-.
        -- by apply (Hall c').
      * right. exists best, d, (c :: pre), post. repeat split; try done.
        -- by rewrite Hcs.
        -- intros c' d' Hc' Hd'. apply elem_of_cons in Hc' as [->|Hc'].
           ++ rewrite Hd0 in Hd'. injection Hd' as <-.
              by apply ltb_leb_trans with ld.
           ++ by apply (Hpre c').
Qed.

End Search.

Lemma ltb_leb (x y : float) : Float.ltb x y = true → Float.leb x y = true.
Proof. float_order. Qed.

Lemma leb_refl (x : float) : Float.is_nan x = false → Float.leb x x = true.
Proof.
  unfold Float.leb, SFleb, SFcompare. destruct x as [[]|[]| |[] m e]; try done;
    intros _; rewrite Z.compare_refl;
    change (Pos.compare_cont Eq m m) with (Pos.compare m m);
    by rewrite Pos.compare_refl.
Qed.

Lemma leb_inf_finite (d : float) :
  Float.is_finite d = true → Float.leb Float.inf d = false.
Proof. by destruct d as [[]|[]| |[] ? ?]. Qed.

(** Let every pool of candidate positions be non-empty and let the
    total distance of every combination be computed without error as a
    finite float.  Then the search returns a combination that takes one
    position from each pool, is nearest, and comes first among the
    nearest. *)
Lemma search_finds_first_minimum
    (self : Guitar.Guitar) (positions_list : list (list Z)) :
  Forall (λ pool, pool ≠ []) positions_list →
  (∀ c, c ∈ Analysis.product positions_list →
     ∃ d, Analysis.total_distance self c = Ok d ∧ Float.is_finite d = true) →
  ∃ best d pre post,
    Analysis.compute_least_distance_combination self positions_list = Ok (Some best)
    ∧ Forall2 (λ x pool, x ∈ pool) best positions_list
    ∧ Analysis.total_distance self best = Ok d
    ∧ (∀ c, Forall2 (λ x pool, x ∈ pool) c positions_list →
         ∃ d', Analysis.total_distance self c = Ok d' ∧ Float.leb d d' = true)
    ∧ Analysis.product positions_list = pre ++ best :: post
    ∧ (∀ c, c ∈ pre →
         ∃ d', Analysis.total_distance self c = Ok d' ∧ Float.ltb d d' = true).
Proof.
  intros Hpools Hfinite.
  assert (Hcost : ∀ c, c ∈ Analysis.product positions_list →
            ∃ d, Analysis.total_distance self c = Ok d ∧ Float.is_nan d = false).
  { intros c Hc. destruct (Hfinite c Hc) as (d & Hd & Hfin).
    exists d. split; [done|]. by apply finite_not_nan. }
  unfold Analysis.compute_least_distance_combination.
  destruct (search_loop self (Analysis.product positions_list) Float.inf None eq_refl Hcost)
    as [[_ Hall] | (best & d & pre & post & Hrun & Hcs & Hbest & _ & Hpre & Hpost)].
  - exfalso. apply product_nonempty in Hpools.
    destruct (Analysis.product positions_list) as [|c cs] eqn:Hprod; [done|].
    destruct (Hfinite c) as (d & Hd & Hfin); [left|].
    assert (Hle : Float.leb Float.inf d = true) by (apply (Hall c); [left | done]).
    by rewrite leb_inf_finite in Hle.
  - assert (Hin : best ∈ Analysis.product positions_list).
    { rewrite Hcs. apply elem_of_app. right. left. }
    destruct (Hcost best Hin) as (d0 & Hd0 & Hnan).
    assert (d0 = d) as -> by congruence.
    exists best, d, pre, post. rewrite Hrun. simpl.
    split; [done|]. split; [by apply elem_of_product|]. split; [done|].
    split; [|split; [done|]].
    + intros c Hc%elem_of_product.
      destruct (Hcost c Hc) as (d' & Hd' & _). exists d'. split; [done|].
      rewrite Hcs in Hc. apply elem_of_app in Hc as [Hc|Hc].
      * apply ltb_leb. by apply (Hpre c).
      * apply elem_of_cons in Hc as [->|Hc].
        -- assert (d' = d) as -> by congruence. by apply leb_refl.
        -- by apply (Hpost c).
    + intros c Hc.
      destruct (Hcost c) as (d' & Hd' & _).
      { rewrite Hcs. apply elem_of_app. by left. }
      exists d'. split; [done|]. by apply (Hpre c).
Qed.

(** C1 (as the code has it).  On a guitar with at least one fret, let
    [positions_list] hold at most 400 pools of candidate positions, each
    of them non-empty and made of positions from 0 up to [2 ^ 64].  The
    distance between two positions is the correctly rounded square root of
    the nearest float to the squared distance between their coordinates
    [(position // frets + 1, position % frets)], and the total distance of
    a combination is the sum of these floats over its consecutive pairs,
    added from the left.  Then [compute_least_distance_combination]
    returns a combination [best] that takes one position from each pool
    in the order of the pools; the total distance of every such
    combination is a finite float, that of [best] is less than or equal
    to each of them, and [best] comes first among the nearest: every
    combination enumerated before it has a strictly greater total
    distance. *)
Theorem least_distance_combination_is_first_minimum
    (self : Guitar.Guitar) (positions_list : list (list Z)) :
  0 < Guitar.frets self →
  (length positions_list ≤ 400)%nat →
  Forall (λ pool, pool ≠ [] ∧ Forall (λ p, 0 ≤ p < 2 ^ 64) pool) positions_list →
  let frets := Guitar.frets self in
  let distance (a b : Z) : float :=
    Float.sqrt (Float.of_Z (((b / frets + 1) - (a / frets + 1)) ^ 2
                            + (b mod frets - a mod frets) ^ 2)) in
  let total (c : list Z) : float :=
    foldl Float.add Float.zero (zip_with distance c (tail c)) in
  ∃ best pre post,
    Analysis.compute_least_distance_combination self positions_list = Ok (Some best)
    ∧ Forall2 (λ x pool, x ∈ pool) best positions_list
    ∧ (∀ c, Forall2 (λ x pool, x ∈ pool) c positions_list →
         Float.is_finite (total c) = true ∧ Float.leb (total best) (total c) = true)
    ∧ Analysis.product positions_list = pre ++ best :: post
    ∧ (∀ c, c ∈ pre → Float.ltb (total best) (total c) = true).
Proof.
  intros Hfrets Hlen Hpools frets distance total.
  assert (Hbounds : ∀ c, Forall2 (λ x pool, x ∈ pool) c positions_list →
            Forall (λ p, 0 ≤ p < 2 ^ 64) c).
  { intros c Hc. clear Hlen.
    induction Hc as [|x pool c pools Hx _ IH]; [constructor|].
    apply Forall_cons in Hpools as [[_ Hpool] Hpools].
    constructor; [|by apply IH].
    rewrite Forall_forall in Hpool. by apply Hpool. }
  assert (Htotal : ∀ c, Forall2 (λ x pool, x ∈ pool) c positions_list →
            Analysis.total_distance self c = Ok (total c)
            ∧ Float.is_finite (total c) = true).
  { intros c Hc.
    pose proof (total_distance_value self c 64 Hfrets (Hbounds c Hc)
                  ltac:(lia) ltac:(lia)) as Hvalue.
    split; [exact Hvalue|].
    destruct (total_distance_below self c 64) as (d & Hd & Hfin);
      [done | by apply Hbounds | lia | apply Forall2_length in Hc; lia |].
    rewrite Hvalue in Hd. by injection Hd as <-. }
  destruct (search_finds_first_minimum self positions_list)
    as (best & d & pre & post & Hbest & Hin & Hd & Hleast & Hprod & Hfirst).
  { eapply Forall_impl; [exact Hpools|]. by intros pool [Hne _]. }
  { intros c Hc%elem_of_product. exists (total c). by apply Htotal. }
  assert (d = total best) as ->.
  { destruct (Htotal best Hin) as [Hvalue _]. congruence. }
  exists best, pre, post. split; [done|]. split; [done|].
  split; [|split; [done|]].
  - intros c Hc. destruct (Htotal c Hc) as [Hvalue Hfin]. split; [done|].
    destruct (Hleast c Hc) as (d' & Hd' & Hle). congruence.
  - intros c Hc. destruct (Hfirst c Hc) as (d' & Hd' & Hlt).
    destruct (Htotal c) as [Hvalue _]; [|congruence].
    apply elem_of_product. rewrite Hprod. apply elem_of_app. by left.
Qed.

(** A guitar of two strings and five frets; the search reads only the
    number of frets. *)
Lemma least_distance_combination_is_first_minimum_witness :
  let self := {| Guitar.nstrings := 2; Guitar.frets := 5; Guitar.tuning := [];
                 Guitar.strings := ∅; Guitar.notes := [] |} in
  let distance (a b : Z) : float :=
    Float.sqrt (Float.of_Z (((b / 5 + 1) - (a / 5 + 1)) ^ 2 + (b mod 5 - a mod 5) ^ 2)) in
  let total (c : list Z) : float :=
    foldl Float.add Float.zero (zip_with distance c (tail c)) in
  ∃ best pre post,
    Analysis.compute_least_distance_combination self [[0; 6]; [7; 1]; [3; 9]]
      = Ok (Some best)
    ∧ Forall2 (λ x pool, x ∈ pool) best [[0; 6]; [7; 1]; [3; 9]]
    ∧ (∀ c, Forall2 (λ x pool, x ∈ pool) c [[0; 6]; [7; 1]; [3; 9]] →
         Float.is_finite (total c) = true ∧ Float.leb (total best) (total c) = true)
    ∧ Analysis.product [[0; 6]; [7; 1]; [3; 9]] = pre ++ best :: post
    ∧ (∀ c, c ∈ pre → Float.ltb (total best) (total c) = true).
Proof.
  intros self.
  apply (least_distance_combination_is_first_minimum self [[0; 6]; [7; 1]; [3; 9]]).
  - reflexivity.
  - simpl. lia.
  - repeat (constructor; [split; [discriminate | repeat constructor; lia]|]).
    constructor.
Defined.

(** What the sentence of the specification leaves out.  With no fret the
    search of two notes raises [ZeroDivisionError]; a position as large as
    [2 ^ 600] raises [OverflowError] when the squared distance is
    converted to a float; and on a guitar of [2 ^ 28] frets the positions
    [2 ^ 28 + 2 ^ 27] and [2 ^ 27] are at the squared distances
    [2 ^ 54 + 1] and [2 ^ 54] from position 0, which are the same float,
    so that the search keeps the first although the second is nearer. *)
Lemma least_distance_search_raises_or_keeps_a_farther_one :
  let guitar frets := {| Guitar.nstrings := 6; Guitar.frets := frets; Guitar.tuning := [];
                         Guitar.strings := ∅; Guitar.notes := [] |} in
  let squared frets (a b : Z) :=
    ((b / frets + 1) - (a / frets + 1)) ^ 2 + (b mod frets - a mod frets) ^ 2 in
  Analysis.compute_least_distance_combination (guitar 0) [[0]; [1]]
    = Raise ZeroDivisionError
  ∧ Analysis.compute_least_distance_combination (guitar 24) [[0]; [2 ^ 600]]
    = Raise OverflowError
  ∧ Analysis.compute_least_distance_combination (guitar (2 ^ 28))
      [[0]; [2 ^ 28 + 2 ^ 27; 2 ^ 27]]
    = Ok (Some [0; 2 ^ 28 + 2 ^ 27])
  ∧ squared (2 ^ 28) 0 (2 ^ 27) = 2 ^ 54
  ∧ squared (2 ^ 28) 0 (2 ^ 28 + 2 ^ 27) = 2 ^ 54 + 1.
Proof. vm_compute. repeat split; reflexivity. Qed.

(** Two strings of five frets, two notes with two candidates each: the
    combinations are enumerated as (0, 7), (0, 1), (6, 7), (6, 1), with
    total distances sqrt 5, 1, 1 and 1; the first of the three nearest
    is returned. *)
Example nearest_of_four :
  Analysis.compute_least_distance_combination
    {| Guitar.nstrings := 2; Guitar.frets := 5; Guitar.tuning := [];
       Guitar.strings := ∅; Guitar.notes := [] |} [[0; 6]; [7; 1]]
  = Ok (Some [0; 1]).
Proof. vm_compute. reflexivity. Qed.

(** C2 (the code does otherwise).  When some pool of candidate
    positions is empty, [compute_least_distance_combination] returns
    [None], and [get_finger_combination], which iterates over that
    result, raises a [TypeError]. *)
Theorem empty_pool_breaks_get_finger_combination
    (self : Guitar.Guitar) (positions_list : list (list Z)) :
  [] ∈ positions_list →
  Analysis.compute_least_distance_combination self positions_list = Ok None
  ∧ Analysis.get_finger_combination self positions_list = Raise TypeError.
Proof.
  intros Hempty.
  assert (Hnone : Analysis.compute_least_distance_combination self positions_list = Ok None).
  { unfold Analysis.compute_least_distance_combination.
    by rewrite (product_empty_pool _ Hempty). }
  split; [done|].
  unfold Analysis.get_finger_combination. by rewrite Hnone.
Qed.

Lemma empty_pool_breaks_get_finger_combination_witness :
  let self := {| Guitar.nstrings := 6; Guitar.frets := 24; Guitar.tuning := [];
                 Guitar.strings := ∅; Guitar.notes := [] |} in
  Analysis.compute_least_distance_combination self [[0; 24]; []] = Ok None
  ∧ Analysis.get_finger_combination self [[0; 24]; []] = Raise TypeError.
Proof.
  intros self.
  apply (empty_pool_breaks_get_finger_combination self [[0; 24]; []]).
  right. left.
Defined.

(** ** Dictionaries keyed by notes *)

Section NoteDictFacts.

Import Theory.
Context {V : Type}.
Implicit Types (d : list (Note * V)) (k q : Note) (v : V).

Lemma key_match_spec k q :
  key_match k q = true ↔ name k = name q ∧ Note_eq k q = true.
Proof.
  unfold key_match, hash_eqb, Note_hash, Note_eq. simpl.
  rewrite !andb_true_iff, String.eqb_eq. tauto.
Qed.

Lemma key_match_sym k q : key_match k q = key_match q k.
Proof.
  unfold key_match, hash_eqb, Note_hash, Note_eq. simpl.
  by rewrite String.eqb_sym, eqb_sym.
Qed.

Lemma key_match_trans k1 k2 k3 :
  key_match k1 k2 = true → key_match k2 k3 = true → key_match k1 k3 = true.
Proof.
  rewrite !key_match_spec. intros [Hn1 He1] [Hn2 He2]. split; [congruence|].
  unfold Note_eq in *. by eapply eqb_trans.
Qed.

(** A lookup that succeeds returns the value stored with a key that has
    the name and the rounded pitch of the query. *)
Lemma dict_get_Some d q v :
  dict_get d q = Some v → ∃ k, (k, v) ∈ d ∧ key_match k q = true.
Proof.
  induction d as [|[k x] d IH]; simpl; [done|].
  destruct (key_match k q) eqn:Hk.
  - intros [= <-]. exists k. split; [left | done].
  - intros (k' & Hin & Hk')%IH. exists k'. split; [by right | done].
Qed.

(** A lookup fails exactly when no key matches. *)
Lemma dict_get_None d q :
  dict_get d q = None ↔ ∀ k v, (k, v) ∈ d → key_match k q = false.
Proof.
  induction d as [|[k x] d IH]; simpl.
  - split; [|done]. intros _ k v Hin. by apply elem_of_nil in Hin.
  - destruct (key_match k q) eqn:Hk.
    + split; [done|]. intros Hall. rewrite (Hall k x) in Hk; [done | left].
    + rewrite IH. split.
      * intros Hall k' v' [Heq|Hin]%elem_of_cons; [congruence | by eapply Hall].
      * intros Hall k' v' Hin. eapply Hall. by right.
Qed.

Lemma dict_get_None_keys d q :
  dict_get d q = None ↔ Forall (λ k, key_match k q = false) (fst <$> d).
Proof.
  rewrite dict_get_None, Forall_forall. split.
  - intros Hall k (kv & -> & Hin)%list_elem_of_fmap. destruct kv as [k v].
    by eapply Hall.
  - intros Hall k v Hin. apply Hall. apply list_elem_of_fmap. by exists (k, v).
Qed.

(** With pairwise different keys, the value of any matching key is the
    one a lookup returns. *)
Lemma dict_get_distinct d q k v :
  distinct_keys (fst <$> d) → (k, v) ∈ d → key_match k q = true →
  dict_get d q = Some v.
Proof.
  induction d as [|[k0 v0] d IH]; simpl.
  - intros _ Hin. by apply elem_of_nil in Hin.
  - intros [Hhead Htail] Hin Hk. apply elem_of_cons in Hin as [Heq|Hin]; [injection Heq as <- <-; by rewrite Hk|].
    destruct (key_match k0 q) eqn:Hk0; [|by apply IH].
    exfalso. rewrite Forall_forall in Hhead.
    assert (Hne : key_match k0 k = false).
    { apply Hhead. apply list_elem_of_fmap. by exists (k, v). }
    rewrite (key_match_trans k0 q k) in Hne; [done | done |].
    by rewrite key_match_sym.
Qed.

Lemma dict_set_fresh d q v : dict_get d q = None → dict_set d q v = d ++ [(q, v)].
Proof.
  induction d as [|[k x] d IH]; simpl; [done|].
  destruct (key_match k q); [done|]. intros Hnone. by rewrite IH.
Qed.

Lemma dict_set_keys_present d q v :
  dict_get d q ≠ None → fst <$> dict_set d q v = fst <$> d.
Proof.
  induction d as [|[k x] d IH]; simpl; [done|].
  destruct (key_match k q); [done|]. intros Hsome.
  rewrite !fmap_cons. f_equal. by apply IH.
Qed.

Lemma dict_update_Ok d q f :
  dict_get d q ≠ None → ∃ d', dict_update d q f = Ok d'.
Proof.
  induction d as [|[k x] d IH]; simpl; [done|].
  destruct (key_match k q); [by eexists|].
  intros (d' & Hd')%IH. rewrite Hd'. by eexists.
Qed.

Lemma dict_update_keys d q f d' :
  dict_update d q f = Ok d' → fst <$> d' = fst <$> d.
Proof.
  revert d'. induction d as [|[k x] d IH]; simpl; intros d'; [done|].
  destruct (key_match k q).
  - by intros [= <-].
  - destruct (dict_update d q f) as [d''|e] eqn:Hd; simpl; [|done].
    intros [= <-]. rewrite !fmap_cons. f_equal. by apply IH.
Qed.

Lemma distinct_keys_snoc (ks : list Note) q :
  distinct_keys ks → Forall (λ k, key_match k q = false) ks →
  distinct_keys (ks ++ [q]).
Proof.
  induction ks as [|k ks IH]; simpl.
  - intros _ _. split; [constructor | done].
  - intros [Hhead Htail] [Hk Hks]%Forall_cons. split; [|by apply IH].
    apply Forall_app. split; [done|]. by constructor.
Qed.

Lemma dict_set_distinct d q v :
  distinct_keys (fst <$> d) → distinct_keys (fst <$> dict_set d q v).
Proof.
  intros Hd. destruct (dict_get d q) as [x|] eqn:Hget.
  - rewrite dict_set_keys_present; [done | by rewrite Hget].
  - rewrite dict_set_fresh, fmap_app by done. simpl.
    apply distinct_keys_snoc; [done|]. by apply dict_get_None_keys.
Qed.

End NoteDictFacts.

(** ** Building a guitar *)

Section GuitarFacts.

Import Theory Guitar.

Variable float_pow_nonzero : float → float → result float.

Abbreviation initiate_fret := (Guitar.initiate_fret float_pow_nonzero).
Abbreviation fretted_note := (Guitar.fretted_note float_pow_nonzero).

Lemma update_appends (d : list (Note * list Z)) (q : Note) (x : Z) d' :
  dict_update d q (λ l, l ++ [x]) = Ok d' →
  concat (snd <$> d') ≡ₚ concat (snd <$> d) ++ [x].
Proof.
  revert d'. induction d as [|[k l] d IH]; simpl; intros d'; [done|].
  destruct (key_match k q).
  - intros [= <-]. simpl. rewrite <- !app_assoc.
    apply Permutation_app_head, Permutation_app_comm.
  - destruct (dict_update d q _) as [d''|e] eqn:Hd; simpl; [|done].
    intros [= <-]. simpl. rewrite <- app_assoc.
    apply Permutation_app_head. by apply IH.
Qed.

(** One pass through the inner loop: the note of the fret is stored at
    its position, and the position joins one class. *)
Lemma initiate_fret_Ok frets s open strings notes f strings' notes' :
  initiate_fret frets s open (strings, notes) f = Ok (strings', notes') →
  ∃ note, fretted_note open f = Ok note
    ∧ strings' = <[s * frets + f := note]> strings
    ∧ concat (snd <$> notes') ≡ₚ concat (snd <$> notes) ++ [s * frets + f]
    ∧ (distinct_keys (fst <$> notes) → distinct_keys (fst <$> notes')).
Proof.
  unfold Guitar.initiate_fret.
  destruct (fretted_note open f) as [note|e]; simpl; [|done].
  unfold dict_contains.
  destruct (dict_get notes note) as [l|] eqn:Hget; simpl.
  - destruct (dict_update notes note _) as [d'|e] eqn:Hd; simpl; [|done].
    intros [= <- <-]. exists note. repeat split; try done.
    + by apply update_appends in Hd.
    + by rewrite (dict_update_keys _ _ _ _ Hd).
  - intros [= <- <-]. exists note. repeat split; try done.
    + rewrite dict_set_fresh, fmap_app, concat_app by done. simpl.
      by rewrite ?app_nil_r.
    + apply dict_set_distinct.
Qed.

Lemma initiate_fret_succeeds frets s open st f :
  is_Ok (fretted_note open f) = true →
  ∃ st', initiate_fret frets s open st f = Ok st'.
Proof.
  destruct st as [strings notes]. unfold Guitar.initiate_fret.
  destruct (fretted_note open f) as [note|e]; simpl; [intros _|done].
  unfold dict_contains.
  destruct (dict_get notes note) as [l|] eqn:Hget; simpl; [|by eexists].
  destruct (dict_update_Ok notes note (λ l, l ++ [s * frets + f])) as [d' Hd'].
  { by rewrite Hget. }
  rewrite Hd'. by eexists.
Qed.

(** The inner loop over the frets [fs] of one string. *)
Lemma frets_loop_Ok frets s open fs strings notes strings' notes' :
  for_each (initiate_fret frets s open) fs (strings, notes) = Ok (strings', notes') →
  (∀ p, is_Some (strings' !! p) ↔
        is_Some (strings !! p) ∨ p ∈ (λ f, s * frets + f) <$> fs)
  ∧ (∀ p note, strings' !! p = Some note →
        strings !! p = Some note
        ∨ ∃ f, f ∈ fs ∧ p = s * frets + f ∧ fretted_note open f = Ok note)
  ∧ concat (snd <$> notes') ≡ₚ concat (snd <$> notes) ++ ((λ f, s * frets + f) <$> fs)
  ∧ (distinct_keys (fst <$> notes) → distinct_keys (fst <$> notes')).
Proof.
  revert strings notes. induction fs as [|f fs IH]; intros strings notes.
  - simpl. intros [= <- <-]. split; [|split; [|split]]; try tauto.
    + intros p. split; [tauto|]. intros [?|Hin]; [done | by apply elem_of_nil in Hin].
    + by rewrite app_nil_r.
  - rewrite for_each_cons.
    destruct (initiate_fret frets s open (strings, notes) f) as [[strings1 notes1]|e] eqn:Hstep;
      cbn [mbind result_bind]; [|done].
    apply initiate_fret_Ok in Hstep as (note & Hnote & -> & Hperm & Hdist).
    intros (Hdom & Hprov & Hperm' & Hdist')%IH.
    split; [|split; [|split]].
    + intros p. rewrite Hdom, fmap_cons, elem_of_cons, lookup_insert_is_Some.
      destruct (decide (s * frets + f = p)) as [<-|Hne].
      * split; intros _; [right; by left | left; by left].
      * split.
        -- intros [[?|[_ ?]]|?]; [done | by left | right; by right].
        -- intros [?|[?|?]]; [left; by right | congruence | by right].
    + intros p note' Hp. apply Hprov in Hp as [Hp|(f' & Hf' & -> & Hnote')].
      * apply lookup_insert_Some in Hp as [[<- <-]|[_ Hp]]; [|by left].
        right. exists f. split; [left | done].
      * right. exists f'. split; [by right | done].
    + rewrite Hperm', Hperm, fmap_cons, <- app_assoc. done.
    + tauto.
Qed.

Lemma frets_loop_succeeds frets s open fs st :
  (∀ f, f ∈ fs → is_Ok (fretted_note open f) = true) →
  ∃ st', for_each (initiate_fret frets s open) fs st = Ok st'.
Proof.
  revert st. induction fs as [|f fs IH]; intros st Hfs; [by eexists|].
  rewrite for_each_cons.
  destruct (initiate_fret_succeeds frets s open st f) as [st1 ->].
  { apply Hfs. left. }
  simpl. apply IH. intros f' Hf'. apply Hfs. by right.
Qed.

Lemma bind_singleton {A B} (g : A → B) (l : list A) : (x ← l; [g x]) = g <$> l.
Proof. induction l as [|x l IH]; [done|]. cbn. by rewrite IH. Qed.

Lemma positions_cons frets s (open : Note) items :
  positions frets ((s, open) :: items)
  = ((λ f, s * frets + f) <$> range frets) ++ positions frets items.
Proof. unfold positions. cbn. by rewrite bind_singleton. Qed.

(** The outer loop over the strings [items]. *)
Lemma strings_loop_Ok frets items strings notes strings' notes' :
  for_each (Guitar.initiate_string float_pow_nonzero frets) items (strings, notes)
    = Ok (strings', notes') →
  (∀ p, is_Some (strings' !! p) ↔ is_Some (strings !! p) ∨ p ∈ positions frets items)
  ∧ (∀ p note, strings' !! p = Some note →
        strings !! p = Some note
        ∨ ∃ s open f, (s, open) ∈ items ∧ f ∈ range frets ∧ p = s * frets + f
                      ∧ fretted_note open f = Ok note)
  ∧ concat (snd <$> notes') ≡ₚ concat (snd <$> notes) ++ positions frets items
  ∧ (distinct_keys (fst <$> notes) → distinct_keys (fst <$> notes')).
Proof.
  revert strings notes. induction items as [|[s open] items IH]; intros strings notes.
  - simpl. intros [= <- <-]. split; [|split; [|split]]; try tauto.
    + intros p. split; [tauto|]. intros [?|Hin]; [done | by apply elem_of_nil in Hin].
    + by rewrite app_nil_r.
  - rewrite for_each_cons.
    change (Guitar.initiate_string float_pow_nonzero frets (strings, notes) (s, open))
      with (for_each (initiate_fret frets s open) (range frets) (strings, notes)).
    destruct (for_each (initiate_fret frets s open) (range frets) (strings, notes))
      as [[strings1 notes1]|e] eqn:Hstring;
      cbn [mbind result_bind]; [|done].
    apply frets_loop_Ok in Hstring as (Hdom1 & Hprov1 & Hperm1 & Hdist1).
    intros (Hdom & Hprov & Hperm & Hdist)%IH.
    pose proof (positions_cons frets s open items) as Hpos.
    split; [|split; [|split]].
    + intros p. rewrite Hdom, Hdom1, Hpos, elem_of_app. tauto.
    + intros p note Hp. apply Hprov in Hp as [Hp|(s' & open' & f & Hin & Hf & -> & Hnote)].
      * apply Hprov1 in Hp as [Hp|(f & Hf & -> & Hnote)]; [by left|].
        right. exists s, open, f. split; [left | done].
      * right. exists s', open', f. split; [by right | done].
    + rewrite Hperm, Hperm1, Hpos, <- app_assoc. done.
    + tauto.
Qed.

Lemma strings_loop_succeeds frets items st :
  (∀ s open f, (s, open) ∈ items → f ∈ range frets →
     is_Ok (fretted_note open f) = true) →
  ∃ st', for_each (Guitar.initiate_string float_pow_nonzero frets) items st = Ok st'.
Proof.
  revert st. induction items as [|[s open] items IH]; intros st Hitems; [by eexists|].
  rewrite for_each_cons.
  change (Guitar.initiate_string float_pow_nonzero frets st (s, open))
    with (for_each (initiate_fret frets s open) (range frets) st).
  destruct (frets_loop_succeeds frets s open (range frets) st) as [st1 ->].
  { intros f Hf. apply (Hitems s); [left | done]. }
  simpl. apply IH. intros s' open' f Hin Hf. apply (Hitems s'); [by right | done].
Qed.

End GuitarFacts.

(** ** The standard guitar *)

Lemma elem_of_concat {A} (ls : list (list A)) (x : A) :
  x ∈ concat ls ↔ ∃ l, l ∈ ls ∧ x ∈ l.
Proof.
  induction ls as [|l ls IH]; simpl.
  - split; [by intros ?%elem_of_nil | by intros (l & ?%elem_of_nil & _)].
  - rewrite elem_of_app, IH. split.
    + intros [Hx|(l' & Hl' & Hx)]; [exists l; split; [left | done]|].
      exists l'. split; [by right | done].
    + intros (l' & [->|Hl']%elem_of_cons & Hx); [by left|].
      right. by exists l'.
Qed.

(** When the concatenation of some lists has no duplicate, an element
    lies in one of them only. *)
Lemma NoDup_concat_unique {A} (ls : list (list A)) (i j : nat) (l1 l2 : list A) (x : A) :
  NoDup (concat ls) → ls !! i = Some l1 → ls !! j = Some l2 →
  x ∈ l1 → x ∈ l2 → i = j.
Proof.
  revert i j. induction ls as [|l ls IH]; intros i j; simpl; [done|].
  intros (Hl & Hsep & Hls)%NoDup_app Hi Hj H1 H2.
  assert (Hout : ∀ n l', ls !! n = Some l' → x ∈ l → x ∈ l' → False).
  { intros n l' Hn Hxl Hxl'. apply (Hsep x Hxl). apply elem_of_concat.
    exists l'. split; [|done]. by eapply list_elem_of_lookup_2. }
  destruct i as [|i], j as [|j]; simpl in *.
  - done.
  - injection Hi as <-. by destruct (Hout j l2).
  - injection Hj as <-. by destruct (Hout i l1).
  - f_equal. by apply IH.
Qed.

Lemma getitem_chromatic (x : Z) : is_Ok (getitem (Theory.notes theory) (x mod 12)) = true.
Proof.
  pose proof (Z.mod_pos_bound x 12 eq_refl) as Hx. unfold getitem.
  change (Z.of_nat (length (Theory.notes theory))) with 12.
  destruct (Z.ltb_spec (x mod 12) 0) as [?|_]; [lia|].
  destruct (Z.leb_spec 0 (x mod 12)) as [_|?]; [|lia].
  destruct (Z.ltb_spec (x mod 12) 12) as [_|?]; [|lia]. cbn [andb].
  destruct (lookup_lt_is_Some_2 (Theory.notes theory) (Z.to_nat (x mod 12))) as [nm ->];
    [|done].
  change (length (Theory.notes theory)) with 12%nat. lia.
Qed.

Section StandardGuitar.

Import Theory Guitar.

Variable float_pow_nonzero : float → float → result float.
Variable semitone : float.

Hypothesis twelfth_root :
  float_pow_nonzero (Float.of_Z 2) (Float.div (Float.of_Z 1) (Float.of_Z 12)) = Ok semitone.

Lemma get_pitch_fret_0 (pitch : float) :
  get_pitch float_pow_nonzero pitch 0 = Ok (Float.mul Float.one pitch).
Proof.
  unfold get_pitch, float_pow.
  change (Float.eqb (Float.div (Float.of_Z 1) (Float.of_Z 12)) Float.zero) with false.
  rewrite twelfth_root. reflexivity.
Qed.

Hypothesis powers :
  ∀ f, 0 < f < 24 → is_Ok (float_pow_nonzero semitone (Float.of_Z f)) = true.

Lemma small_int_to_float (f : Z) :
  0 < f < 24 →
  Float.of_int f = Ok (Float.of_Z f) ∧ Float.eqb (Float.of_Z f) Float.zero = false.
Proof.
  intros Hf.
  assert (Hall : Forall (λ f, Float.of_int f = Ok (Float.of_Z f)
                              ∧ Float.eqb (Float.of_Z f) Float.zero = false)
                   (Z.of_nat <$> seq 1 23)).
  { repeat (constructor; [split; vm_compute; reflexivity|]). constructor. }
  rewrite Forall_forall in Hall. apply Hall.
  apply list_elem_of_fmap. exists (Z.to_nat f). split; [lia|]. apply elem_of_seq. lia.
Qed.

Lemma get_pitch_fret (pitch : float) (f : Z) :
  0 ≤ f < 24 → is_Ok (get_pitch float_pow_nonzero pitch f) = true.
Proof.
  intros Hf. destruct (decide (f = 0)) as [->|Hne]; [by rewrite get_pitch_fret_0|].
  destruct (small_int_to_float f) as [Hint Hnz]; [lia|].
  unfold get_pitch, float_pow.
  change (Float.eqb (Float.div (Float.of_Z 1) (Float.of_Z 12)) Float.zero) with false.
  rewrite twelfth_root. cbn [mbind result_bind]. rewrite Hint. cbn [mbind result_bind].
  rewrite Hnz.
  specialize (powers f). destruct (float_pow_nonzero semitone (Float.of_Z f)); [done|].
  apply powers. lia.
Qed.

Lemma standard_fretted_note (s : Z) (open : Note) (f : Z) :
  (s, open) ∈ enumerate standard_tuning → f ∈ range 24 →
  is_Ok (fretted_note float_pow_nonzero open f) = true.
Proof.
  intros Hopen Hf%elem_of_range. unfold fretted_note.
  assert (Hindex : ∃ base, list_index (Theory.notes theory) (name open) = Ok base).
  { vm_compute in Hopen.
    repeat (apply elem_of_cons in Hopen as [[= -> ->]|Hopen]; [by eexists|]).
    by apply elem_of_nil in Hopen. }
  destruct Hindex as [base ->]. cbn [mbind result_bind].
  pose proof (getitem_chromatic (base + f)) as Hname.
  destruct (getitem (Theory.notes theory) ((base + f) mod 12)) as [nm|]; [|done].
  cbn [mbind result_bind].
  pose proof (get_pitch_fret (pitch open) f Hf) as Hpitch.
  by destruct (get_pitch float_pow_nonzero (pitch open) f).
Qed.

Lemma standard_open_string (s : Z) (open : Note) (f : Z) (p : Z) (note : Note) :
  (s, open) ∈ enumerate standard_tuning → f ∈ range 24 → p = s * 24 + f →
  fretted_note float_pow_nonzero open f = Ok note →
  (p = 0 → note = {| name := "E"; pitch := Float.decimal 8241 2 |})
  ∧ (p = 24 → note = {| name := "A"; pitch := Float.decimal 11000 2 |}).
Proof.
  intros Hopen Hf%elem_of_range -> Hnote. vm_compute in Hopen.
  repeat (apply elem_of_cons in Hopen as [[= -> ->]|Hopen];
    [split; intros Hp; try lia; assert (f = 0) as -> by lia;
     unfold fretted_note in Hnote; rewrite get_pitch_fret_0 in Hnote;
     vm_compute in Hnote; by injection Hnote as <- |]).
  by apply elem_of_nil in Hopen.
Qed.

End StandardGuitar.

(** C7.  On a platform where [2 ** (1/12)] evaluates to a float and
    that float can be raised to the powers 1 to 23, constructing the
    guitar of 6 strings and 24 frets in standard tuning succeeds; the
    keys of its position-to-note map are exactly the integers from 0 to
    143, 144 of them; the classes of its note-to-positions map list
    each of these positions once and nothing else, so that every position
    lies in exactly one class; position 0 holds the note E of 82.41 Hz
    and position 24 the note A of 110.00 Hz. *)
Theorem standard_guitar_positions
    (float_pow_nonzero : float → float → result float) (semitone : float) :
  float_pow_nonzero (Float.of_Z 2) (Float.div (Float.of_Z 1) (Float.of_Z 12))
    = Ok semitone →
  (∀ f, 0 < f < 24 → is_Ok (float_pow_nonzero semitone (Float.of_Z f)) = true) →
  ∃ g, Guitar.init float_pow_nonzero 6 24 Guitar.standard_tuning = Ok g
    ∧ (∀ p, is_Some (Guitar.strings g !! p) ↔ 0 ≤ p < 6 * 24)
    ∧ size (Guitar.strings g) = 144%nat
    ∧ concat (snd <$> Guitar.notes g) ≡ₚ range 144
    ∧ (∀ p, 0 ≤ p < 6 * 24 →
         ∃ i k ps, Guitar.notes g !! i = Some (k, ps) ∧ p ∈ ps
           ∧ ∀ j k' ps', Guitar.notes g !! j = Some (k', ps') → p ∈ ps' → j = i)
    ∧ Guitar.strings g !! 0
        = Some {| Theory.name := "E"; Theory.pitch := Float.decimal 8241 2 |}
    ∧ Guitar.strings g !! 24
        = Some {| Theory.name := "A"; Theory.pitch := Float.decimal 11000 2 |}.
Proof.
  intros Hroot Hpowers.
  destruct (strings_loop_succeeds float_pow_nonzero 24
              (enumerate Guitar.standard_tuning) (∅, [])) as [[strings notes] Hrun].
  { intros s open f. by apply standard_fretted_note with semitone. }
  exists {| Guitar.nstrings := 6; Guitar.frets := 24;
            Guitar.tuning := Guitar.standard_tuning;
            Guitar.strings := strings; Guitar.notes := notes |}.
  unfold Guitar.init, Guitar._initiate. rewrite Hrun. cbn [mbind result_bind].
  split; [done|]. cbn [Guitar.strings Guitar.notes].
  apply strings_loop_Ok in Hrun as (Hdom & Hprov & Hperm & _).
  change (Guitar.positions 24 (enumerate Guitar.standard_tuning)) with (range 144)
    in Hdom, Hperm.
  assert (Hkeys : ∀ p, is_Some (strings !! p) ↔ 0 ≤ p < 6 * 24).
  { intros p. rewrite Hdom, elem_of_range, lookup_empty, is_Some_alt. tauto. }
  assert (Hat : ∀ p, 0 ≤ p < 6 * 24 → ∃ note, strings !! p = Some note
            ∧ (p = 0 → note = {| Theory.name := "E"; Theory.pitch := Float.decimal 8241 2 |})
            ∧ (p = 24 → note = {| Theory.name := "A"; Theory.pitch := Float.decimal 11000 2 |})).
  { intros p [note Hnote]%Hkeys. exists note. split; [done|].
    destruct (Hprov p note Hnote) as [Hempty|(s & open & f & Hopen & Hf & Hp & Hfretted)].
    - by rewrite lookup_empty in Hempty.
    - by apply (standard_open_string float_pow_nonzero semitone Hroot s open f). }
  split; [exact Hkeys|]. split; [|split; [|split; [|split]]].
  - rewrite <- size_dom.
    assert (Hset : dom strings = list_to_set (range 144)).
    { apply set_eq. intros p. rewrite elem_of_dom, Hkeys, elem_of_list_to_set, elem_of_range.
      lia. }
    rewrite Hset, size_list_to_set by apply NoDup_range. reflexivity.
  - by rewrite Hperm.
  - intros p Hp.
    assert (Hin : p ∈ concat (snd <$> notes)).
    { rewrite Hperm. apply elem_of_range. lia. }
    apply elem_of_concat in Hin as (ps & Hps & Hpps).
    apply list_elem_of_lookup in Hps as [i Hi].
    rewrite list_lookup_fmap in Hi.
    destruct (notes !! i) as [[k ps0]|] eqn:Hentry; [|done]. injection Hi as ->.
    exists i, k, ps. split; [done|]. split; [done|].
    intros j k' ps' Hj Hpps'.
    apply (NoDup_concat_unique (snd <$> notes) j i ps' ps p); try done.
    + rewrite Hperm. apply NoDup_range.
    + by rewrite list_lookup_fmap, Hj.
    + by rewrite list_lookup_fmap, Hentry.
  - destruct (Hat 0) as (note & -> & -> & _); [lia | done | done].
  - destruct (Hat 24) as (note & -> & _ & ->); [lia | done | done].
Qed.

Lemma standard_guitar_positions_witness :
  ∃ g, Guitar.init Libm.pow_nonzero 6 24 Guitar.standard_tuning = Ok g
    ∧ (∀ p, is_Some (Guitar.strings g !! p) ↔ 0 ≤ p < 6 * 24)
    ∧ size (Guitar.strings g) = 144%nat
    ∧ concat (snd <$> Guitar.notes g) ≡ₚ range 144
    ∧ (∀ p, 0 ≤ p < 6 * 24 →
         ∃ i k ps, Guitar.notes g !! i = Some (k, ps) ∧ p ∈ ps
           ∧ ∀ j k' ps', Guitar.notes g !! j = Some (k', ps') → p ∈ ps' → j = i)
    ∧ Guitar.strings g !! 0
        = Some {| Theory.name := "E"; Theory.pitch := Float.decimal 8241 2 |}
    ∧ Guitar.strings g !! 24
        = Some {| Theory.name := "A"; Theory.pitch := Float.decimal 11000 2 |}.
Proof.
  apply (standard_guitar_positions Libm.pow_nonzero Libm.semitone).
  - vm_compute. reflexivity.
  - intros f Hf.
    assert (Hall : Forall (λ f, is_Ok (Libm.pow_nonzero Libm.semitone (Float.of_Z f)) = true)
                     (Z.of_nat <$> seq 1 23)).
    { repeat (constructor; [vm_compute; reflexivity|]). constructor. }
    rewrite Forall_forall in Hall. apply Hall.
    apply list_elem_of_fmap. exists (Z.to_nat f). split; [lia|]. apply elem_of_seq. lia.
Defined.

(** ** Looking notes up *)

Section Play.

Import Theory.

Variable float_pow_nonzero : float → float → result float.

Lemma guitar_distinct_keys nstrings frets tuning g :
  Guitar.init float_pow_nonzero nstrings frets tuning = Ok g →
  distinct_keys (fst <$> Guitar.notes g).
Proof.
  unfold Guitar.init, Guitar._initiate.
  destruct (for_each _ (enumerate tuning) (∅, [])) as [[strings notes]|e] eqn:Hrun;
    cbn [mbind result_bind]; [|done].
  intros [= <-]. cbn [Guitar.notes].
  apply strings_loop_Ok in Hrun as (_ & _ & _ & Hdist). by apply Hdist.
Qed.

Lemma piano_step_distinct_keys st item st' :
  Piano.initiate_step float_pow_nonzero st item = Ok st' →
  distinct_keys (fst <$> snd st) → distinct_keys (fst <$> snd st').
Proof.
  destruct st as [[note keys] notes], item as [i nm]. unfold Piano.initiate_step.
  destruct (negb (i =? 0));
    [destruct (get_pitch float_pow_nonzero (pitch note) 1) as [pch|e]|];
    cbn [mbind result_bind]; try done;
    intros [= <-] Hdist; apply dict_set_distinct, Hdist.
Qed.

Lemma piano_loop_distinct_keys items st st' :
  for_each (Piano.initiate_step float_pow_nonzero) items st = Ok st' →
  distinct_keys (fst <$> snd st) → distinct_keys (fst <$> snd st').
Proof.
  revert st. induction items as [|item items IH]; intros st.
  - simpl. by intros [= <-].
  - rewrite for_each_cons.
    destruct (Piano.initiate_step float_pow_nonzero st item) as [st1|e] eqn:Hstep;
      cbn [mbind result_bind]; [|done].
    intros Hrun Hdist. apply (IH _ Hrun). by apply (piano_step_distinct_keys _ _ _ Hstep).
Qed.

Lemma piano_distinct_keys num_keys low_note p :
  Piano.init float_pow_nonzero num_keys low_note = Ok p →
  distinct_keys (fst <$> Piano.notes p).
Proof.
  unfold Piano.init, Piano._initiate.
  destruct (note_stream theory (name low_note) num_keys) as [names|e];
    cbn [mbind result_bind]; [|done].
  destruct (for_each _ (enumerate names) (low_note, ∅, [])) as [[[note keys] notes]|e] eqn:Hrun;
    cbn [mbind result_bind]; [|done].
  intros [= <-]. cbn [Piano.notes].
  by apply (piano_loop_distinct_keys _ _ _ Hrun).
Qed.

(** What a lookup in a dictionary with pairwise different keys returns. *)
Lemma lookup_by_name_and_rounded_pitch {V} (d : list (Note * V)) (q : Note) :
  distinct_keys (fst <$> d) →
  (∀ v, dict_get d q = Some v ↔
        ∃ k, (k, v) ∈ d ∧ name k = name q ∧ Note_eq k q = true)
  ∧ (dict_get d q = None ↔
       ∀ k v, (k, v) ∈ d → ¬ (name k = name q ∧ Note_eq k q = true)).
Proof.
  intros Hdist. split.
  - intros v. split.
    + intros (k & Hin & Hk%key_match_spec)%dict_get_Some. by exists k.
    + intros (k & Hin & Hk). apply (dict_get_distinct d q k v Hdist Hin).
      by apply key_match_spec.
  - rewrite dict_get_None. split.
    + intros Hall k v Hin Hk%key_match_spec. by rewrite (Hall k v Hin) in Hk.
    + intros Hall k v Hin. destruct (key_match k q) eqn:Hk; [|done].
      apply key_match_spec in Hk. by destruct (Hall k v Hin).
Qed.

End Play.

(** C5 (as the code has it).  On a guitar or a piano that has been
    constructed, [play] returns one entry for each input note, in order,
    and raises nothing.  For an input note whose pitch is not a NaN, the
    entry is the positions (for a piano, the key) stored with a note that
    has the same name as the input note and a pitch rounding to the same
    float, when there is such a stored note, and [None] exactly when
    there is none. *)
Theorem play_finds_same_name_and_rounded_pitch
    (float_pow_nonzero : float → float → result float) :
  (∀ nstrings frets tuning g (ns : list Theory.Note),
     Guitar.init float_pow_nonzero nstrings frets tuning = Ok g →
     length (Guitar.play g ns) = length ns
     ∧ ∀ i q, ns !! i = Some q →
         ∃ entry, Guitar.play g ns !! i = Some entry
           ∧ (Float.is_nan (Theory.pitch q) = false →
              (∀ ps, entry = Some ps ↔
                 ∃ k, (k, ps) ∈ Guitar.notes g ∧ Theory.name k = Theory.name q
                      ∧ Theory.Note_eq k q = true)
              ∧ (entry = None ↔
                   ∀ k ps, (k, ps) ∈ Guitar.notes g →
                     ¬ (Theory.name k = Theory.name q ∧ Theory.Note_eq k q = true))))
  ∧ (∀ num_keys low_note p (ns : list Theory.Note),
       Piano.init float_pow_nonzero num_keys low_note = Ok p →
       length (Piano.play p ns) = length ns
       ∧ ∀ i q, ns !! i = Some q →
           ∃ entry, Piano.play p ns !! i = Some entry
             ∧ (Float.is_nan (Theory.pitch q) = false →
                (∀ key, entry = Some key ↔
                   ∃ k, (k, key) ∈ Piano.notes p ∧ Theory.name k = Theory.name q
                        ∧ Theory.Note_eq k q = true)
                ∧ (entry = None ↔
                     ∀ k key, (k, key) ∈ Piano.notes p →
                       ¬ (Theory.name k = Theory.name q ∧ Theory.Note_eq k q = true)))).
Proof.
  split.
  - intros nstrings frets tuning g ns Hg%guitar_distinct_keys.
    unfold Guitar.play. split; [apply length_fmap|].
    intros i q Hq. exists (dict_get (Guitar.notes g) q).
    split; [by rewrite list_lookup_fmap, Hq|].
    intros _. by apply lookup_by_name_and_rounded_pitch.
  - intros num_keys low_note p ns Hp%piano_distinct_keys.
    unfold Piano.play. split; [apply length_fmap|].
    intros i q Hq. exists (dict_get (Piano.notes p) q).
    split; [by rewrite list_lookup_fmap, Hq|].
    intros _. by apply lookup_by_name_and_rounded_pitch.
Qed.

Lemma play_finds_same_name_and_rounded_pitch_witness :
  let E := {| Theory.name := "E"; Theory.pitch := Float.decimal 8241 2 |} in
  ∃ g, Guitar.init Libm.pow_nonzero 1 2 [E] = Ok g
    ∧ length (Guitar.play g [E]) = 1%nat
    ∧ ∃ entry, Guitar.play g [E] !! 0%nat = Some entry
        ∧ (entry = None ↔
             ∀ k ps, (k, ps) ∈ Guitar.notes g →
               ¬ (Theory.name k = Theory.name E ∧ Theory.Note_eq k E = true)).
Proof.
  intros E.
  destruct (Guitar.init Libm.pow_nonzero 1 2 [E]) as [g|e] eqn:Hg;
    [|vm_compute in Hg; discriminate Hg].
  exists g. split; [reflexivity|].
  destruct (proj1 (play_finds_same_name_and_rounded_pitch Libm.pow_nonzero)
              1 2 [E] g [E] Hg) as [Hlen Hentries].
  split; [exact Hlen|].
  destruct (Hentries 0%nat E eq_refl) as (entry & Hentry & Hfound).
  destruct (Hfound eq_refl) as [_ Hnone].
  exists entry. split; [exact Hentry | exact Hnone].
Defined.

(** On the standard guitar, the note Fb of 82.41 Hz is not found, although
    a stored note, the open low E, is equal to it. *)
Lemma play_misses_equal_note_with_other_name :
  let q := {| Theory.name := "Fb"; Theory.pitch := Float.decimal 8241 2 |} in
  (g ← Guitar.init Libm.pow_nonzero 6 24 Guitar.standard_tuning;
   Ok (Guitar.play g [q],
       Guitar.strings g !! 0,
       (λ note, Theory.Note_eq note q) <$> Guitar.strings g !! 0,
       existsb (λ entry, Theory.Note_eq (fst entry) q) (Guitar.notes g)))
  = Ok ([None],
        Some {| Theory.name := "E"; Theory.pitch := Float.decimal 8241 2 |},
        Some true,
        true).
Proof. vm_compute. reflexivity. Qed.

(** ** The positions of a pitch class *)

Lemma for_each_collect {A B} (g : A → result (list B)) (xs : list A) (acc res : list B) :
  for_each (λ acc x, found ← g x; Ok (acc ++ found)) xs acc = Ok res →
  ∃ founds, Forall2 (λ x found, g x = Ok found) xs founds ∧ res = acc ++ concat founds.
Proof.
  revert acc. induction xs as [|x xs IH]; intros acc.
  - simpl. intros [= <-]. exists []. split; [constructor | by rewrite app_nil_r].
  - rewrite for_each_cons.
    destruct (g x) as [found|e] eqn:Hfound; cbn [mbind result_bind]; [|done].
    intros (founds & Hfounds & ->)%IH. exists (found :: founds).
    split; [by constructor|]. simpl. by rewrite app_assoc.
Qed.

(** What [get_equivalence_classes] yields on any guitar: it gathers, for
    each target note, the position lists stored with the keys of that
    name, and then yields, for every position gathered, the note that
    [self.strings] holds there. *)
Lemma get_equivalence_classes_Ok (self : Guitar.Guitar) (ns out : list Theory.Note) :
  Analysis.get_equivalence_classes self ns = Ok out →
  ∃ founds : list (list (list Z)),
    Forall2 (λ note found,
               Forall2 (λ k ps, dict_getitem (Guitar.notes self) k = Ok ps)
                 (filter (λ k, Theory.name k = Theory.name note)
                    (fst <$> Guitar.notes self)) found)
      ns founds
    ∧ Forall2 (λ position note, Guitar.strings self !! position = Some note)
        (concat (concat founds)) out.
Proof.
  unfold Analysis.get_equivalence_classes.
  destruct (for_each _ ns []) as [positions|e] eqn:Hpositions;
    cbn [mbind result_bind]; [|done].
  apply for_each_collect in Hpositions as (founds & Hfounds & ->).
  intros Hout%map_result_Forall2. exists founds. split.
  - eapply Forall2_impl; [exact Hfounds|]. intros note found Hfound.
    by apply map_result_Forall2.
  - eapply Forall2_impl; [exact Hout|]. intros position note Hnote. simpl in Hnote.
    by destruct (Guitar.strings self !! position) as [note'|]; [injection Hnote as ->|].
Qed.

(** C3 (the code does otherwise).  On the guitar of one string tuned to
    E of 82.41 Hz with a single fret, whose only position is 0,
    [get_equivalence_classes] asked for that E yields the note stored at
    position 0, not the position. *)
Theorem get_equivalence_classes_yields_notes
    (float_pow_nonzero : float → float → result float) (semitone : float) :
  float_pow_nonzero (Float.of_Z 2) (Float.div (Float.of_Z 1) (Float.of_Z 12))
    = Ok semitone →
  let E := {| Theory.name := "E"; Theory.pitch := Float.decimal 8241 2 |} in
  ∃ g, Guitar.init float_pow_nonzero 1 1 [E] = Ok g
    ∧ Guitar.strings g = {[ 0 := E ]}
    ∧ Guitar.notes g = [(E, [0])]
    ∧ Analysis.get_equivalence_classes g [E] = Ok [E].
Proof.
  intros Hroot E.
  assert (Hinit : Guitar.init float_pow_nonzero 1 1 [E]
            = Ok {| Guitar.nstrings := 1; Guitar.frets := 1; Guitar.tuning := [E];
                    Guitar.strings := {[ 0 := E ]}; Guitar.notes := [(E, [0])] |}).
  { unfold Guitar.init, Guitar._initiate.
    change (enumerate [E]) with [(0, E)]. rewrite for_each_cons.
    change (Guitar.initiate_string float_pow_nonzero 1 (∅, []) (0, E))
      with (for_each (Guitar.initiate_fret float_pow_nonzero 1 0 E) [0] (∅, [])).
    rewrite for_each_cons. unfold Guitar.initiate_fret, Guitar.fretted_note.
    rewrite (get_pitch_fret_0 float_pow_nonzero semitone Hroot). reflexivity. }
  eexists. split; [exact Hinit|]. split; [reflexivity|]. split; [reflexivity|].
  vm_compute. reflexivity.
Qed.

Lemma get_equivalence_classes_yields_notes_witness :
  let E := {| Theory.name := "E"; Theory.pitch := Float.decimal 8241 2 |} in
  ∃ g, Guitar.init Libm.pow_nonzero 1 1 [E] = Ok g
    ∧ Guitar.strings g = {[ 0 := E ]}
    ∧ Guitar.notes g = [(E, [0])]
    ∧ Analysis.get_equivalence_classes g [E] = Ok [E].
Proof.
  apply (get_equivalence_classes_yields_notes Libm.pow_nonzero Libm.semitone).
  vm_compute. reflexivity.
Defined.

(** ** Note names outside the chromatic table *)

Section UnknownName.

Import Theory.

Variable float_pow_nonzero : float → float → result float.

Lemma index_from_absent (x : string) (xs : list string) (i : Z) :
  x ∉ xs → index_from x xs i = Raise ValueError.
Proof.
  revert i. induction xs as [|y xs IH]; intros i Hx; simpl; [done|].
  apply not_elem_of_cons in Hx as [Hne Hx].
  destruct (String.eqb_spec y x) as [->|_]; [done|]. by apply IH.
Qed.

Lemma list_index_absent (x : string) (xs : list string) :
  x ∉ xs → list_index xs x = Raise ValueError.
Proof. apply index_from_absent. Qed.

Lemma note_stream_unknown (self : TheoryMaster) (starting_note : string) (n : Z) :
  starting_note ∉ notes self → note_stream self starting_note n = Raise ValueError.
Proof. intros Hx. unfold note_stream. by rewrite list_index_absent. Qed.

Lemma piano_unknown (num_keys : Z) (low_note : Note) :
  name low_note ∉ notes theory →
  Piano.init float_pow_nonzero num_keys low_note = Raise ValueError.
Proof.
  intros Hx. unfold Piano.init, Piano._initiate. by rewrite note_stream_unknown.
Qed.

Lemma scale_unknown (nm : string) (base : Note) (ivs : list Z) :
  name base ∉ notes theory →
  Scale_init float_pow_nonzero nm base ivs = Raise ValueError.
Proof.
  intros Hx. unfold Scale_init.
  change (fst (TheoryMaster_init ∅)) with theory. by rewrite list_index_absent.
Qed.

Lemma range_pos (n : Z) : 0 < n → ∃ rest, range n = 0 :: rest.
Proof.
  intros Hn. unfold range. destruct (Z.to_nat n) as [|k] eqn:Hk; [lia|].
  simpl. by eexists.
Qed.

Lemma enumerate_app {A} (xs : list A) (y : A) (ys : list A) :
  ∃ rest, enumerate (xs ++ y :: ys) = enumerate xs ++ (Z.of_nat (length xs), y) :: rest.
Proof.
  unfold enumerate, range. rewrite !Nat2Z.id, length_app. simpl.
  rewrite seq_app, fmap_app. simpl.
  rewrite zip_with_app by by rewrite length_fmap, length_seq.
  simpl. by eexists.
Qed.

(** A string whose open note has an unknown name stops the construction
    at its first fret. *)
Lemma guitar_unknown (nstrings frets : Z) (before after : list Note) (open : Note) st :
  0 < frets →
  Guitar._initiate float_pow_nonzero frets before = Ok st →
  name open ∉ notes theory →
  Guitar.init float_pow_nonzero nstrings frets (before ++ open :: after)
    = Raise ValueError.
Proof.
  intros Hfrets Hbefore Hx. unfold Guitar.init, Guitar._initiate in *.
  destruct (enumerate_app before open after) as [rest ->].
  rewrite for_each_app, Hbefore. cbn [mbind result_bind]. rewrite for_each_cons.
  change (Guitar.initiate_string float_pow_nonzero frets st (Z.of_nat (length before), open))
    with (for_each (Guitar.initiate_fret float_pow_nonzero frets
                      (Z.of_nat (length before)) open) (range frets) st).
  destruct (range_pos frets Hfrets) as [fs ->]. rewrite for_each_cons.
  destruct st as [strings dict]. unfold Guitar.initiate_fret, Guitar.fretted_note.
  by rewrite list_index_absent.
Qed.

End UnknownName.

(** C10 (as the code has it).  For a name that is not in the chromatic
    table, [note_stream] raises [ValueError] whatever its length, and so
    does the construction of a piano with such a lowest note and of a
    scale with such a base note.  The construction of a guitar raises
    [ValueError] when it has at least one fret, the strings before the
    first one carrying such a name can be built, and that string carries
    such a name. *)
Theorem unknown_note_name_raises
    (float_pow_nonzero : float → float → result float) (unknown : string) :
  unknown ∉ Theory.notes theory →
  (∀ n, Theory.note_stream theory unknown n = Raise ValueError)
  ∧ (∀ num_keys pitch,
       Piano.init float_pow_nonzero num_keys
         {| Theory.name := unknown; Theory.pitch := pitch |} = Raise ValueError)
  ∧ (∀ nm pitch intervals,
       Theory.Scale_init float_pow_nonzero nm
         {| Theory.name := unknown; Theory.pitch := pitch |} intervals = Raise ValueError)
  ∧ (∀ nstrings frets before pitch after st,
       0 < frets →
       Guitar._initiate float_pow_nonzero frets before = Ok st →
       Guitar.init float_pow_nonzero nstrings frets
         (before ++ {| Theory.name := unknown; Theory.pitch := pitch |} :: after)
       = Raise ValueError).
Proof.
  intros Hx. split; [|split; [|split]].
  - intros n. by apply note_stream_unknown.
  - intros num_keys pitch. by apply piano_unknown.
  - intros nm pitch intervals. by apply scale_unknown.
  - intros nstrings frets before pitch after st Hfrets Hbefore.
    by apply guitar_unknown with st.
Qed.

Lemma unknown_note_name_raises_witness :
  let E := {| Theory.name := "E"; Theory.pitch := Float.decimal 8241 2 |} in
  let H := {| Theory.name := "H"; Theory.pitch := Float.decimal 12347 2 |} in
  Theory.note_stream theory "H" 12 = Raise ValueError
  ∧ Piano.init Libm.pow_nonzero 88 H = Raise ValueError
  ∧ Theory.Scale_init Libm.pow_nonzero "major" H [2; 2; 1; 2; 2; 2; 1] = Raise ValueError
  ∧ Guitar.init Libm.pow_nonzero 2 3 [E; H] = Raise ValueError.
Proof.
  intros E H.
  assert (Hx : "H" ∉ Theory.notes theory).
  { intros Hin. vm_compute in Hin.
    repeat (apply elem_of_cons in Hin as [Hin|Hin]; [discriminate Hin|]).
    by apply elem_of_nil in Hin. }
  destruct (unknown_note_name_raises Libm.pow_nonzero "H" Hx)
    as (Hstream & Hpiano & Hscale & Hguitar).
  split; [apply Hstream|]. split; [apply Hpiano|]. split; [apply Hscale|].
  destruct (Guitar._initiate Libm.pow_nonzero 3 [E]) as [st|e] eqn:Hbefore;
    [|vm_compute in Hbefore; discriminate Hbefore].
  apply (Hguitar 2 3 [E] (Float.decimal 12347 2) [] st); [lia | exact Hbefore].
Defined.

(** A guitar without frets is constructed whatever the names in its
    tuning are. *)
Lemma fretless_guitar_ignores_names :
  Guitar.init Libm.pow_nonzero 6 0
    [ {| Theory.name := "H"; Theory.pitch := Float.decimal 12347 2 |} ]
  = Ok {| Guitar.nstrings := 6; Guitar.frets := 0;
          Guitar.tuning := [ {| Theory.name := "H"; Theory.pitch := Float.decimal 12347 2 |} ];
          Guitar.strings := ∅; Guitar.notes := [] |}
  ∧ "H" ∉ Theory.notes theory.
Proof.
  split; [reflexivity|].
  intros Hin. vm_compute in Hin.
  repeat (apply elem_of_cons in Hin as [Hin|Hin]; [discriminate Hin|]).
  by apply elem_of_nil in Hin.
Qed.

(** ** Pitches up to rounding

    The exact value of a float is a rational number, [Float.value].  A
    product of two floats is rounded once, to a float within one unit in
    the last place of the exact product. *)

Lemma Zdigits2_exact (m k : Z) : 0 ≤ k → 2 ^ k ≤ m < 2 ^ (k + 1) → Zdigits2 m = k + 1.
Proof.
  intros Hk [Hlo Hhi].
  assert (Hm : 0 < m) by (pose proof (Z.pow_pos_nonneg 2 k); lia).
  assert (H1 : Zdigits2 m ≤ k + 1) by (apply Zdigits2_spec; lia).
  destruct (Z.le_gt_cases (Zdigits2 m) k) as [Hle|Hgt]; [|lia].
  apply Zdigits2_spec in Hle; lia.
Qed.

(** Rounding a mantissa of at least 53 digits whose value lies in the
    range of the normal floats gives a normal float within one unit in
    the last place of it. *)
Lemma round_aux_error (s : bool) (mx ex : Z) :
  0 < mx → 53 ≤ Zdigits2 mx → -1074 ≤ Zdigits2 mx + ex - 53 → Zdigits2 mx + ex ≤ 1023 →
  ∃ m e, binary_round_aux 53 1024 s mx ex loc_Exact = S754_finite s m e
    ∧ ex ≤ e ∧ Z.pos (digits2_pos m) = 53 ∧ -1074 ≤ e ≤ 971
    ∧ Z.abs (Z.pos m * 2 ^ (e - ex) - mx) * 2 ^ 52 ≤ mx.
Proof.
  intros Hmx Hd Hlo Hhi.
  pose proof (Zdigits2_lower mx Hmx) as Hlower.
  pose proof (Zdigits2_upper mx ltac:(lia)) as Hupper.
  set (d := Zdigits2 mx) in *.
  set (n1 := d - 53).
  assert (Hn1 : 0 ≤ n1) by (subst n1; lia).
  assert (HP : 0 < 2 ^ n1) by (apply Z.pow_pos_nonneg; lia).
  assert (Hsplit : 2 ^ (d - 1) = 2 ^ 52 * 2 ^ n1 ∧ 2 ^ d = 2 ^ 53 * 2 ^ n1).
  { split; rewrite <- Z.pow_add_r by lia; f_equal; subst n1; lia. }
  destruct Hsplit as [Hsplit1 Hsplit2].
  set (m1 := mx / 2 ^ n1).
  assert (Hm1 : m1 * 2 ^ n1 ≤ mx < (m1 + 1) * 2 ^ n1).
  { subst m1. pose proof (Z.mul_div_le mx (2 ^ n1) HP).
    pose proof (Z.mul_succ_div_gt mx (2 ^ n1) HP). lia. }
  assert (Hm1' : 2 ^ 52 ≤ m1 < 2 ^ 53) by nia.
  unfold binary_round_aux, shr_fexp.
  replace (SpecFloat.fexp 53 1024 (Zdigits2 mx + ex) - ex) with n1
    by (unfold SpecFloat.fexp, SpecFloat.emin; subst n1 d; lia).
  assert (Hshr1 : ∃ r1, shr (shr_record_of_loc mx loc_Exact) ex n1 = (r1, ex + n1)
                        ∧ shr_m r1 = m1).
  { destruct n1 as [|p|p] eqn:Hp; [| |lia].
    - exists (shr_record_of_loc mx loc_Exact). cbn [shr]. split; [f_equal; lia|].
      subst m1. by rewrite Z.pow_0_r, Z.div_1_r.
    - eexists. cbn [shr]. split; [done|]. by rewrite shr_m_iter by (simpl; lia). }
  destruct Hshr1 as (r1 & -> & Hr1). rewrite Hr1.
  set (m2 := round_nearest_even m1 (loc_of_shr_record r1)).
  pose proof (round_nearest_even_bounds m1 (loc_of_shr_record r1)) as Hm2. fold m2 in Hm2.
  set (e1 := ex + n1) in *.
  assert (He1 : -1074 ≤ e1 ≤ 970) by (subst e1 n1; lia).
  assert (Hval : Z.abs (m2 * 2 ^ n1 - mx) * 2 ^ 52 ≤ mx) by nia.
  destruct (decide (m2 = 2 ^ 53)) as [Hcarry|Hnocarry].
  - rewrite Hcarry.
    replace (SpecFloat.fexp 53 1024 (Zdigits2 (2 ^ 53) + e1) - e1) with 1
      by (unfold SpecFloat.fexp, SpecFloat.emin; simpl Zdigits2; lia).
    change (shr (shr_record_of_loc (2 ^ 53) loc_Exact) e1 1)
      with ({| shr_m := Z.pos 4503599627370496; shr_r := false; shr_s := false |}, e1 + 1).
    cbn [shr_m].
    destruct (Z.leb_spec (e1 + 1) (1024 - 53)) as [_|?]; [|lia].
    eexists _, _. split; [reflexivity|]. split; [subst e1; lia|]. split; [reflexivity|].
    split; [lia|].
    replace (e1 + 1 - ex) with (1 + n1) by (subst e1; lia).
    rewrite Z.pow_add_r by lia.
    rewrite Hcarry in Hval.
    change (Z.pos 4503599627370496) with (2 ^ 52).
    replace (2 ^ 52 * (2 ^ 1 * 2 ^ n1)) with (2 ^ 53 * 2 ^ n1); [done|].
    change (2 ^ 53) with (2 ^ 52 * 2 ^ 1). ring.
  - assert (Hd2 : Zdigits2 m2 = 53).
    { apply (Zdigits2_exact m2 52); lia. }
    replace (SpecFloat.fexp 53 1024 (Zdigits2 m2 + e1) - e1) with 0
      by (unfold SpecFloat.fexp, SpecFloat.emin; lia).
    cbn [shr shr_record_of_loc shr_m].
    destruct m2 as [|p2|p2] eqn:Hp2; [lia| |lia].
    destruct (Z.leb_spec e1 (1024 - 53)) as [_|?]; [|lia].
    exists p2, e1. split; [reflexivity|]. split; [subst e1; lia|].
    split; [exact Hd2|]. split; [lia|].
    by replace (e1 - ex) with n1 by (subst e1; lia).
Qed.

(** The product of two well-formed positive floats, when it lies in
    the range of the normal floats, is a normal float within one unit in
    the last place of the exact product. *)
Lemma mul_error (mx my : positive) (ex ey : Z) :
  valid_binary Float.prec Float.emax (S754_finite false mx ex) = true →
  valid_binary Float.prec Float.emax (S754_finite false my ey) = true →
  -1021 ≤ Zdigits2 (Z.pos (mx * my)) + (ex + ey) ≤ 1023 →
  ∃ m e, Float.mul (S754_finite false mx ex) (S754_finite false my ey)
         = S754_finite false m e
    ∧ valid_binary Float.prec Float.emax (S754_finite false m e) = true
    ∧ ex + ey ≤ e
    ∧ Z.abs (Z.pos m * 2 ^ (e - (ex + ey)) - Z.pos (mx * my)) * 2 ^ 52 ≤ Z.pos (mx * my).
Proof.
  unfold valid_binary, bounded, canonical_mantissa, Float.prec, Float.emax,
    SpecFloat.fexp, SpecFloat.emin.
  intros [Hcx Hbx]%andb_true_iff [Hcy Hby]%andb_true_iff Hrange.
  apply Z.eqb_eq in Hcx, Hcy. apply Z.leb_le in Hbx, Hby.
  pose proof (Zdigits2_lower (Z.pos mx) ltac:(lia)) as Hlx.
  pose proof (Zdigits2_lower (Z.pos my) ltac:(lia)) as Hly.
  pose proof (Zdigits2_upper (Z.pos (mx * my)) ltac:(lia)) as Hup.
  cbn [Zdigits2] in *.
  set (dx := Z.pos (digits2_pos mx)) in *. set (dy := Z.pos (digits2_pos my)) in *.
  set (d := Z.pos (digits2_pos (mx * my))) in *.
  assert (Hdx : 0 < dx) by (subst dx; lia). assert (Hdy : 0 < dy) by (subst dy; lia).
  assert (Hd : dx + dy - 1 ≤ d).
  { destruct (Z.le_gt_cases (dx + dy - 1) d) as [|Hlt]; [done|]. exfalso.
    assert (2 ^ d ≤ 2 ^ (dx + dy - 2)) by (apply Z.pow_le_mono_r; lia).
    assert (2 ^ (dx + dy - 2) = 2 ^ (dx - 1) * 2 ^ (dy - 1)).
    { rewrite <- Z.pow_add_r by lia. f_equal. lia. }
    rewrite Pos2Z.inj_mul in Hup. nia. }
  destruct (round_aux_error false (Z.pos (mx * my)) (ex + ey))
    as (m & e & Hres & He & Hdm & Hbe & Herr); cbn [Zdigits2]; fold d; try lia.
  exists m, e. unfold Float.mul, SFmul. cbn [xorb]. split; [exact Hres|].
  split; [|split; [done | done]].
  apply andb_true_iff. split; [apply Z.eqb_eq | apply Z.leb_le]; lia.
Qed.

Lemma pow2_pos (e : Z) : (0 < 2 ^ e)%Q.
Proof. by apply Qpower_0_lt. Qed.

Lemma pow2_inject (k : Z) : 0 <= k → (inject_Z (2 ^ k) == 2 ^ k)%Q.
Proof. intros Hk. by rewrite Zpower_Qpower. Qed.

Lemma pow2_add (a b : Z) : (2 ^ (a + b) == 2 ^ a * 2 ^ b)%Q.
Proof. by apply Qpower_plus. Qed.

(** A float of positive value is a finite float of positive sign. *)
Lemma value_pos_inv (x : float) :
  (0 < Float.value x)%Q → ∃ m e, x = S754_finite false m e.
Proof.
  destruct x as [s|s| |s m e]; cbn [Float.value]; try (intros H; by apply Qlt_irrefl in H).
  destruct s; [|by eexists _, _]. cbn [cond_Zopp]. intros H. exfalso.
  pose proof (pow2_pos e) as He.
  assert (Hneg : (inject_Z (- Z.pos m) < inject_Z 0)%Q) by (rewrite <- Zlt_Qlt; lia).
  change (inject_Z 0) with 0%Q in Hneg.
  nra.
Qed.

Lemma mul_value (x y : float) :
  valid_binary Float.prec Float.emax x = true →
  valid_binary Float.prec Float.emax y = true →
  (0 < Float.value x)%Q → (0 < Float.value y)%Q →
  (2 ^ (-1022) <= Float.value x * Float.value y)%Q → (Float.value x * Float.value y < 2 ^ 1023)%Q →
  valid_binary Float.prec Float.emax (Float.mul x y) = true
  ∧ ((1 - 2 ^ (-52)) * (Float.value x * Float.value y) <= Float.value (Float.mul x y))%Q
  ∧ (Float.value (Float.mul x y) <= (1 + 2 ^ (-52)) * (Float.value x * Float.value y))%Q.
Proof.
  intros Hvx Hvy (mx & ex & ->)%value_pos_inv (my & ey & ->)%value_pos_inv Hlow Hhigh.
  cbn [Float.value cond_Zopp] in *.
  set (M := Z.pos (mx * my)). set (E := ex + ey).
  assert (HXY : (inject_Z (Z.pos mx) * 2 ^ ex * (inject_Z (Z.pos my) * 2 ^ ey)
                 == inject_Z M * 2 ^ E)%Q).
  { subst M E. rewrite Pos2Z.inj_mul, inject_Z_mult, pow2_add. ring. }
  rewrite HXY in *.
  pose proof (pow2_pos E) as HT.
  pose proof (Zdigits2_lower M ltac:(subst M; lia)) as Hlower.
  pose proof (Zdigits2_upper M ltac:(subst M; lia)) as Hupper.
  assert (Hd : 0 < Zdigits2 M) by (subst M; simpl; lia).
  set (d := Zdigits2 M) in *.
  assert (Hrange : -1021 ≤ d + E ≤ 1023).
  { split.
    - assert (H : (2 ^ (-1022) < 2 ^ (d + E))%Q).
      { eapply Qle_lt_trans; [exact Hlow|]. rewrite pow2_add.
        apply Qmult_lt_compat_r; [done|]. rewrite <- pow2_inject by lia.
        by rewrite <- Zlt_Qlt. }
      apply Qpower_lt_compat_l_inv in H; [lia | done].
    - assert (H : (2 ^ (d - 1 + E) < 2 ^ 1023)%Q).
      { eapply Qle_lt_trans; [|exact Hhigh]. rewrite pow2_add.
        apply Qmult_le_compat_r; [|by apply Qlt_le_weak].
        rewrite <- pow2_inject by lia. by rewrite <- Zle_Qle. }
      apply Qpower_lt_compat_l_inv in H; [lia | done]. }
  destruct (mul_error mx my ex ey Hvx Hvy) as (m & e & Hres & Hvalid & He & Herr);
    [exact Hrange|].
  rewrite Hres. split; [exact Hvalid|]. cbn [Float.value cond_Zopp].
  fold M E in Herr, He.
  assert (Hme : (inject_Z (Z.pos m) * 2 ^ e == inject_Z (Z.pos m * 2 ^ (e - E)) * 2 ^ E)%Q).
  { rewrite inject_Z_mult, pow2_inject by lia.
    replace e with (e - E + E) at 1 by lia. rewrite pow2_add. ring. }
  rewrite Hme.
  set (A := Z.pos m * 2 ^ (e - E)) in *.
  assert (HA : A * 2 ^ 52 ≤ M * 2 ^ 52 + M ∧ M * 2 ^ 52 ≤ A * 2 ^ 52 + M) by lia.
  destruct HA as [HA1 HA2].
  rewrite Zle_Qle in HA1, HA2.
  rewrite inject_Z_plus, !inject_Z_mult in HA1, HA2.
  change (inject_Z (2 ^ 52)) with (4503599627370496 # 1)%Q in HA1, HA2.
  change (2 ^ (-52))%Q with (1 # 4503599627370496)%Q.
  assert (HMpos : (inject_Z 0 < inject_Z M)%Q) by (rewrite <- Zlt_Qlt; subst M; lia).
  change (inject_Z 0) with 0%Q in HMpos.
  split.
  - assert (H : ((1 - (1 # 4503599627370496)) * inject_Z M <= inject_Z A)%Q) by lra.
    apply (Qmult_le_compat_r _ _ (2 ^ E)) in H; [|by apply Qlt_le_weak].
    eapply Qle_trans; [|exact H]. apply Qle_lteq. right. ring.
  - assert (H : (inject_Z A <= (1 + (1 # 4503599627370496)) * inject_Z M)%Q) by lra.
    apply (Qmult_le_compat_r _ _ (2 ^ E)) in H; [|by apply Qlt_le_weak].
    eapply Qle_trans; [exact H|]. apply Qle_lteq. right. ring.
Qed.

Lemma interval_to_float (interval : Z) :
  interval ≠ 0 → -240 ≤ interval ≤ 240 →
  Float.of_int interval = Ok (Float.of_Z interval)
  ∧ Float.eqb (Float.of_Z interval) Float.zero = false.
Proof.
  intros Hne Hrange.
  assert (Hall : forallb
            (λ i, (i =? 0) || (negb (Float.is_inf (Float.of_Z i))
                               && negb (Float.eqb (Float.of_Z i) Float.zero)))
            (List.map (λ k, Z.of_nat k - 240) (seq 0 481)) = true)
    by (vm_compute; reflexivity).
  rewrite forallb_forall in Hall.
  assert (Hin : In interval (List.map (λ k, Z.of_nat k - 240) (seq 0 481))).
  { apply in_map_iff. exists (Z.to_nat (interval + 240)). split; [lia|].
    apply in_seq. lia. }
  apply Hall in Hin.
  destruct (Z.eqb_spec interval 0) as [?|_]; [done|]. cbn [orb] in Hin.
  apply andb_true_iff in Hin as [Hinf Hzero].
  apply negb_true_iff in Hinf, Hzero. unfold Float.of_int. by rewrite Hinf.
Qed.

(** One call of [get_pitch] with an interval that is not 0: the pitch
    is multiplied by the power the platform returns. *)
Lemma get_pitch_multiplies
    (float_pow_nonzero : float → float → result float)
    (semitone r pitch : float) (interval : Z) :
  float_pow_nonzero (Float.of_Z 2) (Float.div (Float.of_Z 1) (Float.of_Z 12))
    = Ok semitone →
  interval ≠ 0 → -240 ≤ interval ≤ 240 →
  float_pow_nonzero semitone (Float.of_Z interval) = Ok r →
  Theory.get_pitch float_pow_nonzero pitch interval = Ok (Float.mul r pitch).
Proof.
  intros Hroot Hne Hrange Hr.
  destruct (interval_to_float interval Hne Hrange) as [Hw Hw0].
  unfold Theory.get_pitch, Theory.float_pow.
  change (Float.eqb (Float.div (Float.of_Z 1) (Float.of_Z 12)) Float.zero) with false.
  rewrite Hroot. cbn [mbind result_bind]. rewrite Hw. cbn [mbind result_bind].
  rewrite Hw0, Hr. reflexivity.
Qed.

(** C9 (as the code has it).  [get_pitch] multiplies the pitch by the
    power [(2 ** (1 / 12)) ** interval] that the platform returns, in
    binary64.  Let the interval be between -240 and 240 and not 0, let the
    pitch be a well-formed float between [2 ^ -1000] and [2 ^ 1000], and
    let the platform return well-formed floats [r] for the interval, between
    [2 ^ -20] and [2 ^ 20], and [r'] for the opposite interval, whose exact
    product is within [eps <= 1/4] of 1.  Then both calls of the round trip
    succeed; the pitch raised by the interval is within [2 ^ -52] of the
    exact product of [r] and the pitch, in proportion; the round trip
    returns the pitch within [eps + 2 ^ -50], in proportion; and when [r] is
    within [eps] of a ratio, such as 2 for an octave, the raised pitch is
    within [eps + 2 ^ -51] of that ratio times the pitch. *)
Theorem get_pitch_round_trip_within_tolerance
    (float_pow_nonzero : float → float → result float)
    (semitone r r' pitch : float) (interval : Z) (eps : Q) :
  float_pow_nonzero (Float.of_Z 2) (Float.div (Float.of_Z 1) (Float.of_Z 12))
    = Ok semitone →
  interval ≠ 0 → -240 ≤ interval ≤ 240 →
  float_pow_nonzero semitone (Float.of_Z interval) = Ok r →
  float_pow_nonzero semitone (Float.of_Z (- interval)) = Ok r' →
  valid_binary Float.prec Float.emax r = true →
  valid_binary Float.prec Float.emax r' = true →
  valid_binary Float.prec Float.emax pitch = true →
  (2 ^ (-20) <= Float.value r)%Q → (Float.value r <= 2 ^ 20)%Q →
  (0 <= eps)%Q → (eps <= 1 # 4)%Q →
  (1 - eps <= Float.value r * Float.value r')%Q → (Float.value r * Float.value r' <= 1 + eps)%Q →
  (2 ^ (-1000) <= Float.value pitch)%Q → (Float.value pitch <= 2 ^ 1000)%Q →
  ∃ up back,
    Theory.get_pitch float_pow_nonzero pitch interval = Ok up
    ∧ Theory.get_pitch float_pow_nonzero up (- interval) = Ok back
    ∧ ((1 - 2 ^ (-52)) * (Float.value r * Float.value pitch) <= Float.value up)%Q
    ∧ (Float.value up <= (1 + 2 ^ (-52)) * (Float.value r * Float.value pitch))%Q
    ∧ ((1 - eps - 2 ^ (-50)) * Float.value pitch <= Float.value back)%Q
    ∧ (Float.value back <= (1 + eps + 2 ^ (-50)) * Float.value pitch)%Q
    ∧ ∀ ratio : Q,
        ((1 - eps) * ratio <= Float.value r)%Q → (Float.value r <= (1 + eps) * ratio)%Q →
        ((1 - eps - 2 ^ (-51)) * (ratio * Float.value pitch) <= Float.value up)%Q
        ∧ (Float.value up <= (1 + eps + 2 ^ (-51)) * (ratio * Float.value pitch))%Q.
Proof.
  intros Hroot Hne Hrange Hr Hr' Hvr Hvr' Hvp Hrlo Hrhi Heps0 Heps1 Hlo Hhi Hplo Hphi.
  set (R := Float.value r) in *. set (R' := Float.value r') in *. set (P := Float.value pitch) in *.
  change (2 ^ (-20))%Q with (1 # 1048576)%Q in Hrlo.
  change (2 ^ 20)%Q with (1048576 # 1)%Q in Hrhi.
  assert (HR : (0 < R)%Q) by lra.
  assert (HR' : (0 < R')%Q) by nra.
  assert (HP : (0 < P)%Q).
  { eapply Qlt_le_trans; [apply (pow2_pos (-1000))|exact Hplo]. }
  (* the first product lies in the range of the normal floats *)
  assert (H1lo : (2 ^ (-1022) <= R * P)%Q).
  { apply Qle_trans with ((1 # 1048576) * 2 ^ (-1000))%Q.
    - change (1 # 1048576)%Q with (2 ^ (-20))%Q. rewrite <- pow2_add.
      apply Qpower_le_compat_l; [lia | done].
    - apply Qmult_le_compat_nonneg; split;
        first [done | by apply Qlt_le_weak, pow2_pos]. }
  assert (H1hi : (R * P < 2 ^ 1023)%Q).
  { apply Qle_lt_trans with ((1048576 # 1) * 2 ^ 1000)%Q.
    - apply Qmult_le_compat_nonneg; split; first [done | by apply Qlt_le_weak].
    - change (1048576 # 1)%Q with (2 ^ 20)%Q. rewrite <- pow2_add.
      apply Qpower_lt_compat_l; [lia | done]. }
  destruct (mul_value r pitch Hvr Hvp HR HP H1lo H1hi) as (Hvup & Huplo & Huphi).
  fold R P in Huplo, Huphi.
  set (up := Float.mul r pitch) in *. set (U := Float.value up) in *.
  change (2 ^ (-52))%Q with (1 # 4503599627370496)%Q in Huplo, Huphi.
  assert (HRP : (0 < R * P)%Q) by (by apply Qmult_lt_0_compat).
  assert (HU : (0 < U)%Q) by lra.
  (* the second product is near the pitch *)
  assert (HS : (R' * (R * P) == (R * R') * P)%Q) by ring.
  assert (HSlo : ((1 - eps) * P <= R' * (R * P))%Q).
  { rewrite HS. apply Qmult_le_compat_r; [done | by apply Qlt_le_weak]. }
  assert (HShi : (R' * (R * P) <= (1 + eps) * P)%Q).
  { rewrite HS. apply Qmult_le_compat_r; [done | by apply Qlt_le_weak]. }
  assert (H2a : ((1 - (1 # 4503599627370496)) * (R' * (R * P)) <= R' * U)%Q).
  { apply (Qmult_le_l _ _ R') in Huplo; [|done].
    eapply Qle_trans; [|exact Huplo]. apply Qle_lteq. right. ring. }
  assert (H2b : (R' * U <= (1 + (1 # 4503599627370496)) * (R' * (R * P)))%Q).
  { apply (Qmult_le_l _ _ R') in Huphi; [|done].
    eapply Qle_trans; [exact Huphi|]. apply Qle_lteq. right. ring. }
  set (X := (R' * (R * P))%Q) in *.
  assert (HX : (0 < X)%Q) by (subst X; by repeat apply Qmult_lt_0_compat).
  assert (HepsP : (0 <= eps * P)%Q) by (apply Qmult_le_0_compat; [done | by apply Qlt_le_weak]).
  assert (HXP : ((3 # 4) * P <= X ∧ X <= (5 # 4) * P)%Q) by (split; nra).
  assert (H2lo : (2 ^ (-1022) <= R' * U)%Q).
  { apply Qle_trans with ((1 # 2) * 2 ^ (-1000))%Q.
    - change (1 # 2)%Q with (2 ^ (-1))%Q. rewrite <- pow2_add.
      apply Qpower_le_compat_l; [lia | done].
    - lra. }
  assert (H2hi : (R' * U < 2 ^ 1023)%Q).
  { apply Qle_lt_trans with ((2 # 1) * 2 ^ 1000)%Q.
    - lra.
    - change (2 # 1)%Q with (2 ^ 1)%Q. rewrite <- pow2_add.
      apply Qpower_lt_compat_l; [lia | done]. }
  destruct (mul_value r' up Hvr' Hvup HR' HU H2lo H2hi) as (_ & Hblo & Hbhi).
  fold R' U in Hblo, Hbhi.
  change (2 ^ (-52))%Q with (1 # 4503599627370496)%Q in Hblo, Hbhi.
  exists up, (Float.mul r' up).
  split; [by apply (get_pitch_multiplies _ semitone)|].
  split; [apply (get_pitch_multiplies _ semitone); [done | lia | lia | done]|].
  change (2 ^ (-52))%Q with (1 # 4503599627370496)%Q.
  change (2 ^ (-50))%Q with (1 # 1125899906842624)%Q.
  split; [exact Huplo|]. split; [exact Huphi|].
  set (B := Float.value (Float.mul r' up)) in *.
  assert (Heps1P : (eps * P <= (1 # 4) * P)%Q).
  { apply Qmult_le_compat_r; [done | by apply Qlt_le_weak]. }
  assert (Hback : ((1 - eps - (1 # 1125899906842624)) * P <= B)%Q
                  ∧ (B <= (1 + eps + (1 # 1125899906842624)) * P)%Q).
  { clear - Hblo Hbhi H2a H2b HSlo HShi HepsP Heps1P HP.
    set (W := (R' * U)%Q) in *. clearbody W B X.
    split; lra. }
  split; [apply Hback|]. split; [apply Hback|].
  intros ratio Hratio1 Hratio2.
  change (2 ^ (-51))%Q with (1 # 2251799813685248)%Q.
  assert (Hratio : (0 < ratio)%Q) by (clear - Hratio2 HR Heps0; nra).
  set (Y := (ratio * P)%Q).
  assert (HY : (0 < Y)%Q) by (by apply Qmult_lt_0_compat).
  assert (HY1 : ((1 - eps) * Y <= R * P)%Q).
  { apply (Qmult_le_compat_r _ _ P) in Hratio1; [|by apply Qlt_le_weak].
    eapply Qle_trans; [|exact Hratio1]. apply Qle_lteq. right. subst Y. ring. }
  assert (HY2 : (R * P <= (1 + eps) * Y)%Q).
  { apply (Qmult_le_compat_r _ _ P) in Hratio2; [|by apply Qlt_le_weak].
    eapply Qle_trans; [exact Hratio2|]. apply Qle_lteq. right. subst Y. ring. }
  assert (HepsY : (0 <= eps * Y)%Q) by (apply Qmult_le_0_compat; [done | by apply Qlt_le_weak]).
  assert (Heps1Y : (eps * Y <= (1 # 4) * Y)%Q).
  { apply Qmult_le_compat_r; [done | by apply Qlt_le_weak]. }
  fold U. clear - Huplo Huphi HY1 HY2 HepsY Heps1Y HY.
  set (V := (R * P)%Q) in *. clearbody V U Y.
  split; lra.
Qed.

Lemma get_pitch_round_trip_within_tolerance_witness :
  ∃ up back,
    Theory.get_pitch Libm.pow_nonzero (Float.of_Z 440) 12 = Ok up
    ∧ Theory.get_pitch Libm.pow_nonzero up (- 12) = Ok back
    ∧ ((1 - 2 ^ (-44)) * 880 <= Float.value up)%Q
    ∧ (Float.value up <= (1 + 2 ^ (-44)) * 880)%Q
    ∧ ((1 - 2 ^ (-44)) * 440 <= Float.value back)%Q
    ∧ (Float.value back <= (1 + 2 ^ (-44)) * 440)%Q.
Proof.
  set (r := S754_finite false 4503599627370498 (-51)).
  set (r' := S754_finite false 9007199254740988 (-54)).
  destruct (get_pitch_round_trip_within_tolerance Libm.pow_nonzero Libm.semitone
              r r' (Float.of_Z 440) 12 (1 # 35184372088832)%Q)
    as (up & back & Hup & Hback & _ & _ & Hb1 & Hb2 & Hoctave);
    [ vm_compute; reflexivity | lia | lia
    | vm_compute; reflexivity | vm_compute; reflexivity
    | vm_compute; reflexivity | vm_compute; reflexivity | vm_compute; reflexivity
    | apply Qle_bool_imp_le; vm_compute; reflexivity
    | apply Qle_bool_imp_le; vm_compute; reflexivity
    | apply Qle_bool_imp_le; vm_compute; reflexivity
    | apply Qle_bool_imp_le; vm_compute; reflexivity
    | apply Qle_bool_imp_le; vm_compute; reflexivity
    | apply Qle_bool_imp_le; vm_compute; reflexivity
    | apply Qle_bool_imp_le; vm_compute; reflexivity
    | apply Qle_bool_imp_le; vm_compute; reflexivity
    | ].
  destruct (Hoctave 2%Q) as [Hu1 Hu2];
    [ apply Qle_bool_imp_le; vm_compute; reflexivity
    | apply Qle_bool_imp_le; vm_compute; reflexivity | ].
  exists up, back. split; [exact Hup|]. split; [exact Hback|].
  assert (Hp : (Float.value (Float.of_Z 440) == 440)%Q) by (vm_compute; reflexivity).
  rewrite Hp in Hu1, Hu2, Hb1, Hb2.
  change (2 ^ (-50))%Q with (1 # 1125899906842624)%Q in Hb1, Hb2.
  change (2 ^ (-51))%Q with (1 # 2251799813685248)%Q in Hu1, Hu2.
  change (2 ^ (-44))%Q with (1 # 17592186044416)%Q.
  clear - Hu1 Hu2 Hb1 Hb2.
  set (U := Float.value up) in *. set (B := Float.value back) in *. clearbody U B.
  repeat split; lra.
Defined.

(** An interval too large for a float: whatever the platform's power is,
    [get_pitch] returns nothing for the interval [2 ^ 1024], since
    converting the interval raises [OverflowError]. *)
Lemma get_pitch_huge_interval_raises :
  (∀ (float_pow_nonzero : float → float → result float) (pitch : float),
     is_Ok (Theory.get_pitch float_pow_nonzero pitch (2 ^ 1024)) = false)
  ∧ Theory.get_pitch Libm.pow_nonzero (Float.of_Z 440) (2 ^ 1024) = Raise OverflowError.
Proof.
  split; [|vm_compute; reflexivity].
  intros float_pow_nonzero pitch. unfold Theory.get_pitch.
  destruct (Theory.float_pow _ _ _) as [semitone|e]; [|done].
  cbn [mbind result_bind].
  assert (Hw : Float.of_int (2 ^ 1024) = Raise OverflowError) by (vm_compute; reflexivity).
  by rewrite Hw.
Qed.

(** * Further properties *)

(** ** Further properties: coordinates and distances *)

(** X1.  [get_coordinates] undoes the position formula: with no fret
    it raises [ZeroDivisionError]; otherwise it returns a pair
    [(string, fret)] with [string * frets + fret = position], and the
    position made of a string and of a fret between 0 and [frets - 1]
    gives back that string and that fret. *)
Theorem get_coordinates_inverts_position (self : Guitar.Guitar) :
  (Guitar.frets self = 0 →
     ∀ position, Analysis.get_coordinates self position = Raise ZeroDivisionError)
  ∧ (Guitar.frets self ≠ 0 →
       ∀ position, ∃ string fret,
         Analysis.get_coordinates self position = Ok (string, fret)
         ∧ string * Guitar.frets self + fret = position)
  ∧ (∀ string fret, 0 ≤ fret < Guitar.frets self →
       Analysis.get_coordinates self (string * Guitar.frets self + fret)
       = Ok (string, fret)).
Proof.
  unfold Analysis.get_coordinates, Analysis.floordiv, Analysis.modulo.
  split; [|split].
  - intros -> position. reflexivity.
  - intros Hfrets position.
    destruct (Z.eqb_spec (Guitar.frets self) 0) as [?|_]; [done|].
    eexists _, _. split; [reflexivity|].
    pose proof (Z.div_mod position (Guitar.frets self) Hfrets). lia.
  - intros string fret Hfret.
    destruct (Z.eqb_spec (Guitar.frets self) 0) as [?|_]; [lia|].
    cbn [mbind result_bind]. do 2 f_equal.
    + symmetry. apply Z.div_unique with fret; lia.
    + symmetry. apply Z.mod_unique with string; lia.
Qed.

Lemma get_coordinates_inverts_position_witness :
  let self := {| Guitar.nstrings := 6; Guitar.frets := 24; Guitar.tuning := [];
                 Guitar.strings := ∅; Guitar.notes := [] |} in
  Analysis.get_coordinates self (3 * 24 + 7) = Ok (3, 7)
  ∧ ∃ string fret, Analysis.get_coordinates self (-5) = Ok (string, fret)
                   ∧ string * 24 + fret = -5.
Proof.
  intros self.
  destruct (get_coordinates_inverts_position self) as (_ & Hany & Hback).
  split.
  - apply (Hback 3 7). simpl. lia.
  - apply (Hany ltac:(discriminate) (-5)).
Defined.

Lemma math_sqrt_0 : Analysis.math_sqrt 0 = Ok Float.zero.
Proof. reflexivity. Qed.

(** X2.  [compute_distance] does not depend on the order of its two
    positions, is [0.0] from a position to itself, and raises
    [ZeroDivisionError] on a guitar with no fret. *)
Theorem compute_distance_symmetric (self : Guitar.Guitar) (position_1 position_2 : Z) :
  Analysis.compute_distance self position_1 position_2
  = Analysis.compute_distance self position_2 position_1
  ∧ (Guitar.frets self ≠ 0 →
       Analysis.compute_distance self position_1 position_1 = Ok Float.zero)
  ∧ (Guitar.frets self = 0 →
       Analysis.compute_distance self position_1 position_2 = Raise ZeroDivisionError).
Proof.
  unfold Analysis.compute_distance, Analysis.floordiv, Analysis.modulo.
  destruct (Z.eqb_spec (Guitar.frets self) 0) as [Hz|Hnz].
  - split; [done|]. split; [done|]. done.
  - cbn [mbind result_bind Analysis.euclidean_distance].
    split; [|split; [|done]].
    + f_equal. ring.
    + intros _. rewrite <- math_sqrt_0. f_equal. ring.
Qed.

Lemma compute_distance_symmetric_witness :
  let self := {| Guitar.nstrings := 6; Guitar.frets := 24; Guitar.tuning := [];
                 Guitar.strings := ∅; Guitar.notes := [] |} in
  Analysis.compute_distance self 31 31 = Ok Float.zero.
Proof.
  intros self.
  apply (proj1 (proj2 (compute_distance_symmetric self 31 31))). discriminate.
Defined.

Lemma product_single (pool : list Z) : Analysis.product [pool] = (λ y, [y]) <$> pool.
Proof. induction pool as [|y pool IH]; [done|]. cbn in *. by rewrite IH. Qed.

Lemma search_keeps_zero (self : Guitar.Guitar) (best : option (list Z)) (pool : list Z) :
  for_each (Analysis.search_step self) ((λ y, [y]) <$> pool) (Float.zero, best)
  = Ok (Float.zero, best).
Proof. induction pool as [|y pool IH]; [done|]. rewrite fmap_cons, for_each_cons. exact IH. Qed.

(** X3.  The search needs no distance when there is at most one note:
    with a single pool it returns the first position of the pool,
    whatever the other positions and the number of frets are; with no
    pool it returns the empty combination, and [get_finger_combination]
    then yields nothing. *)
Theorem search_without_distances (self : Guitar.Guitar) :
  (∀ x pool,
     Analysis.compute_least_distance_combination self [x :: pool] = Ok (Some [x]))
  ∧ Analysis.compute_least_distance_combination self [] = Ok (Some [])
  ∧ Analysis.get_finger_combination self [] = Ok [].
Proof.
  split; [|split; reflexivity].
  intros x pool. unfold Analysis.compute_least_distance_combination.
  rewrite product_single, fmap_cons, for_each_cons.
  change (Analysis.search_step self (Float.inf, None) [x]) with
    (Ok (Float.zero, Some [x]) : result (float * option (list Z))).
  cbn [mbind result_bind]. by rewrite search_keeps_zero.
Qed.

Lemma map_result_total {A B} (f : A → result B) (g : A → B) (xs : list A) :
  (∀ x, f x = Ok (g x)) → map_result f xs = Ok (g <$> xs).
Proof.
  intros Hf. induction xs as [|x xs IH]; [done|].
  cbn [map_result]. by rewrite Hf, IH.
Qed.

Lemma bounded_pools_totals_finite (self : Guitar.Guitar) (positions_list : list (list Z)) :
  0 < Guitar.frets self →
  (length positions_list ≤ 400)%nat →
  Forall (λ pool, pool ≠ [] ∧ Forall (λ p, 0 ≤ p < 2 ^ 64) pool) positions_list →
  ∀ c, c ∈ Analysis.product positions_list →
    ∃ d, Analysis.total_distance self c = Ok d ∧ Float.is_finite d = true.
Proof.
  intros Hfrets Hlen Hpools c Hc%elem_of_product.
  apply (total_distance_below self c 64); [done | | lia |].
  - clear Hlen. induction Hc as [|x pool c pools Hx _ IH]; [constructor|].
    apply Forall_cons in Hpools as [[_ Hpool] Hpools].
    constructor; [|by apply IH].
    rewrite Forall_forall in Hpool. by apply Hpool.
  - apply Forall2_length in Hc. lia.
Qed.

(** X4.  On a guitar with at least one fret, for at most 400 non-empty
    pools of positions from 0 up to [2 ^ 64], [get_finger_combination]
    yields the coordinates [(p // frets, p % frets)] of the positions
    [p] that [compute_least_distance_combination] returns, one for each
    pool in order, each with a fret between 0 and [frets - 1] and giving
    back a position of its pool. *)
Theorem get_finger_combination_coordinates
    (self : Guitar.Guitar) (positions_list : list (list Z)) :
  0 < Guitar.frets self →
  (length positions_list ≤ 400)%nat →
  Forall (λ pool, pool ≠ [] ∧ Forall (λ p, 0 ≤ p < 2 ^ 64) pool) positions_list →
  ∃ best,
    Analysis.compute_least_distance_combination self positions_list = Ok (Some best)
    ∧ Analysis.get_finger_combination self positions_list
      = Ok ((λ p, (p / Guitar.frets self, p mod Guitar.frets self)) <$> best)
    ∧ Forall2 (λ p pool, p ∈ pool) best positions_list
    ∧ Forall (λ p, (p / Guitar.frets self) * Guitar.frets self + p mod Guitar.frets self = p
                   ∧ 0 ≤ p mod Guitar.frets self < Guitar.frets self) best.
Proof.
  intros Hfrets Hlen Hpools.
  destruct (search_finds_first_minimum self positions_list)
    as (best & d & pre & post & Hbest & Hin & _).
  { eapply Forall_impl; [exact Hpools|]. by intros pool [Hne _]. }
  { by apply bounded_pools_totals_finite. }
  exists best. split; [done|]. split; [|split; [done|]].
  - unfold Analysis.get_finger_combination. rewrite Hbest. cbn [mbind result_bind].
    apply map_result_total. intros p.
    unfold Analysis.get_coordinates, Analysis.floordiv, Analysis.modulo.
    by destruct (Z.eqb_spec (Guitar.frets self) 0) as [?|_]; [lia|].
  - apply Forall_forall. intros p _. split.
    + pose proof (Z.div_mod p (Guitar.frets self) ltac:(lia)). lia.
    + apply Z.mod_pos_bound. lia.
Qed.

Lemma get_finger_combination_coordinates_witness :
  let self := {| Guitar.nstrings := 2; Guitar.frets := 5; Guitar.tuning := [];
                 Guitar.strings := ∅; Guitar.notes := [] |} in
  ∃ best,
    Analysis.compute_least_distance_combination self [[0; 6]; [7; 1]] = Ok (Some best)
    ∧ Analysis.get_finger_combination self [[0; 6]; [7; 1]]
      = Ok ((λ p, (p / 5, p mod 5)) <$> best).
Proof.
  intros self.
  destruct (get_finger_combination_coordinates self [[0; 6]; [7; 1]])
    as (best & Hbest & Hcoords & _).
  - reflexivity.
  - simpl. lia.
  - repeat (constructor; [split; [discriminate | repeat constructor; lia]|]).
    constructor.
  - exists best. split; [exact Hbest | exact Hcoords].
Defined.

(** ** Further properties: inversions of interval lists *)

Section InvertMore.

Import Theory.

Lemma invert_loop_add (a b : nat) (intervals : ref) (h : heap) :
  invert_loop (a + b) intervals h = invert_loop a intervals h ≫= invert_loop b intervals.
Proof.
  revert h. induction a as [|a IH]; intros h; [done|].
  cbn [Nat.add invert_loop].
  destruct (list_pop0 intervals h) as [[first h']|e]; cbn [mbind result_bind]; [|done].
  apply IH.
Qed.

Lemma invert_loop_octaves (q : nat) (intervals : ref) (h : heap) (l : list Z) :
  h !! intervals = Some l →
  invert_loop (q * length l) intervals h
  = Ok (<[intervals := (λ x, x + 12 * Z.of_nat q) <$> l]> h).
Proof.
  intros Hl. induction q as [|q IH].
  - simpl. f_equal. symmetry. apply insert_id. rewrite Hl. f_equal. symmetry.
    etransitivity; [|apply list_fmap_id]. apply list_fmap_ext. intros _ x _. simpl. lia.
  - replace (S q * length l)%nat with (q * length l + length l)%nat by lia.
    rewrite invert_loop_add, IH. cbn [mbind result_bind].
    rewrite (invert_loop_rotates _ _ _ ((λ x, x + 12 * Z.of_nat q) <$> l));
      [|apply lookup_insert_eq | by rewrite length_fmap].
    rewrite insert_insert_eq. do 2 f_equal.
    rewrite drop_ge, take_ge by by rewrite length_fmap. simpl.
    rewrite <- list_fmap_compose. apply list_fmap_ext. intros _ x _. simpl. lia.
Qed.

(** [invert] for any count on a list that is not empty. *)
Lemma invert_loop_any (k : nat) (intervals : ref) (h : heap) (l : list Z) :
  h !! intervals = Some l → l ≠ [] →
  invert_loop k intervals h
  = Ok (<[intervals :=
            drop (k mod length l) ((λ x, x + 12 * Z.of_nat (k / length l)) <$> l)
            ++ ((λ x, x + 12 * (Z.of_nat (k / length l) + 1)) <$> take (k mod length l) l)]> h).
Proof.
  intros Hl Hne.
  assert (Hlen : length l ≠ 0%nat) by by destruct l.
  pose proof (Nat.div_mod_eq k (length l)) as Hk.
  pose proof (Nat.mod_upper_bound k (length l) Hlen) as Hr.
  set (q := (k / length l)%nat) in *. set (r := (k mod length l)%nat) in *.
  replace k with (q * length l + r)%nat at 1 by lia.
  rewrite invert_loop_add, (invert_loop_octaves _ _ _ l Hl). cbn [mbind result_bind].
  rewrite (invert_loop_rotates _ _ _ ((λ x, x + 12 * Z.of_nat q) <$> l));
    [|apply lookup_insert_eq | rewrite length_fmap; lia].
  rewrite insert_insert_eq. do 3 f_equal.
  rewrite <- fmap_take, <- list_fmap_compose.
  apply list_fmap_ext. intros _ x _. simpl. lia.
Qed.

Lemma invert_loop_length (k : nat) (intervals : ref) (h h' : heap) (l : list Z) :
  h !! intervals = Some l → l ≠ [] → invert_loop k intervals h = Ok h' →
  ∃ l', h' = <[intervals := l']> h ∧ length l' = length l.
Proof.
  intros Hl Hne. rewrite (invert_loop_any k intervals h l Hl Hne). intros [= <-].
  eexists. split; [done|].
  rewrite length_app, length_drop, !length_fmap, length_take.
  assert (length l ≠ 0%nat) by by destruct l.
  pose proof (Nat.mod_upper_bound k (length l)). lia.
Qed.

End InvertMore.

(** X5.  [invert] for every count: a count of zero or less changes
    nothing; a positive count on an empty list raises [IndexError]; and
    on a list of [len > 0] intervals a count [n >= 0] goes [n // len]
    times round the whole list, raising every interval by 12 each time,
    and then moves [n % len] more intervals to the end, raising them
    once more. *)
Theorem invert_any_count (h : heap) (intervals : ref) (l : list Z) (n : Z) :
  h !! intervals = Some l →
  (n ≤ 0 → Theory.invert intervals n h = Ok (intervals, h))
  ∧ (0 < n → l = [] → Theory.invert intervals n h = Raise IndexError)
  ∧ (0 ≤ n → l ≠ [] →
       let len := Z.of_nat (length l) in
       Theory.invert intervals n h
       = Ok (intervals,
             <[intervals :=
                 drop (Z.to_nat (n mod len)) ((λ x, x + 12 * (n / len)) <$> l)
                 ++ ((λ x, x + 12 * (n / len + 1)) <$> take (Z.to_nat (n mod len)) l)]> h)).
Proof.
  intros Hl. split; [|split].
  - intros Hn. unfold Theory.invert. replace (Z.to_nat n) with 0%nat by lia. reflexivity.
  - intros Hn ->. unfold Theory.invert. destruct (Z.to_nat n) as [|k] eqn:Hk; [lia|].
    cbn [Theory.invert_loop]. unfold list_pop0.
    by rewrite (lookup_total_correct _ _ _ Hl).
  - intros Hn Hne len. unfold Theory.invert.
    assert (Hlen : 0 < len) by (subst len; destruct l; [done | simpl; lia]).
    rewrite (invert_loop_any _ _ _ l Hl Hne). cbn [mbind result_bind].
    assert (Hq : Z.of_nat (Z.to_nat n / length l) = n / len).
    { subst len. rewrite Nat2Z.inj_div, Z2Nat.id by lia. done. }
    assert (Hr : (Z.to_nat n mod length l)%nat = Z.to_nat (n mod len)).
    { subst len. apply Nat2Z.inj. rewrite Nat2Z.inj_mod, !Z2Nat.id; [done | | lia].
      apply Z.mod_pos_bound. lia. }
    by rewrite Hq, Hr.
Qed.

Lemma invert_any_count_witness :
  ∃ h : heap, h !! 1%positive = Some [0; 4; 7]
    ∧ Theory.invert 1%positive 4 h = Ok (1%positive, <[1%positive := [16; 19; 24]]> h).
Proof.
  exists {[ 1%positive := [0; 4; 7] ]}.
  assert (Hl : ({[ 1%positive := [0; 4; 7] ]} : heap) !! 1%positive = Some [0; 4; 7])
    by reflexivity.
  split; [exact Hl|].
  apply (proj2 (proj2 (invert_any_count _ 1%positive [0; 4; 7] 4 Hl)));
    [lia | discriminate].
Defined.

Section ModesAndTriads.

Import Theory.

Lemma index_from_bounds (x : string) (xs : list string) (i j : Z) :
  index_from x xs i = Ok j → i ≤ j < i + Z.of_nat (length xs) ∧ x ∈ xs.
Proof.
  revert i. induction xs as [|y xs IH]; intros i; simpl; [done|].
  destruct (String.eqb_spec y x) as [->|_].
  - intros [= <-]. split; [lia | left].
  - intros [Hj Hin]%IH. split; [lia | by right].
Qed.

Lemma list_contains_elem_of (xs : list string) (x : string) :
  list_contains xs x = true ↔ x ∈ xs.
Proof.
  unfold list_contains. rewrite existsb_exists. split.
  - intros (y & Hy%list_elem_of_In & ->%String.eqb_eq). done.
  - intros Hx. exists x. split; [by apply list_elem_of_In | apply String.eqb_refl].
Qed.

Lemma get_mode_intervals_known (self : TheoryMaster) (mode : string) (i : Z) (h : heap) :
  list_index (modes self) mode = Ok i →
  get_mode_intervals self mode h = invert (major_intervals self) i h.
Proof.
  intros Hi. unfold get_mode_intervals.
  destruct (index_from_bounds _ _ _ _ Hi) as [_ Hin].
  apply list_contains_elem_of in Hin. rewrite Hin, Hi. reflexivity.
Qed.

End ModesAndTriads.

(** X6.  Calls of [get_mode_intervals] add up in the stored table:
    when [major_intervals] is not empty, asking for the mode of index
    [i] and then for the mode of index [j] both succeed, return the
    table itself, and leave it as one [invert] by [i + j] of the table
    before the two calls would. *)
Theorem get_mode_intervals_accumulate
    (self : Theory.TheoryMaster) (h : heap) (l : list Z) (mode_1 mode_2 : string) (i j : Z) :
  h !! Theory.major_intervals self = Some l → l ≠ [] →
  list_index (Theory.modes self) mode_1 = Ok i →
  list_index (Theory.modes self) mode_2 = Ok j →
  ∃ h1 h2,
    Theory.get_mode_intervals self mode_1 h = Ok (Theory.major_intervals self, h1)
    ∧ Theory.get_mode_intervals self mode_2 h1 = Ok (Theory.major_intervals self, h2)
    ∧ Theory.invert (Theory.major_intervals self) (i + j) h
      = Ok (Theory.major_intervals self, h2).
Proof.
  intros Hl Hne Hi Hj.
  destruct (index_from_bounds _ _ _ _ Hi) as [[Hi0 _] _].
  destruct (index_from_bounds _ _ _ _ Hj) as [[Hj0 _] _].
  rewrite (get_mode_intervals_known self mode_1 i h Hi). unfold Theory.invert at 1.
  destruct (Theory.invert_loop (Z.to_nat i) (Theory.major_intervals self) h)
    as [h1|e] eqn:H1.
  2: { by rewrite (invert_loop_any _ _ _ l Hl Hne) in H1. }
  exists h1. rewrite (get_mode_intervals_known self mode_2 j h1 Hj).
  unfold Theory.invert. replace (Z.to_nat (i + j)) with (Z.to_nat i + Z.to_nat j)%nat by lia.
  rewrite invert_loop_add, H1. cbn [mbind result_bind].
  destruct (invert_loop_length _ _ _ _ l Hl Hne H1) as (l1 & -> & Hlen1).
  rewrite (invert_loop_any _ _ _ l1); [|apply lookup_insert_eq | by destruct l1, l].
  cbn [mbind result_bind]. by eexists.
Qed.

Lemma get_mode_intervals_accumulate_witness :
  let '(self, h) := Theory.TheoryMaster_init ∅ in
  ∃ h1 h2,
    Theory.get_mode_intervals self "lydian" h = Ok (Theory.major_intervals self, h1)
    ∧ Theory.get_mode_intervals self "locrian" h1 = Ok (Theory.major_intervals self, h2)
    ∧ Theory.invert (Theory.major_intervals self) (3 + 6) h
      = Ok (Theory.major_intervals self, h2).
Proof.
  destruct (Theory.TheoryMaster_init ∅) as [self h] eqn:Hinit.
  injection Hinit as <- <-.
  eapply get_mode_intervals_accumulate with (l := [2; 2; 1; 2; 2; 2; 1]);
    [reflexivity | discriminate | reflexivity | reflexivity].
Defined.

Section TriadIntervals.

Import Theory.

Lemma alloc_fresh (l : list Z) (h : heap) :
  (fst (alloc l h) ∉ dom h) ∧ snd (alloc l h) = <[fst (alloc l h) := l]> h.
Proof. unfold alloc. cbn [fst snd]. split; [apply is_fresh | done]. Qed.

(** Inverting a new list: a new object comes back, of the length of the
    list, and no object that existed is touched. *)
Lemma invert_new_list (l : list Z) (inversion : Z) (h : heap) :
  l ≠ [] →
  ∃ r l' h',
    (let '(r, h0) := alloc l h in invert r inversion h0) = Ok (r, h')
    ∧ (r ∉ dom h)
    ∧ h' = <[r := l']> h
    ∧ length l' = length l.
Proof.
  intros Hne. destruct (alloc_fresh l h) as [Hfresh Hheap].
  destruct (alloc l h) as [r h0]. cbn [fst snd] in *. subst h0.
  unfold invert.
  rewrite (invert_loop_any _ _ _ l); [|apply lookup_insert_eq | done].
  cbn [mbind result_bind]. eexists r, _, _. split; [done|]. split; [done|].
  split; [by rewrite insert_insert_eq|].
  rewrite length_app, length_drop, !length_fmap, length_take.
  assert (length l ≠ 0%nat) by by destruct l.
  pose proof (Nat.mod_upper_bound (Z.to_nat inversion) (length l)). lia.
Qed.

End TriadIntervals.

(** X7.  For each of the six chord qualities and every inversion,
    [get_triad_intervals] succeeds and returns a list object that did not
    exist before, of three or four intervals, and leaves every list that
    existed as it was; any other quality raises [ValueError]. *)
Theorem get_triad_intervals_new_list (interval : string) (inversion : Z) (h : heap) :
  (interval ∈ ["major"; "major_7"; "minor"; "minor_7"; "dom_7"; "dim"] →
     ∃ r l h',
       Theory.get_triad_intervals interval inversion h = Ok (r, h')
       ∧ (r ∉ dom h)
       ∧ h' !! r = Some l
       ∧ (3 ≤ length l ≤ 4)%nat
       ∧ ∀ r', r' ∈ dom h → h' !! r' = h !! r')
  ∧ (interval ∉ ["major"; "major_7"; "minor"; "minor_7"; "dom_7"; "dim"] →
       Theory.get_triad_intervals interval inversion h = Raise ValueError).
Proof.
  assert (Hnew : ∀ l : list Z, l ≠ [] → (3 ≤ length l ≤ 4)%nat →
            ∃ r l' h',
              (let '(r, h0) := alloc l h in Theory.invert r inversion h0) = Ok (r, h')
              ∧ (r ∉ dom h) ∧ h' !! r = Some l' ∧ (3 ≤ length l' ≤ 4)%nat
              ∧ ∀ r', r' ∈ dom h → h' !! r' = h !! r').
  { intros l Hne Hlen.
    destruct (invert_new_list l inversion h Hne) as (r & l' & h' & Hrun & Hfresh & -> & Hlen').
    exists r, l', (<[r := l']> h). split; [done|]. split; [done|].
    split; [apply lookup_insert_eq|]. split; [lia|].
    intros r' Hr'. apply lookup_insert_ne. by intros ->. }
  unfold Theory.get_triad_intervals. split.
  - intros Hin.
    repeat (apply elem_of_cons in Hin as [->|Hin];
      [repeat match goal with
              | |- context [String.eqb ?a ?b] =>
                  let v := eval vm_compute in (String.eqb a b) in
                  change (String.eqb a b) with v
              end;
       cbv beta iota zeta; apply Hnew; [discriminate | simpl; lia]|]).
    by apply elem_of_nil in Hin.
  - intros Hout.
    repeat match goal with
           | |- context [String.eqb interval ?b] =>
               destruct (String.eqb_spec interval b) as [->|_];
               [exfalso; apply Hout; repeat (first [left | right])|]
           end.
    reflexivity.
Qed.

Lemma get_triad_intervals_new_list_witness :
  ∃ r l h',
    Theory.get_triad_intervals "minor_7" 5 (snd (Theory.TheoryMaster_init ∅)) = Ok (r, h')
    ∧ (r ∉ dom (snd (Theory.TheoryMaster_init ∅)))
    ∧ h' !! r = Some l
    ∧ (3 ≤ length l ≤ 4)%nat
    ∧ ∀ r', r' ∈ dom (snd (Theory.TheoryMaster_init ∅)) →
        h' !! r' = snd (Theory.TheoryMaster_init ∅) !! r'.
Proof.
  apply (proj1 (get_triad_intervals_new_list "minor_7" 5 (snd (Theory.TheoryMaster_init ∅)))).
  do 3 right. left.
Defined.

(** ** Further properties: notes and pitches *)

Lemma round_aux_not_nan (sx : bool) (mx ex : Z) (lx : location) :
  0 ≤ mx → Float.is_nan (binary_round_aux Float.prec Float.emax sx mx ex lx) = false.
Proof.
  intros Hmx. unfold binary_round_aux, shr_fexp.
  set (n1 := SpecFloat.fexp _ _ _ - ex).
  pose proof (shr_fits (shr_record_of_loc mx lx) ex n1 (Zdigits2 mx + ex)) as H1.
  rewrite shr_record_of_loc_m in H1.
  destruct H1 as (Hm1 & _ & _); [lia | right; lia |].
  destruct (shr (shr_record_of_loc mx lx) ex n1) as [r1 e1]. cbn [fst snd] in *.
  set (m2 := round_nearest_even (shr_m r1) (loc_of_shr_record r1)).
  pose proof (round_nearest_even_bounds (shr_m r1) (loc_of_shr_record r1)) as Hm2.
  fold m2 in Hm2.
  set (n2 := SpecFloat.fexp _ _ _ - e1).
  pose proof (shr_fits (shr_record_of_loc m2 loc_Exact) e1 n2 (Zdigits2 m2 + e1)) as H2.
  rewrite shr_record_of_loc_m in H2.
  destruct H2 as (Hm3 & _ & _); [lia | right; lia |].
  destruct (shr (shr_record_of_loc m2 loc_Exact) e1 n2) as [r3 e3]. cbn [fst snd] in *.
  destruct (shr_m r3) as [|m3|m3]; [done | | lia].
  by destruct (e3 <=? Float.emax - Float.prec).
Qed.

Lemma binary_normalize_not_nan (m e : Z) (s : bool) :
  Float.is_nan (binary_normalize Float.prec Float.emax m e s) = false.
Proof.
  destruct m as [|p|p]; [done | |]; unfold binary_normalize, binary_round;
    destruct (shl_align _ _ _) as [mz ez]; by apply round_aux_not_nan.
Qed.

Lemma round0_nan (x : float) : Float.is_nan (Float.round0 x) = Float.is_nan x.
Proof.
  destruct x as [s|s| |s m e]; try done.
  unfold Float.round0. destruct (0 <=? e); [done|].
  apply binary_normalize_not_nan.
Qed.

Lemma eqb_refl (x : float) : Float.eqb x x = negb (Float.is_nan x).
Proof.
  unfold Float.eqb, SFeqb, SFcompare. destruct x as [[]|[]| |[] m e]; try done;
    rewrite Z.compare_refl;
    change (Pos.compare_cont Eq m m) with (Pos.compare m m);
    by rewrite Pos.compare_refl.
Qed.

(** X8. [Note.__eq__] compares the pitches rounded to a whole number: it is
    symmetric and transitive, a note equals itself exactly when its pitch is
    not a NaN, and [Note.__ne__] is its negation. The names of the notes play
    no part. *)
Theorem Note_eq_equivalence :
  (∀ a b : Theory.Note, Theory.Note_eq a b = Theory.Note_eq b a)
  ∧ (∀ a b c : Theory.Note,
       Theory.Note_eq a b = true → Theory.Note_eq b c = true → Theory.Note_eq a c = true)
  ∧ (∀ a : Theory.Note,
       Theory.Note_eq a a = true ↔ Float.is_nan (Theory.pitch a) = false)
  ∧ (∀ a b : Theory.Note, Theory.Note_ne a b = negb (Theory.Note_eq a b)).
Proof.
  unfold Theory.Note_eq. split; [|split; [|split]].
  - intros a b. apply eqb_sym.
  - intros a b c. apply eqb_trans.
  - intros a. rewrite eqb_refl, round0_nan. by destruct (Float.is_nan (Theory.pitch a)).
  - done.
Qed.

Lemma Note_eq_equivalence_witness :
  let a := {| Theory.name := "A"; Theory.pitch := Float.decimal 4402 1 |} in
  let b := {| Theory.name := "Bb"; Theory.pitch := Float.decimal 4398 1 |} in
  let c := {| Theory.name := "C"; Theory.pitch := Float.decimal 4404 1 |} in
  Theory.Note_eq a c = true ∧ Theory.Note_eq a a = true.
Proof.
  intros a b c.
  destruct Note_eq_equivalence as (_ & Htrans & Hrefl & _). split.
  - apply (Htrans a b c); vm_compute; reflexivity.
  - apply Hrefl. vm_compute. reflexivity.
Defined.

(** Multiplying by [1.0] changes no float. *)
Lemma mul_one (x : float) :
  valid_binary Float.prec Float.emax x = true → Float.mul Float.one x = x.
Proof.
  destruct x as [s|s| |s m e]; try done.
  intros [Hcanon He%Z.leb_le]%andb_true_iff.
  apply Z.eqb_eq in Hcanon.
  change Float.one with (S754_finite false 4503599627370496 (-52)).
  unfold Float.mul, SFmul. cbn [xorb].
  unfold binary_round_aux, shr_fexp.
  assert (Hdig : Zdigits2 (Z.pos (4503599627370496 * m)) = Z.pos (digits2_pos m) + 52).
  { change (4503599627370496 * m)%positive with (Pos.iter xO m 52).
    cbn [Zdigits2]. apply iter_xO_digits. }
  rewrite Hdig.
  replace (SpecFloat.fexp Float.prec Float.emax (Z.pos (digits2_pos m) + 52 + (-52 + e))
           - (-52 + e)) with 52.
  2: { replace (Z.pos (digits2_pos m) + 52 + (-52 + e)) with (Z.pos (digits2_pos m) + e) by lia.
       rewrite Hcanon. lia. }
  change (shr (shr_record_of_loc (Z.pos (4503599627370496 * m)) loc_Exact) (-52 + e) 52)
    with ({| shr_m := Z.pos m; shr_r := false; shr_s := false |}, -52 + e + 52).
  cbn [shr_m loc_of_shr_record round_nearest_even Zdigits2].
  replace (-52 + e + 52) with e by lia. rewrite Hcanon, Z.sub_diag.
  cbn [shr shr_record_of_loc shr_m].
  destruct (Z.leb_spec e (Float.emax - Float.prec)) as [_|?]; [done | lia].
Qed.

(** X9. [get_pitch] with interval 0 gives the pitch back, bit for bit: the
    factor [(2 ** (1 / 12)) ** 0] is 1.0 whatever the platform's twelfth root
    of two is, and multiplying a float by 1.0 changes nothing. *)
Theorem get_pitch_interval_0
    (float_pow_nonzero : float → float → result float) (semitone pitch : float) :
  float_pow_nonzero (Float.of_Z 2) (Float.div (Float.of_Z 1) (Float.of_Z 12))
    = Ok semitone →
  valid_binary Float.prec Float.emax pitch = true →
  Theory.get_pitch float_pow_nonzero pitch 0 = Ok pitch.
Proof.
  intros Hroot Hvalid.
  rewrite (get_pitch_fret_0 float_pow_nonzero semitone Hroot). f_equal.
  by apply mul_one.
Qed.

Lemma get_pitch_interval_0_witness :
  Theory.get_pitch Libm.pow_nonzero (Float.decimal 8241 2) 0 = Ok (Float.decimal 8241 2).
Proof.
  apply (get_pitch_interval_0 Libm.pow_nonzero Libm.semitone); vm_compute; reflexivity.
Defined.

Lemma index_from_lookup (x : string) (xs : list string) (i j : Z) :
  index_from x xs i = Ok j → xs !! Z.to_nat (j - i) = Some x.
Proof.
  revert i. induction xs as [|y xs IH]; intros i; simpl; [done|].
  destruct (String.eqb_spec y x) as [->|_].
  - intros [= <-]. by rewrite Z.sub_diag.
  - intros Hj. pose proof (index_from_bounds _ _ _ _ Hj) as [Hij _].
    apply IH in Hj. replace (Z.to_nat (j - i)) with (S (Z.to_nat (j - (i + 1)))) by lia.
    done.
Qed.

Lemma list_index_lookup (xs : list string) (x : string) (i : Z) :
  list_index xs x = Ok i →
  0 ≤ i < Z.of_nat (length xs) ∧ xs !! Z.to_nat i = Some x.
Proof.
  intros Hi. split.
  - apply index_from_bounds in Hi as [Hi _]. lia.
  - apply index_from_lookup in Hi. by rewrite Z.sub_0_r in Hi.
Qed.

Lemma index_from_present (x : string) (xs : list string) (i : Z) :
  x ∈ xs → ∃ j, index_from x xs i = Ok j.
Proof.
  revert i. induction xs as [|y xs IH]; intros i Hx; [by apply elem_of_nil in Hx|].
  simpl. destruct (String.eqb_spec y x) as [->|Hne]; [by eexists|].
  apply IH. apply elem_of_cons in Hx as [->|Hx]; done.
Qed.

(** X10. For a starting note that is in the table of twelve note names,
    [note_stream] yields exactly [n] names (none for [n <= 0]); the k-th is
    the name k places after the starting note in the table, wrapping around,
    so the stream repeats with period 12. *)
Theorem note_stream_cycles (self : Theory.TheoryMaster) (starting_note : string) (n : Z) :
  length (Theory.notes self) = 12%nat →
  starting_note ∈ Theory.notes self →
  ∃ (index : nat) (names : list string),
    Theory.notes self !! index = Some starting_note
    ∧ Theory.note_stream self starting_note n = Ok names
    ∧ length names = Z.to_nat n
    ∧ (∀ k, (k < Z.to_nat n)%nat →
         names !! k = Theory.notes self !! ((index + k) mod 12)%nat)
    ∧ (∀ k, (k + 12 < Z.to_nat n)%nat → names !! (k + 12)%nat = names !! k).
Proof.
  intros Hlen Hstart.
  destruct (index_from_present starting_note (Theory.notes self) 0 Hstart) as [i Hi].
  change (index_from starting_note (Theory.notes self) 0)
    with (list_index (Theory.notes self) starting_note) in Hi.
  destruct (list_index_lookup _ _ _ Hi) as [Hrange Hlookup].
  set (g := λ k : Z, default "" (Theory.notes self !! Z.to_nat ((i + k) mod 12))).
  assert (Hnames : Theory.note_stream self starting_note n = Ok (g <$> range n)).
  { unfold Theory.note_stream. rewrite Hi. cbn [mbind result_bind].
    apply map_result_total. intros k.
    pose proof (Z.mod_pos_bound (i + k) 12 eq_refl) as Hmod.
    apply getitem_lookup; [lia|]. subst g. cbn beta.
    destruct (lookup_lt_is_Some_2 (Theory.notes self) (Z.to_nat ((i + k) mod 12)))
      as [nm ->]; [lia | done]. }
  assert (Hat : ∀ k, (k < Z.to_nat n)%nat →
            (g <$> range n) !! k = Theory.notes self !! ((Z.to_nat i + k) mod 12)%nat).
  { intros k Hk. rewrite list_lookup_fmap, lookup_range by done.
    change (g <$> Some (Z.of_nat k)) with (Some (g (Z.of_nat k))). subst g. cbn beta.
    assert (Heq : Z.to_nat ((i + Z.of_nat k) mod 12) = ((Z.to_nat i + k) mod 12)%nat).
    { apply Nat2Z.inj. rewrite Nat2Z.inj_mod, Nat2Z.inj_add, !Z2Nat.id; [done | lia |].
      apply Z.mod_pos_bound. lia. }
    rewrite Heq.
    destruct (lookup_lt_is_Some_2 (Theory.notes self) ((Z.to_nat i + k) mod 12)%nat)
      as [nm ->]; [|done].
    pose proof (Nat.mod_upper_bound (Z.to_nat i + k) 12). lia. }
  exists (Z.to_nat i), (g <$> range n).
  split; [done|]. split; [done|].
  split; [by rewrite length_fmap, length_range|]. split; [done|].
  intros k Hk. rewrite !Hat by lia. f_equal.
  replace (Z.to_nat i + (k + 12))%nat with (Z.to_nat i + k + 1 * 12)%nat by lia.
  by rewrite Nat.Div0.mod_add.
Qed.

Lemma note_stream_cycles_witness :
  ∃ (index : nat) (names : list string),
    Theory.notes theory !! index = Some "A"
    ∧ Theory.note_stream theory "A" 88 = Ok names
    ∧ length names = 88%nat.
Proof.
  destruct (note_stream_cycles theory "A" 88) as (index & names & H1 & H2 & H3 & _).
  - reflexivity.
  - do 9 right. left.
  - exists index, names. split; [exact H1|]. split; [exact H2 | exact H3].
Defined.

(** ** The layout of any guitar *)

Lemma elem_of_enumerate {A} (xs : list A) (s : Z) (x : A) :
  (s, x) ∈ enumerate xs ↔ 0 ≤ s ∧ xs !! Z.to_nat s = Some x.
Proof.
  unfold enumerate. rewrite list_elem_of_lookup. split.
  - intros [i Hi]. apply lookup_zip_with_Some in Hi as (a & b & Heq & Ha & Hb).
    injection Heq as -> ->.
    pose proof (lookup_lt_Some _ _ _ Hb) as Hlt.
    rewrite lookup_range in Ha by lia. injection Ha as <-.
    split; [lia|]. by rewrite Nat2Z.id.
  - intros [Hs Hx]. exists (Z.to_nat s).
    pose proof (lookup_lt_Some _ _ _ Hx) as Hlt.
    apply lookup_zip_with_Some. exists s, x. split; [done|]. split; [|done].
    rewrite lookup_range by lia. f_equal. lia.
Qed.

Lemma fst_enumerate {A} (xs : list A) :
  fst <$> enumerate xs = range (Z.of_nat (length xs)).
Proof.
  unfold enumerate. apply fst_zip. rewrite length_range. lia.
Qed.

Lemma elem_of_positions (frets : Z) (items : list (Z * Theory.Note)) (p : Z) :
  p ∈ Guitar.positions frets items
  ↔ ∃ s open f, (s, open) ∈ items ∧ 0 ≤ f < frets ∧ p = s * frets + f.
Proof.
  induction items as [|[s open] items IH].
  - split; [intros Hin; by apply elem_of_nil in Hin|].
    intros (s & open & f & Hin & _). by apply elem_of_nil in Hin.
  - rewrite positions_cons, elem_of_app, IH, list_elem_of_fmap. split.
    + intros [(f & -> & Hf%elem_of_range)|(s' & open' & f & Hin & Hf & ->)].
      * exists s, open, f. split; [left | done].
      * exists s', open', f. split; [by right | done].
    + intros (s' & open' & f & [Heq|Hin]%elem_of_cons & Hf & ->).
      * injection Heq as -> ->. left. exists f. split; [done | by apply elem_of_range].
      * right. by exists s', open', f.
Qed.

(** A position determines its string and its fret. *)
Lemma position_unique (frets s f s' f' : Z) :
  0 ≤ f < frets → 0 ≤ f' < frets → s * frets + f = s' * frets + f' →
  s = s' ∧ f = f'.
Proof. intros Hf Hf' Heq. assert (s = s') by nia. split; [done | nia]. Qed.

Lemma NoDup_positions (frets : Z) (items : list (Z * Theory.Note)) :
  NoDup (fst <$> items) → NoDup (Guitar.positions frets items).
Proof.
  induction items as [|[s open] items IH]; [intros _; constructor|].
  rewrite fmap_cons, NoDup_cons, positions_cons, NoDup_app. cbn [fst].
  intros [Hs Hitems]. split; [|split; [|by apply IH]].
  - apply NoDup_fmap_2; [|apply NoDup_range]. intros f f' Heq. lia.
  - intros p (f & -> & Hf%elem_of_range)%list_elem_of_fmap
      (s' & open' & f' & Hin & Hf' & Heq)%elem_of_positions.
    destruct (position_unique frets s f s' f' Hf Hf' Heq) as [-> _].
    apply Hs. apply list_elem_of_fmap. by exists (s', open').
Qed.

Lemma positions_enumerate (frets : Z) (tuning : list Theory.Note) (p : Z) :
  p ∈ Guitar.positions frets (enumerate tuning)
  ↔ 0 ≤ p < Z.of_nat (length tuning) * frets.
Proof.
  rewrite elem_of_positions. split.
  - intros (s & open & f & [Hs Hopen]%elem_of_enumerate & Hf & ->).
    apply lookup_lt_Some in Hopen. nia.
  - intros Hp. assert (Hfrets : 0 < frets) by nia.
    assert (Hs : (Z.to_nat (p / frets) < length tuning)%nat).
    { assert (p / frets < Z.of_nat (length tuning)); [|lia].
      apply Z.div_lt_upper_bound; lia. }
    destruct (lookup_lt_is_Some_2 _ _ Hs) as [open Hopen].
    exists (p / frets), open, (p mod frets). split; [|split].
    + apply elem_of_enumerate. split; [|done]. apply Z.div_pos; lia.
    + by apply Z.mod_pos_bound.
    + rewrite (Z.div_mod p frets) at 1 by lia. lia.
Qed.

Lemma get_pitch_0_inv (float_pow_nonzero : float → float → result float) (pitch p : float) :
  Theory.get_pitch float_pow_nonzero pitch 0 = Ok p → p = Float.mul Float.one pitch.
Proof.
  unfold Theory.get_pitch.
  destruct (Theory.float_pow _ _ _) as [semitone|e]; cbn [mbind result_bind]; [|done].
  change (Float.of_int 0) with (Ok Float.zero). cbn [mbind result_bind].
  unfold Theory.float_pow. change (Float.eqb Float.zero Float.zero) with true.
  cbn [mbind result_bind]. by intros [= <-].
Qed.

(** The note of fret 0 is the open string's note itself. *)
Lemma fretted_note_0 (float_pow_nonzero : float → float → result float)
    (open note : Theory.Note) :
  valid_binary Float.prec Float.emax (Theory.pitch open) = true →
  Guitar.fretted_note float_pow_nonzero open 0 = Ok note → note = open.
Proof.
  intros Hvalid. unfold Guitar.fretted_note.
  destruct (list_index _ _) as [base|e] eqn:Hbase; cbn [mbind result_bind]; [|done].
  apply list_index_lookup in Hbase as [Hrange Hname].
  change (Z.of_nat (length (Theory.notes theory))) with 12 in Hrange.
  rewrite Z.add_0_r, Z.mod_small by done.
  rewrite (getitem_lookup _ _ _ (proj1 Hrange) Hname). cbn [mbind result_bind].
  destruct (Theory.get_pitch _ _ _) as [p|e] eqn:Hp; cbn [mbind result_bind]; [|done].
  apply get_pitch_0_inv in Hp. rewrite mul_one in Hp by done. subst p.
  intros [= <-]. by destruct open.
Qed.

(** X11. A guitar that has been constructed has exactly the positions from
    0 to [len(tuning) * frets - 1], whatever [nstrings] is; position
    [s * frets + f] holds the note built for fret [f] of string [s]; fret 0
    of a string holds the tuning note of that string, a well-formed float
    for its pitch, unchanged; and the
    classes of the note-to-positions map together list every position
    once. *)
Theorem guitar_layout (float_pow_nonzero : float → float → result float)
    (nstrings frets : Z) (tuning : list Theory.Note) (g : Guitar.Guitar) :
  Guitar.init float_pow_nonzero nstrings frets tuning = Ok g →
  (∀ p, is_Some (Guitar.strings g !! p) ↔ 0 ≤ p < Z.of_nat (length tuning) * frets)
  ∧ (∀ (s : nat) open f, tuning !! s = Some open → 0 ≤ f < frets →
       ∃ note, Guitar.fretted_note float_pow_nonzero open f = Ok note
         ∧ Guitar.strings g !! (Z.of_nat s * frets + f) = Some note)
  ∧ (∀ (s : nat) open, tuning !! s = Some open → 0 < frets →
       valid_binary Float.prec Float.emax (Theory.pitch open) = true →
       Guitar.strings g !! (Z.of_nat s * frets) = Some open)
  ∧ concat (snd <$> Guitar.notes g) ≡ₚ range (Z.of_nat (length tuning) * frets).
Proof.
  unfold Guitar.init, Guitar._initiate.
  destruct (for_each _ _ _) as [[strings notes]|e] eqn:Hrun; cbn [mbind result_bind]; [|done].
  intros [= <-]. cbn [Guitar.strings Guitar.notes].
  apply strings_loop_Ok in Hrun as (Hdom & Hprov & Hperm & _).
  assert (Hkeys : ∀ p, is_Some (strings !! p) ↔ 0 ≤ p < Z.of_nat (length tuning) * frets).
  { intros p. rewrite Hdom, positions_enumerate, lookup_empty, is_Some_alt. tauto. }
  assert (Hnotes : ∀ (s : nat) open f, tuning !! s = Some open → 0 ≤ f < frets →
            ∃ note, Guitar.fretted_note float_pow_nonzero open f = Ok note
              ∧ strings !! (Z.of_nat s * frets + f) = Some note).
  { intros s open f Hopen Hf.
    destruct (proj2 (Hkeys (Z.of_nat s * frets + f))) as [note Hnote].
    { apply lookup_lt_Some in Hopen. nia. }
    exists note. split; [|done].
    destruct (Hprov _ _ Hnote) as [Hempty|(s' & open' & f' & Hin & Hf' & Heq & Hfret)].
    { by rewrite lookup_empty in Hempty. }
    apply elem_of_range in Hf'.
    destruct (position_unique frets _ _ _ _ Hf Hf' Heq) as [<- <-].
    apply elem_of_enumerate in Hin as [_ Hin]. rewrite Nat2Z.id in Hin. congruence. }
  split; [done|]. split; [done|]. split.
  - intros s open Hopen Hfrets Hvalid.
    destruct (Hnotes s open 0 Hopen) as (note & Hfret & Hnote); [lia|].
    apply fretted_note_0 in Hfret; [|done]. subst note. by rewrite Z.add_0_r in Hnote.
  - rewrite Hperm. cbn [fmap list_fmap concat app].
    apply NoDup_Permutation.
    + apply NoDup_positions. rewrite fst_enumerate. apply NoDup_range.
    + apply NoDup_range.
    + intros p. by rewrite positions_enumerate, elem_of_range.
Qed.

Lemma guitar_layout_witness :
  let D := {| Theory.name := "D"; Theory.pitch := Float.decimal 14683 2 |} in
  let G := {| Theory.name := "G"; Theory.pitch := Float.decimal 19600 2 |} in
  ∃ g, Guitar.init Libm.pow_nonzero 7 3 [D; G] = Ok g
    ∧ (∀ p, is_Some (Guitar.strings g !! p) ↔ 0 ≤ p < 2 * 3)
    ∧ Guitar.strings g !! 3 = Some G.
Proof.
  intros D G.
  destruct (Guitar.init Libm.pow_nonzero 7 3 [D; G]) as [g|e] eqn:Hg;
    [|vm_compute in Hg; discriminate Hg].
  exists g. split; [reflexivity|].
  destruct (guitar_layout Libm.pow_nonzero 7 3 [D; G] g Hg) as (Hkeys & _ & Hopen & _).
  split; [exact Hkeys|].
  apply (Hopen 1%nat G); [reflexivity | lia | vm_compute; reflexivity].
Defined.

(** ** Playing a note finds the positions that hold it *)

Lemma dict_update_split {V} (d : list (Theory.Note * V)) (q : Theory.Note) (f : V → V) d' :
  dict_update d q f = Ok d' →
  ∃ d1 k x d2, d = d1 ++ (k, x) :: d2 ∧ key_match k q = true
               ∧ d' = d1 ++ (k, f x) :: d2.
Proof.
  revert d'. induction d as [|[k x] d IH]; simpl; intros d'; [done|].
  destruct (key_match k q) eqn:Hk.
  - intros [= <-]. by exists [], k, x, d.
  - destruct (dict_update d q f) as [d''|e] eqn:Hd; simpl; [|done].
    intros [= <-]. destruct (IH _ eq_refl) as (d1 & k' & x' & d2 & -> & Hk' & ->).
    by exists ((k, x) :: d1), k', x', d2.
Qed.

Section PlayInverse.

Import Theory Guitar.

Variable float_pow_nonzero : float → float → result float.

(** The two maps of a guitar describe each other: every position of a
    class holds a note that is the class's key or matches it, and every
    position that holds a note is in such a class; no class is empty. *)
Abbreviation linked strings notes :=
  ((∀ (k : Note) (ps : list Z) (p : Z), (k, ps) ∈ notes → p ∈ ps →
      ∃ n : Note, strings !! p = Some n ∧ (n = k ∨ key_match k n = true))
   ∧ (∀ (p : Z) (n : Note), strings !! p = Some n →
        ∃ (k : Note) (ps : list Z),
          (k, ps) ∈ notes ∧ p ∈ ps ∧ (n = k ∨ key_match k n = true))
   ∧ (∀ (k : Note) (ps : list Z), (k, ps) ∈ notes → ps ≠ [])).

Lemma initiate_fret_linked frets s open
    (strings : gmap Z Note) (notes : list (Note * list Z)) f strings' notes' :
  Guitar.initiate_fret float_pow_nonzero frets s open (strings, notes) f
    = Ok (strings', notes') →
  strings !! (s * frets + f) = None →
  linked strings notes → linked strings' notes'.
Proof.
  unfold Guitar.initiate_fret.
  destruct (Guitar.fretted_note float_pow_nonzero open f) as [note|e]; simpl; [|done].
  unfold dict_contains. set (p0 := s * frets + f).
  destruct (dict_get notes note) as [l|] eqn:Hget; simpl.
  - destruct (dict_update notes note _) as [d'|e] eqn:Hd; simpl; [|done].
    intros [= <- <-] Hfresh (Ha & Hb & Hc).
    apply dict_update_split in Hd as (d1 & k0 & x & d2 & -> & Hk0 & ->).
    assert (Hold : ∀ k ps p, (k, ps) ∈ d1 ++ (k0, x) :: d2 → p ∈ ps →
              ∃ n, <[p0:=note]> strings !! p = Some n ∧ (n = k ∨ key_match k n = true)).
    { intros k ps p Hin Hp. destruct (Ha k ps p Hin Hp) as (n & Hn & Hkn).
      exists n. split; [|done]. apply lookup_insert_Some. right. split; [|done].
      intros <-. congruence. }
    split; [|split].
    + intros k ps p Hin Hp.
      apply elem_of_app in Hin as [Hin|[Heq|Hin]%elem_of_cons].
      * apply (Hold k ps p); [|done]. apply elem_of_app. by left.
      * injection Heq as -> ->. apply elem_of_app in Hp as [Hp|Hp%list_elem_of_singleton].
        -- apply (Hold k0 x p); [|done]. apply elem_of_app. right. left.
        -- subst p. exists note. split; [|by right].
           apply lookup_insert_Some. by left.
      * apply (Hold k ps p); [|done]. apply elem_of_app. right. by right.
    + intros p n Hp. apply lookup_insert_Some in Hp as [[<- <-]|[Hne Hp]].
      * exists k0, (x ++ [p0]). split; [apply elem_of_app; right; left|].
        split; [|by right]. apply elem_of_app. right. by apply list_elem_of_singleton.
      * destruct (Hb p n Hp) as (k & ps & Hin & Hpin & Hkn).
        apply elem_of_app in Hin as [Hin|[Heq|Hin]%elem_of_cons].
        -- exists k, ps. split; [apply elem_of_app; by left | done].
        -- injection Heq as -> ->. exists k0, (x ++ [p0]).
           split; [apply elem_of_app; right; left|].
           split; [apply elem_of_app; by left | done].
        -- exists k, ps. split; [apply elem_of_app; right; by right | done].
    + intros k ps [Hin|[Heq|Hin]%elem_of_cons]%elem_of_app.
      * apply (Hc k ps). apply elem_of_app. by left.
      * injection Heq as -> ->. by destruct x.
      * apply (Hc k ps). apply elem_of_app. right. by right.
  - intros [= <- <-] Hfresh (Ha & Hb & Hc). rewrite dict_set_fresh by done.
    split; [|split].
    + intros k ps p [Hin|Heq%list_elem_of_singleton]%elem_of_app Hp.
      * destruct (Ha k ps p Hin Hp) as (n & Hn & Hkn).
        exists n. split; [|done]. apply lookup_insert_Some. right. split; [|done].
        intros <-. congruence.
      * injection Heq as -> ->. apply list_elem_of_singleton in Hp as ->.
        exists note. split; [|by left]. apply lookup_insert_Some. by left.
    + intros p n Hp. apply lookup_insert_Some in Hp as [[<- <-]|[Hne Hp]].
      * exists note, [p0]. split; [apply elem_of_app; right; by apply list_elem_of_singleton|].
        split; [by apply list_elem_of_singleton | by left].
      * destruct (Hb p n Hp) as (k & ps & Hin & Hpin & Hkn).
        exists k, ps. split; [apply elem_of_app; by left | done].
    + intros k ps [Hin|Heq%list_elem_of_singleton]%elem_of_app; [by apply (Hc k ps)|].
      by injection Heq as -> ->.
Qed.

Lemma frets_loop_linked frets s open fs
    (strings : gmap Z Note) (notes : list (Note * list Z)) strings' notes' :
  for_each (Guitar.initiate_fret float_pow_nonzero frets s open) fs (strings, notes)
    = Ok (strings', notes') →
  NoDup fs → (∀ f, f ∈ fs → strings !! (s * frets + f) = None) →
  linked strings notes → linked strings' notes'.
Proof.
  revert strings notes. induction fs as [|f fs IH]; intros strings notes.
  - simpl. by intros [= <- <-].
  - rewrite for_each_cons.
    destruct (Guitar.initiate_fret float_pow_nonzero frets s open (strings, notes) f)
      as [[strings1 notes1]|e] eqn:Hstep; cbn [mbind result_bind]; [|done].
    intros Hrun [Hf Hfs]%NoDup_cons Hfresh Hlinked.
    apply (IH strings1 notes1 Hrun Hfs).
    + intros f' Hf'.
      apply initiate_fret_Ok in Hstep as (note & _ & -> & _).
      apply lookup_insert_None. split; [apply Hfresh; by right|].
      intros Heq. assert (f = f') as -> by lia. done.
    + apply (initiate_fret_linked _ _ _ _ _ _ _ _ Hstep); [|done]. apply Hfresh. left.
Qed.

Lemma strings_loop_linked frets items
    (strings : gmap Z Note) (notes : list (Note * list Z)) strings' notes' :
  for_each (Guitar.initiate_string float_pow_nonzero frets) items (strings, notes)
    = Ok (strings', notes') →
  NoDup (positions frets items) →
  (∀ p, p ∈ positions frets items → strings !! p = None) →
  linked strings notes → linked strings' notes'.
Proof.
  revert strings notes. induction items as [|[s open] items IH]; intros strings notes.
  - simpl. by intros [= <- <-].
  - rewrite for_each_cons, positions_cons.
    change (Guitar.initiate_string float_pow_nonzero frets (strings, notes) (s, open))
      with (for_each (Guitar.initiate_fret float_pow_nonzero frets s open)
              (range frets) (strings, notes)).
    destruct (for_each (Guitar.initiate_fret float_pow_nonzero frets s open)
                (range frets) (strings, notes))
      as [[strings1 notes1]|e] eqn:Hstring; cbn [mbind result_bind]; [|done].
    intros Hrun (_ & Hsep & Hrest)%NoDup_app Hfresh Hlinked.
    apply (IH strings1 notes1 Hrun Hrest).
    + intros p Hp. apply frets_loop_Ok in Hstring as (Hdom & _).
      apply eq_None_not_Some. rewrite Hdom. intros [Hsome|Hin].
      * rewrite Hfresh in Hsome; [by destruct Hsome|]. apply elem_of_app. by right.
      * by apply (Hsep p).
    + apply (frets_loop_linked _ _ _ _ _ _ _ _ Hstring); [apply NoDup_range| |done].
      intros f Hf. apply Hfresh. apply elem_of_app. left.
      apply list_elem_of_fmap. by exists f.
Qed.

Lemma guitar_linked nstrings frets tuning g :
  Guitar.init float_pow_nonzero nstrings frets tuning = Ok g →
  linked (Guitar.strings g) (Guitar.notes g).
Proof.
  unfold Guitar.init, Guitar._initiate.
  destruct (for_each _ (enumerate tuning) (∅, [])) as [[strings notes]|e] eqn:Hrun;
    cbn [mbind result_bind]; [|done].
  intros [= <-]. cbn [Guitar.strings Guitar.notes].
  apply (strings_loop_linked _ _ _ _ _ _ Hrun).
  - apply NoDup_positions. rewrite fst_enumerate. apply NoDup_range.
  - intros p _. apply lookup_empty.
  - split; [|split].
    + intros k ps p Hin. by apply elem_of_nil in Hin.
    + intros p n Hp. by rewrite lookup_empty in Hp.
    + intros k ps Hin. by apply elem_of_nil in Hin.
Qed.

End PlayInverse.

(** X12. On a constructed guitar, [play] inverts the position-to-note map:
    for a note whose pitch is not a NaN, the positions returned are exactly
    the positions that hold a note of the same name and the same rounded
    pitch, and [None] is returned exactly when no position holds such a
    note.  (A NaN is set apart because a [dict] of Python also finds a key
    that is the very object asked for, and notes have no identity here.) *)
Theorem play_finds_the_positions_of_a_note
    (float_pow_nonzero : float → float → result float)
    (nstrings frets : Z) (tuning : list Theory.Note) (g : Guitar.Guitar)
    (q : Theory.Note) :
  Guitar.init float_pow_nonzero nstrings frets tuning = Ok g →
  Float.is_nan (Theory.pitch q) = false →
  ∃ entry, Guitar.play g [q] = [entry]
    ∧ (∀ ps, entry = Some ps →
         ∀ p, p ∈ ps ↔
              ∃ n, Guitar.strings g !! p = Some n
                   ∧ Theory.name n = Theory.name q ∧ Theory.Note_eq n q = true)
    ∧ (entry = None ↔
         ∀ p n, Guitar.strings g !! p = Some n →
                ¬ (Theory.name n = Theory.name q ∧ Theory.Note_eq n q = true)).
Proof.
  intros Hg _.
  pose proof (guitar_distinct_keys _ _ _ _ _ Hg) as Hdist.
  destruct (guitar_linked _ _ _ _ _ Hg) as (Ha & Hb & Hc).
  assert (Hclass : ∀ k n, n = k ∨ key_match k n = true →
            key_match k q = true ↔ key_match n q = true).
  { intros k n [->|Hkn]; [done|]. split; intros Hq.
    - apply (key_match_trans n k q); [by rewrite key_match_sym | done].
    - by apply (key_match_trans k n q). }
  exists (dict_get (Guitar.notes g) q). split; [done|]. split.
  - intros ps Hps p.
    apply dict_get_Some in Hps as (k & Hin & Hk). split.
    + intros Hp. destruct (Ha k ps p Hin Hp) as (n & Hn & Hkn).
      exists n. split; [done|]. apply key_match_spec. by apply (Hclass k n).
    + intros (n & Hn & Hnq%key_match_spec).
      destruct (Hb p n Hn) as (k' & ps' & Hin' & Hp' & Hkn).
      apply (Hclass k' n Hkn) in Hnq.
      pose proof (dict_get_distinct _ _ _ _ Hdist Hin Hk) as H1.
      pose proof (dict_get_distinct _ _ _ _ Hdist Hin' Hnq) as H2.
      congruence.
  - rewrite dict_get_None. split.
    + intros Hnone p n Hn Hnq%key_match_spec.
      destruct (Hb p n Hn) as (k & ps & Hin & _ & Hkn).
      apply (Hclass k n Hkn) in Hnq. by rewrite (Hnone k ps Hin) in Hnq.
    + intros Hnone k ps Hin. destruct (key_match k q) eqn:Hk; [|done].
      exfalso. destruct ps as [|p ps]; [by apply (Hc k [])|].
      destruct (Ha k (p :: ps) p Hin) as (n & Hn & Hkn); [left|].
      apply (Hnone p n Hn). apply key_match_spec. by apply (Hclass k n).
Qed.

Lemma play_finds_the_positions_of_a_note_witness :
  let E := {| Theory.name := "E"; Theory.pitch := Float.decimal 8241 2 |} in
  let q := {| Theory.name := "E"; Theory.pitch := Float.decimal 8199 2 |} in
  ∃ g entry, Guitar.init Libm.pow_nonzero 1 13 [E] = Ok g
    ∧ Guitar.play g [q] = [entry]
    ∧ ∀ ps, entry = Some ps →
        ∀ p, p ∈ ps ↔
             ∃ n, Guitar.strings g !! p = Some n
                  ∧ Theory.name n = Theory.name q ∧ Theory.Note_eq n q = true.
Proof.
  intros E q.
  destruct (Guitar.init Libm.pow_nonzero 1 13 [E]) as [g|e] eqn:Hg;
    [|vm_compute in Hg; discriminate Hg].
  destruct (play_finds_the_positions_of_a_note Libm.pow_nonzero 1 13 [E] g q Hg eq_refl)
    as (entry & Hplay & Hsome & _).
  exists g, entry. split; [reflexivity|]. split; [exact Hplay | exact Hsome].
Defined.

(** ** The layout of a piano *)

Lemma enumerate_snoc {A} (xs : list A) (y : A) :
  enumerate (xs ++ [y]) = enumerate xs ++ [(Z.of_nat (length xs), y)].
Proof.
  unfold enumerate, range. rewrite !Nat2Z.id, length_app. simpl.
  rewrite seq_app, fmap_app. simpl.
  rewrite zip_with_app by by rewrite length_fmap, length_seq.
  done.
Qed.

Lemma dict_set_split {V} (d : list (Theory.Note * V)) (q : Theory.Note) (v : V) :
  dict_get d q ≠ None →
  ∃ d1 k x d2, d = d1 ++ (k, x) :: d2 ∧ key_match k q = true
               ∧ dict_set d q v = d1 ++ (k, v) :: d2.
Proof.
  induction d as [|[k x] d IH]; simpl; [done|].
  destruct (key_match k q) eqn:Hk.
  - intros _. by exists [], k, x, d.
  - intros (d1 & k' & x' & d2 & -> & Hk' & ->)%IH.
    by exists ((k, x) :: d1), k', x', d2.
Qed.

(** The names [note_stream] yields, as a function of the place in the
    stream. *)
Lemma note_stream_names (self : Theory.TheoryMaster) (starting_note : string) (n : Z)
    (names : list string) :
  length (Theory.notes self) = 12%nat →
  Theory.note_stream self starting_note n = Ok names →
  ∃ index, list_index (Theory.notes self) starting_note = Ok index
    ∧ length names = Z.to_nat n
    ∧ ∀ k nm, names !! k = Some nm →
        getitem (Theory.notes self) ((index + Z.of_nat k) mod 12) = Ok nm.
Proof.
  intros Hlen. unfold Theory.note_stream.
  destruct (list_index _ _) as [index|e]; cbn [mbind result_bind]; [|done].
  intros Hnames. exists index. split; [done|].
  pose proof (map_result_length _ _ _ Hnames) as Hl. rewrite length_range in Hl.
  split; [done|]. intros k nm Hk.
  apply map_result_Forall2 in Hnames.
  destruct (Forall2_lookup_r _ _ _ _ _ Hnames Hk) as (x & Hx & Hget).
  apply lookup_lt_Some in Hk. rewrite lookup_range in Hx by lia.
  by injection Hx as <-.
Qed.

Section PianoLayout.

Import Theory Piano.

Variable float_pow_nonzero : float → float → result float.

(** What holds after the loop of [Piano._initiate] has gone through the
    names [names]: the keys are those numbered below [length names], the
    first is the low note, each following note comes from the one before
    by [get_pitch] with interval 1 and takes its name from the stream;
    [note] is the last one stored; every entry of [notes] maps to a key
    whose note is the entry's key or matches it; and every key's note is
    covered by an entry that maps to that key or to a higher one. *)
#[warnings="-inconsistent-scopes"] Abbreviation piano_inv names low note keys notes :=
  ((∀ j : Z, is_Some (keys !! j) ↔ 0 ≤ j < Z.of_nat (length names))
   ∧ ((names = [] ∧ note = low) ∨ keys !! (Z.of_nat (length names) - 1) = Some note)
   ∧ (names ≠ [] → keys !! 0 = Some low)
   ∧ (∀ (j : Z) (x y : Note), keys !! j = Some x → keys !! (j + 1) = Some y →
        get_pitch float_pow_nonzero (pitch x) 1 = Ok (pitch y)
        ∧ names !! Z.to_nat (j + 1) = Some (name y))
   ∧ (∀ (k : Note) (i : Z), (k, i) ∈ notes →
        ∃ n : Note, keys !! i = Some n ∧ (n = k ∨ key_match k n = true))
   ∧ (∀ (j : Z) (m : Note), keys !! j = Some m →
        ∃ (k : Note) (i : Z), (k, i) ∈ notes ∧ j ≤ i ∧ (m = k ∨ key_match k m = true))).

Lemma piano_loop_inv (names : list string) (low : Note) note
    (keys : gmap Z Note) (notes : list (Note * Z)) :
  for_each (Piano.initiate_step float_pow_nonzero) (enumerate names) (low, ∅, [])
    = Ok (note, keys, notes) →
  piano_inv names low note keys notes.
Proof.
  revert note keys notes. induction names as [|y names IH] using rev_ind;
    intros note keys notes.
  - simpl. intros [= <- <- <-]. split; [|split; [|split; [|split; [|split]]]].
    + intros j. rewrite lookup_empty, is_Some_alt. simpl. lia.
    + by left.
    + done.
    + intros j x y Hx. by rewrite lookup_empty in Hx.
    + intros k i Hin. by apply elem_of_nil in Hin.
    + intros j m Hm. by rewrite lookup_empty in Hm.
  - rewrite enumerate_snoc, for_each_app.
    destruct (for_each _ (enumerate names) (low, ∅, []))
      as [[[note1 keys1] notes1]|e] eqn:Hrun; cbn [mbind result_bind]; [|done].
    destruct (IH _ _ _ eq_refl) as (Hdom & Hlast & Hfirst & Hchain & Ha & Hb).
    clear IH Hrun.
    rewrite for_each_cons. cbn [for_each].
    rewrite length_app. cbn [length]. set (i := Z.of_nat (length names)) in *.
    replace (Z.of_nat (length names + 1)) with (i + 1) by lia.
    intros Hstep.
    assert (Hfresh : ∀ j, i ≤ j → keys1 !! j = None).
    { intros j Hj. apply eq_None_not_Some. rewrite Hdom. lia. }
    assert (Hstep' : ∃ n,
      (if negb (i =? 0)
       then p ← get_pitch float_pow_nonzero (pitch note1) 1; Ok {| name := y; pitch := p |}
       else Ok note1) = Ok n
      ∧ note = n ∧ keys = <[i := n]> keys1 ∧ notes = dict_set notes1 n i).
    { unfold Piano.initiate_step in Hstep.
      destruct (if negb (i =? 0) then _ else _) as [n|e]; cbn [mbind result_bind] in Hstep;
        [|done].
      injection Hstep as <- <- <-. by exists n. }
    clear Hstep. destruct Hstep' as (n & Hn & -> & -> & ->).
    assert (Hold : ∀ j m, keys1 !! j = Some m → <[i:=n]> keys1 !! j = Some m ∧ j < i).
    { intros j m Hm. assert (j < i).
      { destruct (Z.lt_ge_cases j i) as [?|Hge]; [done|]. by rewrite Hfresh in Hm. }
      split; [|done]. apply lookup_insert_Some. right. split; [lia | done]. }
    split; [|split; [|split; [|split; [|split]]]].
    + intros j. rewrite lookup_insert_is_Some, Hdom. lia.
    + right. replace (i + 1 - 1) with i by lia. apply lookup_insert_Some. by left.
    + intros _. destruct (decide (i = 0)) as [Hi|Hi].
      * rewrite Hi in *. change (negb (0 =? 0)) with false in Hn. injection Hn as <-.
        destruct Hlast as [[_ ->]|Hlast]; [apply lookup_insert_Some; by left|].
        assert (Hsome : is_Some (keys1 !! (0 - 1))) by by eexists.
        apply Hdom in Hsome. lia.
      * apply lookup_insert_Some. right. split; [done|]. apply Hfirst.
        intros ->. by apply Hi.
    + intros j x y' Hx Hy.
      apply lookup_insert_Some in Hx as [[<- <-]|[Hne Hx]].
      { apply lookup_insert_Some in Hy as [[? _]|[_ Hy]]; [lia|].
        rewrite Hfresh in Hy by lia. done. }
      apply lookup_insert_Some in Hy as [[Hj <-]|[Hne' Hy]].
      * assert (Hsome : is_Some (keys1 !! j)) by by eexists.
        apply Hdom in Hsome.
        destruct Hlast as [[Hnil _]|Hlast]; [subst names; unfold i in *; simpl in *; lia|].
        replace (i - 1) with j in Hlast by lia.
        assert (x = note1) as -> by congruence.
        destruct (Z.eqb_spec i 0) as [?|_]; [apply Hold in Hx; lia|]. cbn [negb] in Hn.
        destruct (get_pitch float_pow_nonzero (pitch note1) 1) as [p|e];
          cbn [mbind result_bind] in Hn; [|done].
        injection Hn as <-. split; [done|]. cbn [name].
        rewrite <- Hj. unfold i. rewrite Nat2Z.id. by apply list_lookup_middle.
      * destruct (Hchain j x y' Hx Hy) as [Hp Hname]. split; [done|].
        by apply lookup_app_l_Some.
    + intros k i0 Hin.
      assert (Hkeep : ∀ k i0, (k, i0) ∈ notes1 →
                ∃ n0, <[i:=n]> keys1 !! i0 = Some n0 ∧ (n0 = k ∨ key_match k n0 = true)).
      { intros k1 i1 Hin1. destruct (Ha k1 i1 Hin1) as (n1 & Hn1 & Hk1).
        exists n1. split; [by apply Hold | done]. }
      destruct (dict_get notes1 n) as [v|] eqn:Hget.
      * destruct (dict_set_split notes1 n i) as (d1 & k0 & x & d2 & Heq & Hk0 & Hset).
        { by rewrite Hget. }
        rewrite Hset in Hin. rewrite Heq in Hkeep.
        apply elem_of_app in Hin as [Hin|[Hhere|Hin]%elem_of_cons].
        -- apply Hkeep. apply elem_of_app. by left.
        -- injection Hhere as -> ->. exists n. split; [|by right].
           apply lookup_insert_Some. by left.
        -- apply Hkeep. apply elem_of_app. right. by right.
      * rewrite dict_set_fresh in Hin by done.
        apply elem_of_app in Hin as [Hin|Hhere%list_elem_of_singleton]; [by apply Hkeep|].
        injection Hhere as -> ->. exists n. split; [|by left].
        apply lookup_insert_Some. by left.
    + intros j m Hm.
      destruct (dict_get notes1 n) as [v|] eqn:Hget.
      * destruct (dict_set_split notes1 n i) as (d1 & k0 & x & d2 & Heq & Hk0 & Hset).
        { by rewrite Hget. }
        rewrite Hset. apply lookup_insert_Some in Hm as [[<- <-]|[Hne Hm]].
        { exists k0, i. split; [apply elem_of_app; right; left|]. split; [lia | by right]. }
        destruct (Hold j m Hm) as [_ Hlt].
        destruct (Hb j m Hm) as (k & i0 & Hin & Hle & Hk). rewrite Heq in Hin.
        apply elem_of_app in Hin as [Hin|[Hhere|Hin]%elem_of_cons].
        -- exists k, i0. split; [apply elem_of_app; by left | done].
        -- injection Hhere as -> ->. exists k0, i.
           split; [apply elem_of_app; right; left|]. split; [lia | done].
        -- exists k, i0. split; [apply elem_of_app; right; by right | done].
      * rewrite dict_set_fresh by done.
        apply lookup_insert_Some in Hm as [[<- <-]|[Hne Hm]].
        { exists n, i. split; [apply elem_of_app; right; by apply list_elem_of_singleton|].
          split; [lia | by left]. }
        destruct (Hb j m Hm) as (k & i0 & Hin & Hle & Hk).
        exists k, i0. split; [apply elem_of_app; by left | done].
Qed.

Lemma piano_init_inv num_keys low p :
  Piano.init float_pow_nonzero num_keys low = Ok p →
  ∃ names note,
    note_stream theory (name low) num_keys = Ok names
    ∧ piano_inv names low note (Piano.keys p) (Piano.notes p).
Proof.
  unfold Piano.init, Piano._initiate.
  destruct (note_stream theory (name low) num_keys) as [names|e];
    cbn [mbind result_bind]; [|done].
  destruct (for_each _ (enumerate names) (low, ∅, [])) as [[[note keys] notes]|e] eqn:Hrun;
    cbn [mbind result_bind]; [|done].
  intros [= <-]. cbn [Piano.keys Piano.notes].
  exists names, note. split; [done|]. by apply piano_loop_inv.
Qed.

End PianoLayout.

(** X13. A piano that has been constructed has exactly the keys from 0 to
    [num_keys - 1]; key 0 holds the low note as given; the pitch of every
    other key is [get_pitch] of the pitch of the key before it with
    interval 1; and the name of key [j] is the chromatic name [j] places
    after the low note's name, wrapping around. *)
Theorem piano_layout (float_pow_nonzero : float → float → result float)
    (num_keys : Z) (low_note : Theory.Note) (p : Piano.Piano) :
  Piano.init float_pow_nonzero num_keys low_note = Ok p →
  (∀ j, is_Some (Piano.keys p !! j) ↔ 0 ≤ j < num_keys)
  ∧ (0 < num_keys → Piano.keys p !! 0 = Some low_note)
  ∧ (∀ j x y, Piano.keys p !! j = Some x → Piano.keys p !! (j + 1) = Some y →
       Theory.get_pitch float_pow_nonzero (Theory.pitch x) 1 = Ok (Theory.pitch y))
  ∧ ∃ index, list_index (Theory.notes theory) (Theory.name low_note) = Ok index
      ∧ ∀ j x, Piano.keys p !! j = Some x →
          getitem (Theory.notes theory) ((index + j) mod 12) = Ok (Theory.name x).
Proof.
  intros Hp.
  destruct (piano_init_inv _ _ _ _ Hp)
    as (names & note & Hnames & Hdom & Hlast & Hfirst & Hchain & _).
  destruct (note_stream_names theory _ _ _ eq_refl Hnames) as (index & Hindex & Hlen & Hget).
  assert (Hkeys : ∀ j, is_Some (Piano.keys p !! j) ↔ 0 ≤ j < num_keys).
  { intros j. rewrite Hdom, Hlen. lia. }
  assert (Hlow : 0 < num_keys → Piano.keys p !! 0 = Some low_note).
  { intros Hpos. apply Hfirst. intros ->. simpl in Hlen. lia. }
  split; [done|]. split; [done|]. split.
  - intros j x y Hx Hy. by destruct (Hchain j x y Hx Hy).
  - exists index. split; [done|]. intros j x Hx.
    assert (Hj : 0 ≤ j < num_keys) by (apply Hkeys; by eexists).
    destruct (decide (j = 0)) as [->|Hne].
    + rewrite Hlow in Hx by lia. injection Hx as <-.
      apply list_index_lookup in Hindex as [Hrange Hname].
      change (Z.of_nat (length (Theory.notes theory))) with 12 in Hrange.
      replace ((index + 0) mod 12) with index by (rewrite Z.add_0_r, Z.mod_small; lia).
      apply getitem_lookup; [lia | done].
    + destruct (proj2 (Hkeys (j - 1))) as [w Hw]; [lia|].
      replace j with (j - 1 + 1) in Hx by lia.
      destruct (Hchain (j - 1) w x Hw Hx) as [_ Hname].
      apply Hget in Hname. rewrite Z2Nat.id in Hname by lia.
      by replace (j - 1 + 1) with j in Hname by lia.
Qed.

Lemma piano_layout_witness :
  let A := {| Theory.name := "A"; Theory.pitch := Float.decimal 275 1 |} in
  ∃ p, Piano.init Libm.pow_nonzero 4 A = Ok p
    ∧ (∀ j, is_Some (Piano.keys p !! j) ↔ 0 ≤ j < 4)
    ∧ Piano.keys p !! 0 = Some A.
Proof.
  intros A.
  destruct (Piano.init Libm.pow_nonzero 4 A) as [p|e] eqn:Hp;
    [|vm_compute in Hp; discriminate Hp].
  exists p. split; [reflexivity|].
  destruct (piano_layout Libm.pow_nonzero 4 A p Hp) as (Hkeys & Hlow & _).
  split; [exact Hkeys | apply Hlow; lia].
Defined.

(** X14. On a constructed piano, [play] returns for a note whose pitch is
    not a NaN the highest key that holds a note of the same name and the
    same rounded pitch (a later key replaces an earlier one in the
    note-to-key map), and [None] exactly when no key holds such a note.
    (A NaN is set apart for the same reason as on the guitar.) *)
Theorem piano_play_finds_the_highest_key
    (float_pow_nonzero : float → float → result float)
    (num_keys : Z) (low_note : Theory.Note) (p : Piano.Piano) (q : Theory.Note) :
  Piano.init float_pow_nonzero num_keys low_note = Ok p →
  Float.is_nan (Theory.pitch q) = false →
  ∃ entry, Piano.play p [q] = [entry]
    ∧ (∀ i, entry = Some i ↔
         (∃ n, Piano.keys p !! i = Some n
               ∧ Theory.name n = Theory.name q ∧ Theory.Note_eq n q = true)
         ∧ ∀ j m, Piano.keys p !! j = Some m →
             Theory.name m = Theory.name q → Theory.Note_eq m q = true → j ≤ i)
    ∧ (entry = None ↔
         ∀ j m, Piano.keys p !! j = Some m →
                ¬ (Theory.name m = Theory.name q ∧ Theory.Note_eq m q = true)).
Proof.
  intros Hp _.
  pose proof (piano_distinct_keys _ _ _ _ Hp) as Hdist.
  destruct (piano_init_inv _ _ _ _ Hp) as (names & note & _ & _ & _ & _ & _ & Ha & Hb).
  assert (Hclass : ∀ k n, n = k ∨ key_match k n = true →
            key_match k q = true ↔ key_match n q = true).
  { intros k n [->|Hkn]; [done|]. split; intros Hq.
    - apply (key_match_trans n k q); [by rewrite key_match_sym | done].
    - by apply (key_match_trans k n q). }
  exists (dict_get (Piano.notes p) q). split; [done|]. split.
  - intros i. split.
    + intros (k & Hin & Hk)%dict_get_Some. split.
      * destruct (Ha k i Hin) as (n & Hn & Hkn). exists n. split; [done|].
        apply key_match_spec. by apply (Hclass k n).
      * intros j m Hm Hname Heq.
        destruct (Hb j m Hm) as (k' & i' & Hin' & Hle & Hkm).
        assert (Hk' : key_match k' q = true).
        { apply (Hclass k' m Hkm). by apply key_match_spec. }
        pose proof (dict_get_distinct _ _ _ _ Hdist Hin Hk) as H1.
        pose proof (dict_get_distinct _ _ _ _ Hdist Hin' Hk') as H2.
        assert (i' = i) by congruence. lia.
    + intros [(n & Hn & Hnq%key_match_spec) Hmax].
      destruct (Hb i n Hn) as (k' & i' & Hin' & Hle & Hkn).
      apply (Hclass k' n Hkn) in Hnq.
      rewrite (dict_get_distinct _ _ _ _ Hdist Hin' Hnq). f_equal.
      destruct (Ha k' i' Hin') as (n' & Hn' & Hkn').
      apply (Hclass k' n' Hkn') in Hnq. apply key_match_spec in Hnq as [Hname Heq].
      pose proof (Hmax i' n' Hn' Hname Heq). lia.
  - rewrite dict_get_None. split.
    + intros Hnone j m Hm Hmq%key_match_spec.
      destruct (Hb j m Hm) as (k & i & Hin & _ & Hkm).
      apply (Hclass k m Hkm) in Hmq. by rewrite (Hnone k i Hin) in Hmq.
    + intros Hnone k i Hin. destruct (key_match k q) eqn:Hk; [|done].
      exfalso. destruct (Ha k i Hin) as (n & Hn & Hkn).
      apply (Hnone i n Hn). apply key_match_spec. by apply (Hclass k n).
Qed.

Lemma piano_play_finds_the_highest_key_witness :
  let low := {| Theory.name := "A"; Theory.pitch := Float.decimal 1 1 |} in
  ∃ p entry, Piano.init Libm.pow_nonzero 14 low = Ok p
    ∧ Piano.play p [low] = [entry]
    ∧ (entry = None ↔
         ∀ j m, Piano.keys p !! j = Some m →
                ¬ (Theory.name m = Theory.name low ∧ Theory.Note_eq m low = true)).
Proof.
  intros low.
  destruct (Piano.init Libm.pow_nonzero 14 low) as [p|e] eqn:Hp;
    [|vm_compute in Hp; discriminate Hp].
  destruct (piano_play_finds_the_highest_key Libm.pow_nonzero 14 low p low Hp eq_refl)
    as (entry & Hplay & _ & Hnone).
  exists p, entry. split; [reflexivity|]. split; [exact Hplay | exact Hnone].
Defined.

(** ** Triads and scales *)

Lemma lookup_enumerate {A} (xs : list A) (i : nat) (x : A) :
  xs !! i = Some x → enumerate xs !! i = Some (Z.of_nat i, x).
Proof.
  intros Hx. pose proof (lookup_lt_Some _ _ _ Hx) as Hlt.
  unfold enumerate. apply lookup_zip_with_Some. exists (Z.of_nat i), x.
  split; [done|]. split; [|done]. apply lookup_range. lia.
Qed.

Lemma length_enumerate {A} (xs : list A) : length (enumerate xs) = length xs.
Proof.
  unfold enumerate. rewrite length_zip_with, length_range. lia.
Qed.

(** X15. [get_triad] for a note whose name is in the table of twelve names,
    when the pitch of every interval can be computed: it returns one note
    for each interval, in order; the note for an interval has the name that
    many places after the given note's name, wrapping around, and the pitch
    [get_pitch] gives for the given pitch and that interval; when the first
    interval is 0, the first note is the given note itself. *)
Theorem get_triad_notes (float_pow_nonzero : float → float → result float)
    (self : Theory.TheoryMaster) (note : Theory.Note) (intervals : list Z) :
  length (Theory.notes self) = 12%nat →
  Theory.name note ∈ Theory.notes self →
  (∀ interval, interval ∈ intervals →
     is_Ok (Theory.get_pitch float_pow_nonzero (Theory.pitch note) interval) = true) →
  ∃ index ns,
    list_index (Theory.notes self) (Theory.name note) = Ok index
    ∧ Theory.get_triad float_pow_nonzero self note intervals = Ok ns
    ∧ length ns = length intervals
    ∧ (∀ (i : nat) interval, intervals !! i = Some interval →
         ∃ nm p,
           getitem (Theory.notes self) ((index + interval) mod 12) = Ok nm
           ∧ Theory.get_pitch float_pow_nonzero (Theory.pitch note) interval = Ok p
           ∧ ns !! i = Some {| Theory.name := nm; Theory.pitch := p |})
    ∧ (intervals !! 0%nat = Some 0 →
       valid_binary Float.prec Float.emax (Theory.pitch note) = true →
       ns !! 0%nat = Some note).
Proof.
  intros Hlen Hname Hpitch.
  destruct (index_from_present _ _ 0 Hname) as [index Hindex].
  change (index_from (Theory.name note) (Theory.notes self) 0)
    with (list_index (Theory.notes self) (Theory.name note)) in Hindex.
  destruct (list_index_lookup _ _ _ Hindex) as [Hrange Hlookup].
  rewrite Hlen in Hrange.
  assert (Hstep : ∀ (i : nat) interval, intervals !! i = Some interval →
            ∃ nm p,
              getitem (Theory.notes self) ((index + interval) mod 12) = Ok nm
              ∧ Theory.get_pitch float_pow_nonzero (Theory.pitch note) interval = Ok p
              ∧ (base ← list_index (Theory.notes self) (Theory.name note);
                 nm ← getitem (Theory.notes self) ((base + interval) mod 12);
                 at_i ← getitem intervals (Z.of_nat i);
                 p ← Theory.get_pitch float_pow_nonzero (Theory.pitch note) at_i;
                 Ok {| Theory.name := nm; Theory.pitch := p |})
                = Ok {| Theory.name := nm; Theory.pitch := p |}).
  { intros i interval Hi.
    pose proof (Z.mod_pos_bound (index + interval) 12 eq_refl) as Hmod.
    destruct (lookup_lt_is_Some_2 (Theory.notes self)
                (Z.to_nat ((index + interval) mod 12))) as [nm Hnm]; [lia|].
    assert (Hget : getitem (Theory.notes self) ((index + interval) mod 12) = Ok nm).
    { apply getitem_lookup; [lia | done]. }
    destruct (Theory.get_pitch float_pow_nonzero (Theory.pitch note) interval)
      as [p|e] eqn:Hp.
    2:{ specialize (Hpitch interval (list_elem_of_lookup_2 _ _ _ Hi)).
        by rewrite Hp in Hpitch. }
    exists nm, p. split; [done|]. split; [done|].
    rewrite Hindex. cbn [mbind result_bind]. rewrite Hget. cbn [mbind result_bind].
    rewrite (getitem_lookup intervals (Z.of_nat i) interval); [|lia|by rewrite Nat2Z.id].
    cbn [mbind result_bind]. by rewrite Hp. }
  destruct (map_result_Forall
              (λ '(i, interval),
                 base ← list_index (Theory.notes self) (Theory.name note);
                 nm ← getitem (Theory.notes self) ((base + interval) mod 12);
                 at_i ← getitem intervals i;
                 p ← Theory.get_pitch float_pow_nonzero (Theory.pitch note) at_i;
                 Ok {| Theory.name := nm; Theory.pitch := p |})
              (λ _, True) (enumerate intervals)) as (ns & Hns & _ & Hl).
  { intros [i interval] [Hi Hin]%elem_of_enumerate.
    destruct (Hstep (Z.to_nat i) interval Hin) as (nm & p & _ & _ & Hrun).
    rewrite Z2Nat.id in Hrun by done. by eexists. }
  rewrite length_enumerate in Hl.
  assert (Hall : ∀ (i : nat) interval, intervals !! i = Some interval →
            ∃ nm p,
              getitem (Theory.notes self) ((index + interval) mod 12) = Ok nm
              ∧ Theory.get_pitch float_pow_nonzero (Theory.pitch note) interval = Ok p
              ∧ ns !! i = Some {| Theory.name := nm; Theory.pitch := p |}).
  { intros i interval Hi.
    destruct (Hstep i interval Hi) as (nm & p & Hnm & Hp & Hrun).
    exists nm, p. split; [done|]. split; [done|].
    apply map_result_Forall2 in Hns.
    destruct (Forall2_lookup_l _ _ _ _ _ Hns (lookup_enumerate _ _ _ Hi)) as (n & Hn & Hfn).
    rewrite Hn. f_equal. cbv beta iota in Hfn. congruence. }
  exists index, ns. split; [done|]. split; [done|]. split; [done|]. split; [done|].
  intros H0 Hvalid. destruct (Hall 0%nat 0 H0) as (nm & p & Hnm & Hp & ->).
  f_equal. apply get_pitch_0_inv in Hp. rewrite mul_one in Hp by done. subst p.
  rewrite Z.add_0_r, Z.mod_small in Hnm by done.
  rewrite (getitem_lookup _ _ _ (proj1 Hrange) Hlookup) in Hnm.
  injection Hnm as <-. by destruct note.
Qed.

Lemma get_triad_notes_witness :
  let C := {| Theory.name := "C"; Theory.pitch := Float.decimal 26163 2 |} in
  ∃ ns, Theory.get_triad Libm.pow_nonzero theory C [0; 4; 7] = Ok ns
    ∧ length ns = 3%nat
    ∧ ns !! 0%nat = Some C.
Proof.
  intros C.
  destruct (get_triad_notes Libm.pow_nonzero theory C [0; 4; 7])
    as (index & ns & _ & Hns & Hlen & _ & Hroot).
  - reflexivity.
  - vm_compute. repeat first [left | right].
  - intros interval Hin.
    assert (Hall : Forall (λ interval,
              is_Ok (Theory.get_pitch Libm.pow_nonzero (Theory.pitch C) interval) = true)
              [0; 4; 7]).
    { repeat (constructor; [vm_compute; reflexivity|]). constructor. }
    rewrite Forall_forall in Hall. by apply Hall.
  - exists ns. split; [exact Hns|]. split; [exact Hlen|].
    apply Hroot; [reflexivity | vm_compute; reflexivity].
Defined.

Section ScaleLayout.

Import Theory.

Variable float_pow_nonzero : float → float → result float.

(** The loop of [Scale.generate_scale] over the intervals [ivs]: one note
    is appended for each, the running index is the starting index plus
    the intervals so far, and each note comes from the one before it. *)
Lemma scale_loop (table : TheoryMaster) (ivs : list Z) (base : Note) (index : Z)
    (acc : list Note) (cur : Note) (ci : Z) :
  for_each (generate_scale_step float_pow_nonzero table) ivs ([base], base, index)
    = Ok (acc, cur, ci) →
  length acc = S (length ivs)
  ∧ acc !! 0%nat = Some base
  ∧ acc !! length ivs = Some cur
  ∧ ci = index + foldr Z.add 0 ivs
  ∧ ∀ (k : nat) x y iv, acc !! k = Some x → acc !! S k = Some y → ivs !! k = Some iv →
      get_pitch float_pow_nonzero (pitch x) iv = Ok (pitch y)
      ∧ getitem (notes table) ((index + foldr Z.add 0 (take (S k) ivs)) mod 12)
        = Ok (name y).
Proof.
  revert acc cur ci. induction ivs as [|iv ivs IH] using rev_ind; intros acc cur ci.
  - simpl. intros [= <- <- <-]. split; [done|]. split; [done|]. split; [done|].
    split; [lia|]. intros k x y iv _ _ Hiv. done.
  - rewrite for_each_app.
    destruct (for_each _ ivs ([base], base, index)) as [[[acc1 cur1] ci1]|e] eqn:Hrun;
      cbn [mbind result_bind]; [|done].
    destruct (IH _ _ _ eq_refl) as (Hlen & Hfirst & Hlast & Hci & Hchain). clear IH Hrun.
    rewrite for_each_cons. cbn [for_each]. unfold generate_scale_step.
    destruct (get_pitch float_pow_nonzero (pitch cur1) iv) as [p|e] eqn:Hp;
      cbn [mbind result_bind]; [|done].
    destruct (getitem (notes table) ((ci1 + iv) mod 12)) as [nm|e] eqn:Hnm;
      cbn [mbind result_bind]; [|done].
    intros [= <- <- <-].
    assert (Hsum : foldr Z.add 0 (ivs ++ [iv]) = foldr Z.add 0 ivs + iv).
    { clear. induction ivs as [|x ivs IH]; simpl; [lia|]. rewrite IH. lia. }
    split; [|split; [|split; [|split]]].
    + rewrite !length_app, Hlen. simpl. lia.
    + apply lookup_app_l_Some. done.
    + rewrite length_app. simpl. apply list_lookup_middle. lia.
    + rewrite Hsum. lia.
    + intros k x y iv' Hx Hy Hiv.
      destruct (decide (k = length ivs)) as [->|Hne].
      * rewrite list_lookup_middle in Hiv by done. injection Hiv as <-.
        rewrite lookup_app_l in Hx by lia.
        assert (x = cur1) as -> by congruence.
        rewrite list_lookup_middle in Hy by lia. injection Hy as <-.
        split; [done|]. cbn [name].
        rewrite take_ge by (rewrite length_app; simpl; lia).
        rewrite Hsum, Z.add_assoc, <- Hci. done.
      * assert (k < length ivs)%nat.
        { apply lookup_lt_Some in Hiv. rewrite length_app in Hiv. simpl in Hiv. lia. }
        rewrite lookup_app_l in Hx by lia. rewrite lookup_app_l in Hy by lia.
        rewrite lookup_app_l in Hiv by lia.
        rewrite take_app_le by lia. by apply Hchain.
Qed.

End ScaleLayout.

(** X16. A scale that has been constructed has [max(1, len(intervals))]
    notes: the base note first, then one note for every interval but the
    last.  The pitch of each following note is [get_pitch] of the pitch of
    the note before it with the interval between them, and its name is the
    chromatic name reached from the base note's name by the sum of the
    intervals so far, wrapping around. *)
Theorem scale_layout (float_pow_nonzero : float → float → result float)
    (nm : string) (base : Theory.Note) (ivs : list Z) (s : Theory.Scale) :
  Theory.Scale_init float_pow_nonzero nm base ivs = Ok s →
  length (Theory.scale_notes s) = Nat.max 1 (length ivs)
  ∧ Theory.scale_notes s !! 0%nat = Some base
  ∧ ∃ index, list_index (Theory.notes theory) (Theory.name base) = Ok index
      ∧ ∀ (k : nat) x y iv,
          Theory.scale_notes s !! k = Some x → Theory.scale_notes s !! S k = Some y →
          ivs !! k = Some iv →
          Theory.get_pitch float_pow_nonzero (Theory.pitch x) iv = Ok (Theory.pitch y)
          ∧ getitem (Theory.notes theory)
              ((index + foldr Z.add 0 (take (S k) ivs)) mod 12) = Ok (Theory.name y).
Proof.
  unfold Theory.Scale_init. change (fst (Theory.TheoryMaster_init ∅)) with theory.
  destruct (list_index _ _) as [index|e]; cbn [mbind result_bind]; [|done].
  destruct (for_each _ _ _) as [[[acc cur] ci]|e] eqn:Hrun; cbn [mbind result_bind]; [|done].
  intros [= <-]. cbn [Theory.scale_notes].
  apply scale_loop in Hrun as (Hlen & Hfirst & _ & _ & Hchain).
  rewrite length_take in Hlen.
  split; [lia|]. split; [done|]. exists index. split; [done|].
  intros k x y iv Hx Hy Hiv.
  assert (Hk : (S k < length acc)%nat) by (by apply lookup_lt_Some in Hy).
  destruct (Hchain k x y iv Hx Hy) as [Hp Hname].
  { rewrite lookup_take_lt by lia. done. }
  split; [done|]. rewrite take_take in Hname.
  by replace (S k `min` (length ivs - 1))%nat with (S k) in Hname by lia.
Qed.

Lemma scale_layout_witness :
  let C := {| Theory.name := "C"; Theory.pitch := Float.decimal 26163 2 |} in
  ∃ s, Theory.Scale_init Libm.pow_nonzero "major" C [2; 2; 1; 2; 2; 2; 1] = Ok s
    ∧ length (Theory.scale_notes s) = 7%nat
    ∧ Theory.scale_notes s !! 0%nat = Some C.
Proof.
  intros C.
  destruct (Theory.Scale_init Libm.pow_nonzero "major" C [2; 2; 1; 2; 2; 2; 1])
    as [s|e] eqn:Hs; [|vm_compute in Hs; discriminate Hs].
  exists s. split; [reflexivity|].
  destruct (scale_layout Libm.pow_nonzero "major" C [2; 2; 1; 2; 2; 2; 1] s Hs)
    as (Hlen & Hfirst & _).
  split; [exact Hlen | exact Hfirst].
Defined.

(** X17. Indexing a constructed scale never raises: [scale[1]] is the base
    note, [scale[index]] is the note at [(index - 1) % len] for every
    integer [index], zero and negative ones included, so that indices wrap
    around with period [len]; from 1 to [len] it is the note at
    [index - 1]. *)
Theorem scale_getitem_cycles (float_pow_nonzero : float → float → result float)
    (nm : string) (base : Theory.Note) (ivs : list Z) (s : Theory.Scale) :
  Theory.Scale_init float_pow_nonzero nm base ivs = Ok s →
  let n := Z.of_nat (length (Theory.scale_notes s)) in
  Theory.Scale_getitem s 1 = Ok base
  ∧ (∀ index, ∃ note,
       Theory.Scale_getitem s index = Ok note
       ∧ Theory.scale_notes s !! Z.to_nat ((index - 1) mod n) = Some note)
  ∧ (∀ index, Theory.Scale_getitem s (index + n) = Theory.Scale_getitem s index)
  ∧ (∀ index, 1 ≤ index ≤ n →
       Theory.Scale_getitem s index
       = getitem (Theory.scale_notes s) (index - 1)).
Proof.
  intros Hs n.
  assert (Hlen : 0 < n ∧ Theory.scale_notes s !! 0%nat = Some base).
  { revert Hs. unfold Theory.Scale_init.
    destruct (list_index _ _) as [index|e]; cbn [mbind result_bind]; [|done].
    destruct (for_each _ _ _) as [[[acc cur] ci]|e] eqn:Hrun;
      cbn [mbind result_bind]; [|done].
    intros [= <-]. subst n. cbn [Theory.scale_notes].
    apply scale_loop in Hrun as (Hlen & Hfirst & _). split; [lia | done]. }
  destruct Hlen as [Hn Hfirst].
  assert (Hget : ∀ index, Theory.Scale_getitem s index
                          = getitem (Theory.scale_notes s) ((index - 1) mod n)).
  { intros index. unfold Theory.Scale_getitem. fold n.
    destruct (Z.eqb_spec n 0) as [?|_]; [lia | done]. }
  split; [|split; [|split]].
  - rewrite Hget. replace ((1 - 1) mod n) with 0 by (rewrite Z.mod_small; lia).
    by apply getitem_lookup.
  - intros index. rewrite Hget.
    pose proof (Z.mod_pos_bound (index - 1) n Hn) as Hmod.
    destruct (lookup_lt_is_Some_2 (Theory.scale_notes s)
                (Z.to_nat ((index - 1) mod n))) as [note Hnote]; [lia|].
    exists note. split; [|done]. apply getitem_lookup; [lia | done].
  - intros index. rewrite !Hget. f_equal.
    replace (index + n - 1) with (index - 1 + 1 * n) by lia. by apply Z.mod_add, Z.neq_sym, Z.lt_neq.
  - intros index Hindex. rewrite Hget. f_equal. apply Z.mod_small. lia.
Qed.

Lemma scale_getitem_cycles_witness :
  let C := {| Theory.name := "C"; Theory.pitch := Float.decimal 26163 2 |} in
  ∃ s, Theory.Scale_init Libm.pow_nonzero "major" C [2; 2; 1; 2; 2; 2; 1] = Ok s
    ∧ Theory.Scale_getitem s 1 = Ok C
    ∧ Theory.Scale_getitem s (1 + Z.of_nat (length (Theory.scale_notes s)))
      = Theory.Scale_getitem s 1.
Proof.
  intros C.
  destruct (Theory.Scale_init Libm.pow_nonzero "major" C [2; 2; 1; 2; 2; 2; 1])
    as [s|e] eqn:Hs; [|vm_compute in Hs; discriminate Hs].
  exists s. split; [reflexivity|].
  destruct (scale_getitem_cycles Libm.pow_nonzero "major" C [2; 2; 1; 2; 2; 2; 1] s Hs)
    as (Hfirst & _ & Hcycle & _).
  split; [exact Hfirst | exact (Hcycle 1)].
Defined.

(** ** The notes of a name *)

Section EquivalenceClasses.

Import Theory.

Variable float_pow_nonzero : float → float → result float.

Lemma guitar_classes_NoDup nstrings frets tuning g :
  Guitar.init float_pow_nonzero nstrings frets tuning = Ok g →
  NoDup (concat (snd <$> Guitar.notes g)).
Proof.
  unfold Guitar.init, Guitar._initiate.
  destruct (for_each _ (enumerate tuning) (∅, [])) as [[strings notes]|e] eqn:Hrun;
    cbn [mbind result_bind]; [|done].
  intros [= <-]. cbn [Guitar.notes].
  apply strings_loop_Ok in Hrun as (_ & _ & Hperm & _).
  rewrite Hperm. cbn [fmap list_fmap concat app].
  apply NoDup_positions. rewrite fst_enumerate. apply NoDup_range.
Qed.

(** The classes whose key has the name of [t], in the order of the
    dictionary. *)
Abbreviation named t d :=
  (filter (λ kv : Note * list Z, name kv.1 = name t) d).

Lemma elem_of_named (t : Note) (d : list (Note * list Z)) (p : Z) :
  p ∈ concat (snd <$> named t d)
  ↔ ∃ k ps, (k, ps) ∈ d ∧ name k = name t ∧ p ∈ ps.
Proof.
  rewrite elem_of_concat. split.
  - intros (ps & (kv & -> & [Hname Hin]%list_elem_of_filter)%list_elem_of_fmap & Hp).
    destruct kv as [k ps]. by exists k, ps.
  - intros (k & ps & Hin & Hname & Hp). exists ps. split; [|done].
    apply list_elem_of_fmap. exists (k, ps). split; [done|].
    by apply list_elem_of_filter.
Qed.

Lemma NoDup_named (t : Note) (d : list (Note * list Z)) :
  NoDup (concat (snd <$> d)) → NoDup (concat (snd <$> named t d)).
Proof.
  induction d as [|[k ps] d IH]; [done|].
  rewrite fmap_cons. cbn [concat snd]. intros (Hps & Hsep & Hd)%NoDup_app.
  destruct (decide (name k = name t)) as [Hname|Hname].
  - rewrite filter_cons_True by done. rewrite fmap_cons. cbn [concat snd].
    apply NoDup_app. split; [done|]. split; [|by apply IH].
    intros p Hp (k' & ps' & Hin & _ & Hp')%elem_of_named. apply (Hsep p Hp).
    apply elem_of_concat. exists ps'. split; [|done].
    apply list_elem_of_fmap. by exists (k', ps').
  - rewrite filter_cons_False by done. by apply IH.
Qed.

(** The comprehension of [get_equivalence_classes] for one target. *)
Lemma classes_of_name (t : Note) (d l : list (Note * list Z)) :
  distinct_keys (fst <$> d) →
  (∀ k ps, (k, ps) ∈ l → (k, ps) ∈ d ∧ key_match k k = true) →
  map_result (λ k, dict_getitem d k) (filter (λ k, name k = name t) (fst <$> l))
  = Ok (snd <$> named t l).
Proof.
  intros Hdist. induction l as [|[k ps] l IH]; intros Hl; [done|].
  rewrite fmap_cons. cbn [fst].
  assert (Hrest : ∀ k ps, (k, ps) ∈ l → (k, ps) ∈ d ∧ key_match k k = true).
  { intros k' ps' Hin. apply Hl. by right. }
  destruct (decide (name k = name t)) as [Hname|Hname].
  - rewrite !filter_cons_True by done. cbn [map_result].
    destruct (Hl k ps) as [Hin Hself]; [left|].
    assert (Hk : dict_getitem d k = Ok ps).
    { unfold dict_getitem. by rewrite (dict_get_distinct d k k ps Hdist Hin Hself). }
    rewrite Hk. cbn [mbind result_bind]. rewrite (IH Hrest). done.
  - rewrite !filter_cons_False by done. by apply IH.
Qed.

Lemma gather_classes (d : list (Note * list Z)) (ns : list Note) (acc : list (list Z)) :
  distinct_keys (fst <$> d) →
  (∀ k ps, (k, ps) ∈ d → key_match k k = true) →
  for_each
    (λ positions note,
       found ← map_result (λ _note, dict_getitem d _note)
                 (filter (λ _note, name _note = name note) (fst <$> d));
       Ok (positions ++ found))
    ns acc
  = Ok (acc ++ concat ((λ t, snd <$> named t d) <$> ns)).
Proof.
  intros Hdist Hself. revert acc. induction ns as [|t ns IH]; intros acc.
  - simpl. by rewrite app_nil_r.
  - rewrite for_each_cons, (classes_of_name t d d Hdist) by (intros k ps Hin; eauto).
    cbn [mbind result_bind]. rewrite IH, fmap_cons. cbn [concat]. by rewrite app_assoc.
Qed.

Lemma read_positions (m : gmap Z Note) (ps : list Z) :
  (∀ p, p ∈ ps → is_Some (m !! p)) →
  ∃ out,
    map_result (λ position, match m !! position with
                            | Some note => Ok note
                            | None => Raise KeyError
                            end) ps = Ok out
    ∧ Forall2 (λ p n, m !! p = Some n) ps out.
Proof.
  induction ps as [|p ps IH]; intros Hps.
  - exists []. split; [done | constructor].
  - destruct (Hps p) as [n Hn]; [left|].
    destruct IH as (out & Hout & Hall); [intros p' Hp'; apply Hps; by right|].
    exists (n :: out). split; [|by constructor].
    cbn [map_result]. rewrite Hn. cbn [mbind result_bind]. by rewrite Hout.
Qed.

Lemma concat_concat_fmap {A B} (f : A → list (list B)) (xs : list A) :
  concat (concat (f <$> xs)) = concat ((λ x, concat (f x)) <$> xs).
Proof.
  induction xs as [|x xs IH]; [done|].
  rewrite !fmap_cons. cbn [concat]. by rewrite concat_app, IH.
Qed.

End EquivalenceClasses.

(** X18. On a constructed guitar none of whose stored pitches is a NaN,
    [get_equivalence_classes] succeeds for any list of target notes: for
    each target in order it goes once through every position whose note has
    the target's name, whatever the pitches are, and it yields the notes
    stored at these positions. *)
Theorem equivalence_classes_by_name
    (float_pow_nonzero : float → float → result float)
    (nstrings frets : Z) (tuning : list Theory.Note) (g : Guitar.Guitar)
    (ns : list Theory.Note) :
  Guitar.init float_pow_nonzero nstrings frets tuning = Ok g →
  (∀ p n, Guitar.strings g !! p = Some n → Float.is_nan (Theory.pitch n) = false) →
  ∃ (pss : list (list Z)) (out : list Theory.Note),
    Analysis.get_equivalence_classes g ns = Ok out
    ∧ Forall2 (λ t ps,
                 NoDup ps
                 ∧ ∀ p, p ∈ ps ↔ ∃ n, Guitar.strings g !! p = Some n
                                      ∧ Theory.name n = Theory.name t)
        ns pss
    ∧ Forall2 (λ p n, Guitar.strings g !! p = Some n) (concat pss) out.
Proof.
  intros Hg Hnan.
  pose proof (guitar_distinct_keys _ _ _ _ _ Hg) as Hdist.
  pose proof (guitar_classes_NoDup _ _ _ _ _ Hg) as Hnodup.
  destruct (guitar_linked _ _ _ _ _ Hg) as (Ha & Hb & Hc).
  assert (Hname : ∀ k n : Theory.Note,
            n = k ∨ key_match k n = true → Theory.name n = Theory.name k).
  { intros k n [->|[Hkn _]%key_match_spec]; done. }
  assert (Hself : ∀ k ps, (k, ps) ∈ Guitar.notes g → key_match k k = true).
  { intros k ps Hin. destruct ps as [|p ps]; [by destruct (Hc k [])|].
    destruct (Ha k (p :: ps) p Hin) as (n & Hn & [Heq|Hkn]); [left| |].
    - subst n. apply key_match_spec. split; [done|]. unfold Theory.Note_eq.
      by rewrite eqb_refl, round0_nan, (Hnan p k Hn).
    - apply (key_match_trans k n k); [done | by rewrite key_match_sym]. }
  set (pss := (λ t : Theory.Note,
                 concat (snd <$> filter (λ kv : Theory.Note * list Z,
                                           Theory.name kv.1 = Theory.name t)
                                   (Guitar.notes g))) <$> ns).
  assert (Hmem : ∀ (t : Theory.Note) p,
            p ∈ concat (snd <$> filter (λ kv : Theory.Note * list Z,
                                          Theory.name kv.1 = Theory.name t)
                                  (Guitar.notes g))
            ↔ ∃ n, Guitar.strings g !! p = Some n ∧ Theory.name n = Theory.name t).
  { intros t p. rewrite elem_of_named. split.
    - intros (k & ps & Hin & Hk & Hp). destruct (Ha k ps p Hin Hp) as (n & Hn & Hkn).
      exists n. split; [done|]. by rewrite (Hname k n Hkn).
    - intros (n & Hn & Hnt). destruct (Hb p n Hn) as (k & ps & Hin & Hp & Hkn).
      exists k, ps. split; [done|]. split; [|done]. by rewrite <- (Hname k n Hkn). }
  destruct (read_positions (Guitar.strings g) (concat pss)) as (out & Hout & Hall).
  { intros p (ps & (t & -> & _)%list_elem_of_fmap & Hp)%elem_of_concat.
    apply Hmem in Hp as (n & Hn & _). by exists n. }
  exists pss, out. split; [|split; [|done]].
  - unfold Analysis.get_equivalence_classes.
    rewrite (gather_classes (Guitar.notes g) ns [] Hdist Hself).
    cbn [mbind result_bind app]. rewrite concat_concat_fmap. exact Hout.
  - subst pss. apply Forall2_fmap_r, Forall_Forall2_diag, Forall_forall.
    intros t _. split; [by apply NoDup_named | apply Hmem].
Qed.

Lemma equivalence_classes_by_name_witness :
  let E := {| Theory.name := "E"; Theory.pitch := Float.decimal 8241 2 |} in
  ∃ g pss out, Guitar.init Libm.pow_nonzero 1 13 [E] = Ok g
    ∧ Analysis.get_equivalence_classes g [E] = Ok out
    ∧ Forall2 (λ p n, Guitar.strings g !! p = Some n) (concat pss) out.
Proof.
  intros E.
  destruct (Guitar.init Libm.pow_nonzero 1 13 [E]) as [g|e] eqn:Hg;
    [|vm_compute in Hg; discriminate Hg].
  destruct (equivalence_classes_by_name Libm.pow_nonzero 1 13 [E] g [E] Hg)
    as (pss & out & Hout & _ & Hall).
  - pose proof Hg as Hg'. vm_compute in Hg'. injection Hg' as Hg'.
    assert (Hfree : map_Forall (λ (_ : Z) (n : Theory.Note),
                                  Float.is_nan (Theory.pitch n) = false)
                      (Guitar.strings g)).
    { rewrite <- Hg'. apply (bool_decide_unpack _). vm_compute. exact I. }
    exact Hfree.
  - exists g, pss, out. split; [reflexivity|]. split; [exact Hout | exact Hall].
Defined.

(** ** The text of a score *)

Lemma append_assoc (a b c : string) :
  String.append (String.append a b) c = String.append a (String.append b c).
Proof.
  induction a as [|x a IH]; [done|].
  change (String x (String.append (String.append a b) c)
          = String x (String.append a (String.append b c))).
  by f_equal.
Qed.

Lemma append_empty_r (a : string) : String.append a EmptyString = a.
Proof.
  induction a as [|x a IH]; [done|].
  change (String x (String.append a EmptyString) = String x a). by f_equal.
Qed.

(** What a note adds to the text does not depend on the text so far. *)
Lemma note_step_appends (notes : list Theory.Note) (note : Theory.Note) (word : string) :
  Notation.note_step notes "" note = Ok word →
  ∀ note_txt, Notation.note_step notes note_txt note = Ok (String.append note_txt word).
Proof.
  unfold Notation.note_step. intros Hword note_txt.
  destruct (Notation.str_getitem (Theory.name note) 0) as [first|e];
    cbn [mbind result_bind] in *; [|done].
  destruct (1 <? String.length (Theory.name note))%nat.
  - destruct (Notation.str_getitem (Theory.name note) 1) as [second|e];
      cbn [mbind result_bind] in *; [|done].
    destruct (Notation.convert second) as [syllable|e]; cbn [mbind result_bind] in *; [|done].
    destruct (getitem notes 1) as [at_1|e]; cbn [mbind result_bind] in *; [|done].
    injection Hword as <-. f_equal.
    destruct (String.eqb _ _); by rewrite !append_assoc.
  - cbn [mbind result_bind] in *.
    destruct (getitem notes 1) as [at_1|e]; cbn [mbind result_bind] in *; [|done].
    injection Hword as <-. f_equal.
    destruct (String.eqb _ _); by rewrite ?append_assoc.
Qed.

Lemma note_loop_appends (notes ns : list Theory.Note) (words : list string) :
  Forall2 (λ note word, Notation.note_step notes "" note = Ok word) ns words →
  ∀ note_txt,
    for_each (Notation.note_step notes) ns note_txt
    = Ok (String.append note_txt (foldr String.append "" words)).
Proof.
  induction 1 as [|note word ns words Hword _ IH]; intros note_txt.
  - simpl. by rewrite append_empty_r.
  - rewrite for_each_cons, (note_step_appends _ _ _ Hword). cbn [mbind result_bind foldr].
    by rewrite IH, append_assoc.
Qed.

(** A name of the chromatic table has a first character, and a second
    one that [convert] knows when it has more than one. *)
Lemma chromatic_name_converts (nm : string) :
  nm ∈ Theory.notes theory →
  ∃ first, Notation.str_getitem nm 0 = Ok first
    ∧ ((1 <? String.length nm)%nat = true →
       ∃ second syllable,
         Notation.str_getitem nm 1 = Ok second ∧ Notation.convert second = Ok syllable).
Proof.
  assert (Hall : Forall (λ nm,
            ∃ first, Notation.str_getitem nm 0 = Ok first
              ∧ ((1 <? String.length nm)%nat = true →
                 ∃ second syllable,
                   Notation.str_getitem nm 1 = Ok second
                   ∧ Notation.convert second = Ok syllable))
            (Theory.notes theory)).
  { repeat (constructor;
      [eexists; split; [reflexivity|]; intros Hlong;
       first [discriminate Hlong | by eexists _, _]|]).
    constructor. }
  rewrite Forall_forall in Hall. apply Hall.
Qed.

(** X19. For a list of one note the text of the score is never produced:
    building it raises [IndexError] or [KeyError], and it is [IndexError]
    (from [self.notes[1]]) when the note's name is one of the twelve
    chromatic names. *)
Theorem score_of_one_note_raises (note : Theory.Note) :
  (Notation.score_text [note] = Raise IndexError
   ∨ Notation.score_text [note] = Raise KeyError)
  ∧ (Theory.name note ∈ Theory.notes theory →
     Notation.score_text [note] = Raise IndexError).
Proof.
  assert (Hrun : ∀ e, Notation.note_step [note] "" note = Raise e →
                      Notation.score_text [note] = Raise e).
  { intros e He. unfold Notation.score_text. rewrite for_each_cons, He. done. }
  unfold Notation.note_step in Hrun. split.
  - destruct (Notation.str_getitem (Theory.name note) 0) as [first|e] eqn:Hfirst;
      cbn [mbind result_bind] in Hrun.
    2:{ left. unfold Notation.str_getitem in Hfirst.
        destruct (String.get 0 (Theory.name note)); [done|].
        injection Hfirst as <-. by apply Hrun. }
    destruct (1 <? String.length (Theory.name note))%nat; cbn [mbind result_bind] in Hrun.
    + destruct (Notation.str_getitem (Theory.name note) 1) as [second|e] eqn:Hsecond;
        cbn [mbind result_bind] in Hrun.
      2:{ left. unfold Notation.str_getitem in Hsecond.
          destruct (String.get 1 (Theory.name note)); [done|].
          injection Hsecond as <-. by apply Hrun. }
      destruct (Notation.convert second) as [syllable|e] eqn:Hsyllable;
        cbn [mbind result_bind] in Hrun.
      * left. by apply Hrun.
      * right. unfold Notation.convert in Hsyllable.
        destruct (Ascii.eqb second _); [done|]. destruct (Ascii.eqb second _); [done|].
        injection Hsyllable as <-. by apply Hrun.
    + left. by apply Hrun.
  - intros (first & Hfirst & Hlong)%chromatic_name_converts.
    rewrite Hfirst in Hrun. cbn [mbind result_bind] in Hrun.
    destruct (1 <? String.length (Theory.name note))%nat; cbn [mbind result_bind] in Hrun.
    + destruct (Hlong eq_refl) as (second & syllable & Hsecond & Hsyllable).
      rewrite Hsecond in Hrun. cbn [mbind result_bind] in Hrun.
      rewrite Hsyllable in Hrun. by apply Hrun.
    + by apply Hrun.
Qed.

Lemma score_of_one_note_raises_witness :
  Notation.score_text [{| Theory.name := "C#"; Theory.pitch := Float.decimal 27718 2 |}]
  = Raise IndexError.
Proof.
  apply (score_of_one_note_raises {| Theory.name := "C#"; Theory.pitch := Float.decimal 27718 2 |}).
  vm_compute. repeat first [left | right].
Defined.

(** X20. For two or more notes with chromatic names the text of the score
    is produced: the version line, the opening of the relative block, then
    for each note in order the word that this note gives on its own, and the
    closing brace on a line of its own. *)
Theorem score_of_chromatic_notes (notes : list Theory.Note) :
  (2 ≤ length notes)%nat →
  (∀ note, note ∈ notes → Theory.name note ∈ Theory.notes theory) →
  ∃ words,
    Forall2 (λ note word, Notation.note_step notes "" note = Ok word) notes words
    ∧ Notation.score_text notes
      = Ok (String.append
              (String.append "\version "
                 (String.append Notation.quote
                    (String.append "2.24.3"
                       (String.append Notation.quote Notation.newline))))
              (String.append (String.append "\relative {" Notation.newline)
                 (String.append (foldr String.append "" words)
                    (String.append Notation.newline "}")))).
Proof.
  intros Hlen Hnames.
  destruct (lookup_lt_is_Some_2 notes 1) as [at_1 Hat_1]; [lia|].
  assert (Hget : getitem notes 1 = Ok at_1) by (by apply getitem_lookup).
  assert (Hwords : ∀ ns, (∀ note, note ∈ ns → Theory.name note ∈ Theory.notes theory) →
            ∃ words, Forall2 (λ note word, Notation.note_step notes "" note = Ok word)
                       ns words).
  { induction ns as [|note ns IH]; intros Hns; [exists []; constructor|].
    destruct IH as [words Hwords]; [intros n Hn; apply Hns; by right|].
    destruct (chromatic_name_converts (Theory.name note)) as (first & Hfirst & Hlong);
      [apply Hns; left|].
    assert (Hword : ∃ word, Notation.note_step notes "" note = Ok word).
    { unfold Notation.note_step. rewrite Hfirst, Hget. cbn [mbind result_bind].
      destruct (1 <? String.length (Theory.name note))%nat.
      - destruct (Hlong eq_refl) as (second & syllable & Hsecond & Hsyllable).
        rewrite Hsecond. cbn [mbind result_bind]. rewrite Hsyllable.
        cbn [mbind result_bind]. by eexists.
      - cbn [mbind result_bind]. by eexists. }
    destruct Hword as [word Hword]. exists (word :: words). by constructor. }
  destruct (Hwords notes Hnames) as [words Hall].
  exists words. split; [done|].
  unfold Notation.score_text. rewrite (note_loop_appends notes notes words Hall).
  reflexivity.
Qed.

Lemma score_of_chromatic_notes_witness :
  let C := {| Theory.name := "C"; Theory.pitch := Float.decimal 26163 2 |} in
  let Eb := {| Theory.name := "Eb"; Theory.pitch := Float.decimal 31113 2 |} in
  ∃ words,
    Forall2 (λ note word, Notation.note_step [C; Eb] "" note = Ok word) [C; Eb] words
    ∧ Notation.score_text [C; Eb]
      = Ok (String.append
              (String.append "\version "
                 (String.append Notation.quote
                    (String.append "2.24.3"
                       (String.append Notation.quote Notation.newline))))
              (String.append (String.append "\relative {" Notation.newline)
                 (String.append (foldr String.append "" words)
                    (String.append Notation.newline "}")))).
Proof.
  intros C Eb. apply (score_of_chromatic_notes [C; Eb]).
  - simpl. lia.
  - intros note Hnote.
    assert (Hall : Forall (λ note, Theory.name note ∈ Theory.notes theory) [C; Eb]).
    { repeat (constructor; [vm_compute; repeat first [left | right]|]). constructor. }
    rewrite Forall_forall in Hall. by apply Hall.
Defined.

(** ** What a mode does to the table *)

Lemma sum_snoc (l : list Z) (x : Z) : foldr Z.add 0 (l ++ [x]) = foldr Z.add 0 l + x.
Proof. induction l as [|y l IH]; simpl; [lia|]. rewrite IH. lia. Qed.

(** Each turn of the loop of [invert] keeps the number of intervals and
    adds 12 to their sum; no other list is touched. *)
Lemma invert_loop_sum (k : nat) (intervals : ref) (h : heap) (l : list Z) :
  h !! intervals = Some l → l ≠ [] →
  ∃ l', Theory.invert_loop k intervals h = Ok (<[intervals := l']> h)
    ∧ length l' = length l
    ∧ foldr Z.add 0 l' = foldr Z.add 0 l + 12 * Z.of_nat k
    ∧ (k = 0%nat → l' = l).
Proof.
  revert h l. induction k as [|k IH]; intros h l Hl Hne.
  - exists l. split; [|split; [done|split; [lia|done]]].
    simpl. f_equal. symmetry. by apply insert_id.
  - destruct l as [|x rest]; [done|].
    cbn [Theory.invert_loop]. unfold list_pop0.
    rewrite (lookup_total_correct _ _ _ Hl). cbn [mbind result_bind].
    unfold list_append.
    rewrite (lookup_total_correct (<[intervals:=rest]> h) intervals rest)
      by apply lookup_insert_eq.
    rewrite insert_insert_eq.
    destruct (IH (<[intervals := rest ++ [x + 12]]> h) (rest ++ [x + 12]))
      as (l' & Hrun & Hlen & Hsum & _); [apply lookup_insert_eq | by destruct rest|].
    exists l'. rewrite Hrun, insert_insert_eq. split; [done|]. split; [|split; [|done]].
    + rewrite Hlen, length_app. simpl. lia.
    + rewrite Hsum, sum_snoc. simpl. lia.
Qed.

(** X21. [get_mode_intervals] on a table [major_intervals] that is not
    empty: a mode that is not in [modes] raises [ValueError]; the mode of
    index [i] returns the table itself and changes no other list, the table
    keeps its number of intervals, the sum of its intervals grows by
    [12 * i], and the first mode (index 0) leaves it as it was. *)
Theorem get_mode_intervals_frame
    (self : Theory.TheoryMaster) (mode : string) (h : heap) (l : list Z) :
  h !! Theory.major_intervals self = Some l → l ≠ [] →
  (mode ∉ Theory.modes self → Theory.get_mode_intervals self mode h = Raise ValueError)
  ∧ (∀ i, list_index (Theory.modes self) mode = Ok i →
       ∃ l', Theory.get_mode_intervals self mode h
             = Ok (Theory.major_intervals self, <[Theory.major_intervals self := l']> h)
         ∧ length l' = length l
         ∧ foldr Z.add 0 l' = foldr Z.add 0 l + 12 * i
         ∧ (i = 0 → l' = l)).
Proof.
  intros Hl Hne. split.
  - intros Hmode. unfold Theory.get_mode_intervals.
    destruct (list_contains (Theory.modes self) mode) eqn:Hin; [|done].
    by apply list_contains_elem_of in Hin.
  - intros i Hi. rewrite (get_mode_intervals_known self mode i h Hi).
    destruct (index_from_bounds _ _ _ _ Hi) as [[Hi0 _] _].
    destruct (invert_loop_sum (Z.to_nat i) _ h l Hl Hne) as (l' & Hrun & Hlen & Hsum & Hsame).
    exists l'. unfold Theory.invert. rewrite Hrun. split; [done|]. split; [done|].
    split; [lia|]. intros ->. by apply Hsame.
Qed.

Lemma get_mode_intervals_frame_witness :
  let '(self, h) := Theory.TheoryMaster_init ∅ in
  Theory.get_mode_intervals self "blues" h = Raise ValueError
  ∧ ∃ l', Theory.get_mode_intervals self "lydian" h
          = Ok (Theory.major_intervals self, <[Theory.major_intervals self := l']> h)
      ∧ foldr Z.add 0 l' = 12 + 12 * 3.
Proof.
  destruct (Theory.TheoryMaster_init ∅) as [self h] eqn:Hinit.
  injection Hinit as <- <-.
  match goal with |- context [Theory.get_mode_intervals ?s _ ?h0] =>
    assert (Hl : h0 !! Theory.major_intervals s = Some [2; 2; 1; 2; 2; 2; 1]) by reflexivity;
    destruct (get_mode_intervals_frame s "lydian" h0 _ Hl ltac:(discriminate))
      as [_ Hknown];
    destruct (get_mode_intervals_frame s "blues" h0 _ Hl ltac:(discriminate))
      as [Hunknown _]
  end.
  split.
  - apply Hunknown. vm_compute. intros Hin.
    repeat (apply elem_of_cons in Hin as [Hin|Hin]; [discriminate Hin|]).
    by apply elem_of_nil in Hin.
  - destruct (Hknown 3 eq_refl) as (l' & Hrun & _ & Hsum & _).
    exists l'. split; [exact Hrun | exact Hsum].
Defined.

(** ** Instruments without positions, and where a position lies *)

Lemma range_nonpos (n : Z) : n ≤ 0 → range n = [].
Proof. intros Hn. unfold range. by replace (Z.to_nat n) with 0%nat by lia. Qed.

(** X22. An instrument without positions is built empty and without an
    error: a guitar with no fret (or a negative number of frets) or with an
    empty tuning has no position and no class, whatever the names of its
    tuning are; a piano with no key (or a negative number of keys) and a low
    note of a chromatic name has no key and no note. *)
Theorem instruments_without_positions
    (float_pow_nonzero : float → float → result float) :
  (∀ nstrings frets tuning, frets ≤ 0 ∨ tuning = [] →
     Guitar.init float_pow_nonzero nstrings frets tuning
     = Ok {| Guitar.nstrings := nstrings; Guitar.frets := frets; Guitar.tuning := tuning;
             Guitar.strings := ∅; Guitar.notes := [] |})
  ∧ (∀ num_keys low_note, num_keys ≤ 0 →
       Theory.name low_note ∈ Theory.notes theory →
       Piano.init float_pow_nonzero num_keys low_note
       = Ok {| Piano.num_keys := num_keys; Piano.low_note := low_note;
               Piano.keys := ∅; Piano.notes := [] |}).
Proof.
  split.
  - intros nstrings frets tuning Hempty. unfold Guitar.init, Guitar._initiate.
    assert (Hrun : ∀ items st,
              frets ≤ 0 ∨ items = [] →
              for_each (Guitar.initiate_string float_pow_nonzero frets) items st = Ok st).
    { induction items as [|[s open] items IH]; intros st Hitems; [done|].
      destruct Hitems as [Hfrets|?]; [|done].
      rewrite for_each_cons.
      change (Guitar.initiate_string float_pow_nonzero frets st (s, open))
        with (for_each (Guitar.initiate_fret float_pow_nonzero frets s open)
                (range frets) st).
      rewrite (range_nonpos frets Hfrets). cbn [for_each mbind result_bind].
      apply IH. by left. }
    rewrite Hrun; [done|]. destruct Hempty as [?| ->]; [by left | by right].
  - intros num_keys low_note Hkeys Hname. unfold Piano.init, Piano._initiate.
    destruct (index_from_present _ _ 0 Hname) as [index Hindex].
    unfold Theory.note_stream, list_index. rewrite Hindex.
    cbn [mbind result_bind]. rewrite (range_nonpos num_keys Hkeys). reflexivity.
Qed.

Lemma instruments_without_positions_witness :
  let H := {| Theory.name := "H"; Theory.pitch := Float.decimal 12347 2 |} in
  Guitar.init Libm.pow_nonzero 6 0 [H]
  = Ok {| Guitar.nstrings := 6; Guitar.frets := 0; Guitar.tuning := [H];
          Guitar.strings := ∅; Guitar.notes := [] |}.
Proof.
  intros H. apply (proj1 (instruments_without_positions Libm.pow_nonzero) 6 0 [H]).
  left. lia.
Defined.

(** X23. On a constructed guitar, [get_coordinates] of a position that
    holds a note gives the string and the fret of that note: the string is
    an index into the tuning, the fret lies between 0 and [frets - 1], the
    position is [string * frets + fret], and the note is the one built for
    that fret of that string. *)
Theorem coordinates_locate_the_note
    (float_pow_nonzero : float → float → result float)
    (nstrings frets : Z) (tuning : list Theory.Note) (g : Guitar.Guitar)
    (p : Z) (n : Theory.Note) :
  Guitar.init float_pow_nonzero nstrings frets tuning = Ok g →
  Guitar.strings g !! p = Some n →
  ∃ s f open,
    Analysis.get_coordinates g p = Ok (s, f)
    ∧ 0 ≤ s ∧ tuning !! Z.to_nat s = Some open
    ∧ 0 ≤ f < frets
    ∧ p = s * frets + f
    ∧ Guitar.fretted_note float_pow_nonzero open f = Ok n.
Proof.
  unfold Guitar.init, Guitar._initiate.
  destruct (for_each _ _ _) as [[strings notes]|e] eqn:Hrun; cbn [mbind result_bind]; [|done].
  intros [= <-]. cbn [Guitar.strings].
  apply strings_loop_Ok in Hrun as (_ & Hprov & _).
  intros Hn. destruct (Hprov p n Hn) as [Hempty|(s & open & f & Hin & Hf & -> & Hnote)].
  { by rewrite lookup_empty in Hempty. }
  apply elem_of_range in Hf. apply elem_of_enumerate in Hin as [Hs Hopen].
  exists s, f, open. split; [|done].
  unfold Analysis.get_coordinates, Analysis.floordiv, Analysis.modulo. cbn [Guitar.frets].
  destruct (Z.eqb_spec frets 0) as [?|_]; [lia|].
  cbn [mbind result_bind]. do 2 f_equal.
  - symmetry. apply Z.div_unique with f; lia.
  - symmetry. apply Z.mod_unique with s; lia.
Qed.

Lemma coordinates_locate_the_note_witness :
  let D := {| Theory.name := "D"; Theory.pitch := Float.decimal 14683 2 |} in
  let G := {| Theory.name := "G"; Theory.pitch := Float.decimal 19600 2 |} in
  ∃ g n s f open,
    Guitar.init Libm.pow_nonzero 2 3 [D; G] = Ok g
    ∧ Guitar.strings g !! 4 = Some n
    ∧ Analysis.get_coordinates g 4 = Ok (s, f)
    ∧ Guitar.fretted_note Libm.pow_nonzero open f = Ok n.
Proof.
  intros D G.
  destruct (Guitar.init Libm.pow_nonzero 2 3 [D; G]) as [g|e] eqn:Hg;
    [|vm_compute in Hg; discriminate Hg].
  destruct (Guitar.strings g !! 4) as [n|] eqn:Hn.
  2:{ exfalso. pose proof Hg as Hg'. vm_compute in Hg'. injection Hg' as Hg'.
      rewrite <- Hg' in Hn. vm_compute in Hn. discriminate Hn. }
  destruct (coordinates_locate_the_note Libm.pow_nonzero 2 3 [D; G] g 4 n Hg Hn)
    as (s & f & open & Hcoord & _ & _ & _ & _ & Hnote).
  exists g, n, s, f, open. split; [reflexivity|]. split; [exact Hn|].
  split; [exact Hcoord | exact Hnote].
Defined.
